(** * vulndb: report conversion, entry generation and the fix pass

    A shallow embedding of
    - [internal/report]: [cveToReport], [cve5ToReport], [addCVE], [vendor],
      [removeNewlines], [GenerateOSVEntry], [ReadOSV], [UnmarshalFromFile],
      [ModulesForEntry], [AffectedRanges], [trimWhitespace],
      [generateImports], [generateAffected];
    - [cmd/vulnreport/fix.go]: [fixAndWriteAll], [fix], [checkRefs],
      [checkSymbols], [removeExcluded], [semverForGoVersion].

    Go strings are [string]s (byte sequences), slices are [list]s (a nil
    slice and an empty slice are both [[]]), structs are records.  Packages
    the two files import but that are not part of them ([stdlib], [osv]
    constants, [symbols.Exported], [osvutils.AffectsSemver], the linter, the
    alias finder, the HTTP client, the report writer) are section variables. *)

From Stdlib Require Import NArith ZArith Ascii String Sorted.
From stdpp Require Import list strings gmap.

Local Open Scope string_scope.
Local Open Scope list_scope.

(** ** Data model *)

(** [internal/osv]: the public entry. *)
Module osv.

Record RangeEvent := {
  Introduced : string;
  Fixed : string
}.

Record Range := {
  Type_ : string;
  Events : list RangeEvent
}.

Record Package := {
  Path : string;
  GOOS : list string;
  GOARCH : list string;
  Symbols : list string
}.

Record Module_ := {
  ModPath : string;
  Ecosystem : string
}.

Record EcosystemSpecific := {
  Packages : list Package
}.

Record Affected := {
  Module' : Module_;
  Ranges : list Range;
  EcosystemSpecific' : EcosystemSpecific
}.

Record Credit := {
  Name : string
}.

Record Reference := {
  RefType : string;
  RefURL : string
}.

Record DatabaseSpecific := {
  URL : string
}.

(** The entry; [Time] is [time.Time], which the code only passes on. *)
Record Entry {Time : Type} := {
  ID : string;
  Published : Time;
  Modified : Time;
  Withdrawn : option Time;
  Details : list N;
  Credits : list Credit;
  SchemaVersion : string;
  DatabaseSpecific' : option DatabaseSpecific;
  Affected' : list Affected;
  References : list Reference;
  Aliases : list string
}.
Arguments Entry : clear implicits.

End osv.

(** [internal/report]: the internal report.  [Module] is a reserved word, so
    the struct is [Module_]; a field that has the name of its struct carries
    a prime. *)
Module report.

Record VersionRange := {
  Introduced : string;
  Fixed : string
}.

Record Package := {
  Package' : string;
  GOOS : list string;
  GOARCH : list string;
  Symbols : list string;
  DerivedSymbols : list string;
  ExcludedSymbols : list string;
  SkipFix : string
}.

Record Module_ := {
  Module' : string;
  Versions : list VersionRange;
  VulnerableAt : string;
  Packages : list Package
}.

Record Reference := {
  Type_ : string;
  URL : string
}.

Record CVEMeta := {
  ID' : string;
  CWE : string
}.

Record Note := {
  Body : string;
  NoteType : string
}.

Record Report := {
  ID : string;
  Modules : list Module_;
  Description : string;
  Credits : list string;
  References : list Reference;
  CVEs : list string;
  CVEMetadata : option CVEMeta;
  Notes : list Note
}.

End report.

(** [internal/cveschema]: the CVE v4 record, as far as the converter reads
    it.  A nested path [c.Description.Data] is the field [Description_Data]. *)
Module cveschema.

Record LangString := {
  Lang : string;
  Value : string
}.

Record Reference := {
  URL : string
}.

Record ProductDataItem := {
  ProductName : string
}.

Record VendorDataItem := {
  Product_Data : list ProductDataItem
}.

Record CVE := {
  Metadata_ID : string;
  Description_Data : list LangString;
  References_Data : list Reference;
  Credit_Data_Description_Data : list LangString;
  Affects_Vendor_Data : list VendorDataItem
}.

End cveschema.

(** [internal/cveschema5]: the CVE v5 record; [cna] is
    [c.Containers.CNAContainer]. *)
Module cveschema5.

Record Description := {
  Lang : string;
  Value : string
}.

Record Credit := {
  CreditValue : string
}.

Record Reference := {
  URL : string
}.

Record Affected := {
  Product : string
}.

Record CNAPublishedContainer := {
  Descriptions : list Description;
  Credits : list Credit;
  References : list Reference;
  Affected' : list Affected
}.

Record CVERecord := {
  Metadata_ID : string;
  Containers_CNAContainer : CNAPublishedContainer
}.

End cveschema5.

(** The line feed, Go's ["\n"]. *)
Definition LF : string := String "010"%char "".

(** ** Package [internal/report] *)

Section Report.

(** Declared in [internal/osv]. *)
Variable RangeTypeSemver : string.
Variable GoStdModulePath : string.
Variable GoCmdModulePath : string.
Variable GoEcosystem : string.

(** Declared in [internal/stdlib]. *)
Variable ModulePath : string.
Variable ToolchainModulePath : string.
Variable Contains : string -> bool.
Variable IsStdModule : string -> bool.
Variable IsCmdModule : string -> bool.
Variable IsXModule : string -> bool.

(** Declared elsewhere in [internal/report]. *)
Variable referenceFromUrl : string -> report.Reference.

(** *** Schema Converter *)

Definition addCVE (r : report.Report) (cveID modulePath : string) : report.Report :=
  if IsStdModule modulePath || IsCmdModule modulePath || IsXModule modulePath
  then {| report.ID := report.ID r;
          report.Modules := report.Modules r;
          report.Description := report.Description r;
          report.Credits := report.Credits r;
          report.References := report.References r;
          report.CVEs := report.CVEs r;
          report.CVEMetadata := Some {| report.ID' := cveID; report.CWE := "TODO" |};
          report.Notes := report.Notes r |}
  else {| report.ID := report.ID r;
          report.Modules := report.Modules r;
          report.Description := report.Description r;
          report.Credits := report.Credits r;
          report.References := report.References r;
          report.CVEs := report.CVEs r ++ [cveID];
          report.CVEMetadata := report.CVEMetadata r;
          report.Notes := report.Notes r |}.

(** The three steps both converters share, on [(pkgPath, modulePath)]:
    standard-library correction, the unresolved marker, the package
    default.  Each [if] is one [if] statement of the source. *)
Definition stdlibCorrection (paths : string * string) : string * string :=
  let '(pkgPath, modulePath) := paths in
  if Contains modulePath then (modulePath, ModulePath) else (pkgPath, modulePath).

Definition unresolvedModule (paths : string * string) : string * string :=
  let '(pkgPath, modulePath) := paths in
  if modulePath =? "" then (pkgPath, "TODO") else (pkgPath, modulePath).

Definition defaultPackage (paths : string * string) : string * string :=
  let '(pkgPath, modulePath) := paths in
  if pkgPath =? "" then (modulePath, modulePath) else (pkgPath, modulePath).

Definition cveToReport (c : cveschema.CVE) (id modulePath : string) : report.Report :=
  let description :=
    fold_left (fun description d => description +:+ (cveschema.Value d +:+ LF))
              (cveschema.Description_Data c) "" in
  let refs :=
    fold_left (fun refs r => refs ++ [referenceFromUrl (cveschema.URL r)])
              (cveschema.References_Data c) [] in
  let credits :=
    fold_left (fun credits v => credits ++ [cveschema.Value v])
              (cveschema.Credit_Data_Description_Data c) [] in
  let pkgPath :=
    match cveschema.Affects_Vendor_Data c with
    | data0 :: _ =>
        match cveschema.Product_Data data0 with
        | data2_0 :: _ => cveschema.ProductName data2_0
        | [] => ""
        end
    | [] => ""
    end in
  let '(pkgPath, modulePath) :=
    defaultPackage (unresolvedModule (stdlibCorrection (pkgPath, modulePath))) in
  let r :=
    {| report.ID := id;
       report.Modules :=
         [ {| report.Module' := modulePath;
              report.Versions := [];
              report.VulnerableAt := "";
              report.Packages :=
                [ {| report.Package' := pkgPath;
                     report.GOOS := [];
                     report.GOARCH := [];
                     report.Symbols := [];
                     report.DerivedSymbols := [];
                     report.ExcludedSymbols := [];
                     report.SkipFix := "" |} ] |} ];
       report.Description := description;
       report.Credits := credits;
       report.References := refs;
       report.CVEs := [];
       report.CVEMetadata := None;
       report.Notes := [] |} in
  addCVE r (cveschema.Metadata_ID c) modulePath.

Definition cve5ToReport (c : cveschema5.CVERecord) (id modulePath : string) : report.Report :=
  let cna := cveschema5.Containers_CNAContainer c in
  let description :=
    fold_left (fun description d =>
                 if cveschema5.Lang d =? "en"
                 then description +:+ (cveschema5.Value d +:+ LF)
                 else description)
              (cveschema5.Descriptions cna) "" in
  let credits :=
    fold_left (fun credits c => credits ++ [cveschema5.CreditValue c])
              (cveschema5.Credits cna) [] in
  let refs :=
    fold_left (fun refs ref => refs ++ [referenceFromUrl (cveschema5.URL ref)])
              (cveschema5.References cna) [] in
  let pkgPath :=
    match cveschema5.Affected' cna with
    | affected0 :: _ => cveschema5.Product affected0
    | [] => ""
    end in
  let '(pkgPath, modulePath) :=
    defaultPackage (unresolvedModule (stdlibCorrection (pkgPath, modulePath))) in
  let modules :=
    [ {| report.Module' := modulePath;
         report.Versions := [];
         report.VulnerableAt := "";
         report.Packages :=
           [ {| report.Package' := pkgPath;
                report.GOOS := [];
                report.GOARCH := [];
                report.Symbols := [];
                report.DerivedSymbols := [];
                report.ExcludedSymbols := [];
                report.SkipFix := "" |} ] |} ] in
  let r :=
    {| report.ID := id;
       report.Modules := modules;
       report.Description := description;
       report.Credits := credits;
       report.References := refs;
       report.CVEs := [];
       report.CVEMetadata := None;
       report.Notes := [] |} in
  addCVE r (cveschema5.Metadata_ID c) modulePath.

(** The converters' result as the specification words it: the candidate
    package path of each record shape, the resolved paths, and the one
    module with its one package. *)
Definition candidatePackage (c : cveschema.CVE) : string :=
  match cveschema.Affects_Vendor_Data c with
  | [] => ""
  | vendor :: _ =>
      match cveschema.Product_Data vendor with
      | [] => ""
      | product :: _ => cveschema.ProductName product
      end
  end.

Definition candidatePackage5 (c : cveschema5.CVERecord) : string :=
  match cveschema5.Affected' (cveschema5.Containers_CNAContainer c) with
  | [] => ""
  | affected :: _ => cveschema5.Product affected
  end.

Definition resolvedModule (modulePath : string) : string :=
  let corrected := if Contains modulePath then ModulePath else modulePath in
  if decide (corrected = "") then "TODO" else corrected.

Definition resolvedPackage (candidate modulePath : string) : string :=
  let corrected := if Contains modulePath then modulePath else candidate in
  if decide (corrected = "") then resolvedModule modulePath else corrected.

Definition skeletonModules (modulePath pkgPath : string) : list report.Module_ :=
  [ {| report.Module' := modulePath;
       report.Versions := [];
       report.VulnerableAt := "";
       report.Packages :=
         [ {| report.Package' := pkgPath;
              report.GOOS := [];
              report.GOARCH := [];
              report.Symbols := [];
              report.DerivedSymbols := [];
              report.ExcludedSymbols := [];
              report.SkipFix := "" |} ] |} ].

(** *** Range Builder *)

Definition introducedEvent (v : string) : osv.RangeEvent :=
  {| osv.Introduced := v; osv.Fixed := "" |}.

Definition fixedEvent (v : string) : osv.RangeEvent :=
  {| osv.Introduced := ""; osv.Fixed := v |}.

(** One turn of the loop [for _, v := range versions]: [events] is
    [a.Events] on entry, the result is [a.Events] on exit. *)
Definition appendRange (events : list osv.RangeEvent) (v : report.VersionRange)
  : list osv.RangeEvent :=
  let events :=
    if negb (report.Introduced v =? "")
    then events ++ [introducedEvent (report.Introduced v)]
    else events in
  if negb (report.Fixed v =? "")
  then events ++ [fixedEvent (report.Fixed v)]
  else events.

Definition AffectedRanges (versions : list report.VersionRange) : list osv.Range :=
  let events : list osv.RangeEvent := [] in
  let events :=
    if (length versions =? 0)%nat
       || match versions with
          | v0 :: _ => report.Introduced v0 =? ""
          | [] => false
          end
    then events ++ [introducedEvent "0"]
    else events in
  let events := fold_left appendRange versions events in
  [ {| osv.Type_ := RangeTypeSemver; osv.Events := events |} ].

(** The event sequence as the specification words it. *)
Definition implicitZero (versions : list report.VersionRange) : list osv.RangeEvent :=
  match versions with
  | [] => [introducedEvent "0"]
  | v0 :: _ => if decide (report.Introduced v0 = "") then [introducedEvent "0"] else []
  end.

Definition eventsOfRange (v : report.VersionRange) : list osv.RangeEvent :=
  (if decide (report.Introduced v = "") then [] else [introducedEvent (report.Introduced v)])
  ++ (if decide (report.Fixed v = "") then [] else [fixedEvent (report.Fixed v)]).

Definition specEvents (versions : list report.VersionRange) : list osv.RangeEvent :=
  implicitZero versions ++ concat (map eventsOfRange versions).

(** *** Entry Generator *)

(** [sort.Strings]: ascending in Go's string order (byte-wise
    lexicographic), duplicates kept. *)
Fixpoint insertSorted (s : string) (l : list string) : list string :=
  match l with
  | [] => [s]
  | x :: l' => if String.leb s x then s :: l else x :: insertSorted s l'
  end.

Definition sortStrings (l : list string) : list string :=
  fold_right insertSorted [] l.

Definition generateImports (m : report.Module_) : list osv.Package :=
  fold_left
    (fun imps p =>
       let syms := [] ++ report.Symbols p in
       let syms := syms ++ report.DerivedSymbols p in
       let syms := sortStrings syms in
       imps ++ [ {| osv.Path := report.Package' p;
                    osv.GOOS := report.GOOS p;
                    osv.GOARCH := report.GOARCH p;
                    osv.Symbols := syms |} ])
    (report.Packages m) [].

Definition generateAffected (m : report.Module_) : osv.Affected :=
  let name := report.Module' m in
  let name :=
    if name =? ModulePath then GoStdModulePath
    else if name =? ToolchainModulePath then GoCmdModulePath
    else name in
  {| osv.Module' := {| osv.ModPath := name; osv.Ecosystem := GoEcosystem |};
     osv.Ranges := AffectedRanges (report.Versions m);
     osv.EcosystemSpecific' := {| osv.Packages := generateImports m |} |}.

(** [vendor] *)
Definition vendor (modulePath : string) : string :=
  if modulePath =? ModulePath then "Go standard library"
  else if modulePath =? ToolchainModulePath then "Go toolchain"
  else modulePath.

End Report.
(** ** Regular expressions

    The part of Go's [regexp] the two files use: expressions, the
    leftmost-first search with its capture groups, and [ReplaceAllString].
    The characters are of any type [A]: bytes for the version tag, whose
    expression has ASCII characters only, code points for the description. *)

Module regexp.
Section Regexp.
Context {A : Type}.

(** The operators of [regexp/syntax]; [x+] and [x?] are [Plus] and
    [Quest] below. *)
Inductive Regexp :=
| EmptyMatch
| CharClass (p : A -> bool)
| Concat (r1 r2 : Regexp)
| Alternate (r1 r2 : Regexp)
| Star (r : Regexp)
| Capture (n : nat) (r : Regexp)
| BeginText
| EndText.

Definition Plus (r : Regexp) : Regexp := Concat r (Star r).
Definition Quest (r : Regexp) : Regexp := Alternate r EmptyMatch.

(** A thread of the search: the position reached, the input still to
    read, and the text of the groups closed so far, latest first. *)
Record Thread := {
  pos : nat;
  rest : list A;
  caps : list (nat * list A)
}.

Definition advance (t : Thread) (cs : list A) : Thread :=
  {| pos := S (pos t); rest := cs; caps := caps t |}.

(** Group [n] opened at [t0] and closed at [t]. *)
Definition capture (n : nat) (t0 t : Thread) : Thread :=
  {| pos := pos t; rest := rest t;
     caps := (n, take (pos t - pos t0) (rest t0)) :: caps t |}.

(** [x*], greedy: one more [x] is tried before the continuation [k].  An
    iteration reads at least one character, so [n], the length of the
    input left, bounds the number of iterations. *)
Fixpoint star (step : (Thread -> option Thread) -> Thread -> option Thread)
    (n : nat) (k : Thread -> option Thread) (t : Thread) : option Thread :=
  match n with
  | 0 => k t
  | S n' =>
      match step (fun t' => if (pos t <? pos t')%nat then star step n' k t' else None) t with
      | Some m => Some m
      | None => k t
      end
  end.

(** The backtracking search: [run r k t] is the first match of [r] at [t]
    that the continuation [k] accepts, the alternatives tried in the order
    of preference (leftmost-first, as Go's [regexp] defines its matches). *)
Fixpoint run (r : Regexp) (k : Thread -> option Thread) (t : Thread) : option Thread :=
  match r with
  | EmptyMatch => k t
  | CharClass p =>
      match rest t with
      | c :: cs => if p c then k (advance t cs) else None
      | [] => None
      end
  | Concat r1 r2 => run r1 (run r2 k) t
  | Alternate r1 r2 =>
      match run r1 k t with
      | Some m => Some m
      | None => run r2 k t
      end
  | Star r' => star (run r') (length (rest t)) k t
  | Capture n r' => run r' (fun t' => k (capture n t t')) t
  | BeginText => if (pos t =? 0)%nat then k t else None
  | EndText => match rest t with [] => k t | _ :: _ => None end
  end.

(** The leftmost match in the input [s], which starts at position [p]:
    where it starts, and the thread at its end. *)
Fixpoint find (r : Regexp) (p : nat) (s : list A) : option (nat * Thread) :=
  match run r Some {| pos := p; rest := s; caps := [] |} with
  | Some m => Some (p, m)
  | None =>
      match s with
      | [] => None
      | _ :: s' => find r (S p) s'
      end
  end.

(** The text of group [n]; empty for a group that took no part. *)
Fixpoint group (n : nat) (cs : list (nat * list A)) : list A :=
  match cs with
  | [] => []
  | (i, s) :: cs' => if (i =? n)%nat then s else group n cs'
  end.

(** A replacement template: text, and [$n]. *)
Inductive TemplateItem :=
| Text (s : list A)
| Submatch (n : nat).

Definition expand (template : list TemplateItem) (m : Thread) : list A :=
  concat (map (fun item =>
                 match item with
                 | Text s => s
                 | Submatch n => group n (caps m)
                 end) template).

(** The loop of [Regexp.replaceAll]; a character has width 1.  [searchPos]
    grows at every turn, so [fuel] above the length of [src] is never used
    up. *)
Fixpoint replaceAll (re : Regexp) (template : list TemplateItem) (src : list A)
    (fuel lastMatchEnd searchPos : nat) (buf : list A) : list A :=
  match fuel with
  | 0 => buf ++ drop lastMatchEnd src
  | S fuel' =>
      if (searchPos <=? length src)%nat then
        match find re searchPos (drop searchPos src) with
        | None => buf ++ drop lastMatchEnd src
        | Some (a0, m) =>
            let a1 := pos m in
            let buf := buf ++ take (a0 - lastMatchEnd) (drop lastMatchEnd src) in
            let buf :=
              if (lastMatchEnd <? a1)%nat || (a0 =? 0)%nat
              then buf ++ expand template m else buf in
            let width := if (searchPos <? length src)%nat then 1 else 0 in
            let searchPos :=
              if (a1 <? searchPos + width)%nat then searchPos + width
              else if (a1 <? searchPos + 1)%nat then searchPos + 1
              else a1 in
            replaceAll re template src fuel' a1 searchPos buf
        end
      else buf ++ drop lastMatchEnd src
  end.

Definition ReplaceAllString (re : Regexp) (src : list A) (template : list TemplateItem)
  : list A :=
  replaceAll re template src (2 + length src) 0 0 [].

(** *** What an expression matches

    [after t cs cs'] is the thread [t] once it has read [cs], with [cs']
    left to read; [captured n w t] is [t] with the text [w] recorded for
    group [n]. *)
Definition after (t : Thread) (cs cs' : list A) : Thread :=
  {| pos := length cs + pos t; rest := cs'; caps := caps t |}.

Definition captured (n : nat) (w : list A) (t : Thread) : Thread :=
  {| pos := pos t; rest := rest t; caps := (n, w) :: caps t |}.

(** [stops p cs]: no character of class [p] starts [cs]. *)
Definition stops (p : A -> bool) (cs : list A) : Prop :=
  match cs with
  | c :: _ => p c = false
  | [] => True
  end.

(** [matches r p w cs]: the expression [r] matches the text [w] at
    position [p] of the input when [cs] is what follows [w]. *)
Inductive matches : Regexp -> nat -> list A -> list A -> Prop :=
| matches_EmptyMatch p cs :
    matches EmptyMatch p [] cs
| matches_CharClass q c p cs :
    q c = true -> matches (CharClass q) p [c] cs
| matches_Concat r1 r2 p w1 w2 cs :
    matches r1 p w1 (w2 ++ cs) -> matches r2 (length w1 + p) w2 cs ->
    matches (Concat r1 r2) p (w1 ++ w2) cs
| matches_Alternate_l r1 r2 p w cs :
    matches r1 p w cs -> matches (Alternate r1 r2) p w cs
| matches_Alternate_r r1 r2 p w cs :
    matches r2 p w cs -> matches (Alternate r1 r2) p w cs
| matches_Star_nil r p cs :
    matches (Star r) p [] cs
| matches_Star_cons r p w1 w2 cs :
    matches r p w1 (w2 ++ cs) -> matches (Star r) (length w1 + p) w2 cs ->
    matches (Star r) p (w1 ++ w2) cs
| matches_Capture n r p w cs :
    matches r p w cs -> matches (Capture n r) p w cs
| matches_BeginText cs :
    matches BeginText 0 [] cs
| matches_EndText p :
    matches EndText p [] [].

End Regexp.
Arguments Regexp : clear implicits.
Arguments Thread : clear implicits.
Arguments TemplateItem : clear implicits.
End regexp.

Import regexp.

(** ** Version Tag Parser: [semverForGoVersion] *)

Definition isDigit (c : ascii) : bool :=
  (48 <=? nat_of_ascii c)%nat && (nat_of_ascii c <=? 57)%nat.

Definition byte (c : ascii) : Regexp ascii := CharClass (fun x => Ascii.eqb x c).

Definition literal (s : string) : Regexp ascii :=
  fold_right (fun c r => Concat (byte c) r) EmptyMatch (list_ascii_of_string s).

(** [\d+] *)
Definition digits : Regexp ascii := Plus (CharClass isDigit).

(** The groups of [tagRegexp]: 1 is [(\d+\.\d+)], 2 is [(\.\d+|)], 3 is
    [((beta|rc)(\d+))], 4 is [(beta|rc)], 5 is [(\d+)]. *)
Definition majorMinor : Regexp ascii := Concat digits (Concat (byte ".") digits).
Definition patchVersion : Regexp ascii := Alternate (Concat (byte ".") digits) EmptyMatch.
Definition prereleaseType : Regexp ascii := Alternate (literal "beta") (literal "rc").
Definition prereleaseRe : Regexp ascii :=
  Concat (Capture 4 prereleaseType) (Capture 5 digits).

(** [^go(\d+\.\d+)(\.\d+|)((beta|rc)(\d+))?$] *)
Definition tagRegexp : Regexp ascii :=
  Concat BeginText
 (Concat (literal "go")
 (Concat (Capture 1 majorMinor)
 (Concat (Capture 2 patchVersion)
 (Concat (Quest (Capture 3 prereleaseRe))
         EndText)))).

(** [m n] is [m[n]] of the source: the text of group [n], [""] for a group
    that took no part in the match; [None] is the nil slice. *)
Definition FindStringSubmatch (re : Regexp ascii) (s : string) : option (nat -> string) :=
  match find re 0 (list_ascii_of_string s) with
  | None => None
  | Some (_, m) => Some (fun n => string_of_list_ascii (group n (caps m)))
  end.

Definition semverForGoVersion (v : string) : string :=
  match FindStringSubmatch tagRegexp v with
  | None => ""
  | Some m =>
      let version := m 1 in
      let version :=
        if negb (m 2 =? "") then version +:+ m 2 else version +:+ ".0" in
      let version :=
        if negb (m 3 =? "") then version +:+ "-" +:+ m 4 +:+ "." +:+ m 5 else version in
      version
  end.

(** The tags as the specification words them:
    [go<major>.<minor>[.<patch>][(beta|rc)<n>]], each of the four numbers a
    non-empty run of decimal digits. *)
Inductive PrereleaseKind := beta | rc.

Definition kindName (k : PrereleaseKind) : string :=
  match k with beta => "beta" | rc => "rc" end.

Record GoTag := {
  major : string;
  minor : string;
  patch : option string;
  prerelease : option (PrereleaseKind * string)
}.

Definition numeral (l : list ascii) : Prop :=
  l <> [] /\ Forall (fun c => isDigit c = true) l.

Definition number (s : string) : Prop :=
  s <> "" /\ Forall (fun c => isDigit c = true) (list_ascii_of_string s).

Definition wellFormed (g : GoTag) : Prop :=
  number (major g) /\ number (minor g)
  /\ match patch g with Some p => number p | None => True end
  /\ match prerelease g with Some (_, n) => number n | None => True end.

Definition tagOf (g : GoTag) : string :=
  "go" +:+ major g +:+ "." +:+ minor g
  +:+ match patch g with Some p => "." +:+ p | None => "" end
  +:+ match prerelease g with Some (k, n) => kindName k +:+ n | None => "" end.

Definition semverOf (g : GoTag) : string :=
  major g +:+ "." +:+ minor g +:+ "."
  +:+ match patch g with Some p => p | None => "0" end
  +:+ match prerelease g with Some (k, n) => "-" +:+ kindName k +:+ "." +:+ n | None => "" end.

Definition patchText (g : GoTag) : list ascii :=
  match patch g with
  | Some p => "."%char :: list_ascii_of_string p
  | None => []
  end.

Definition prereleaseText (g : GoTag) : list ascii :=
  match prerelease g with
  | Some (kind, n) => list_ascii_of_string (kindName kind) ++ list_ascii_of_string n
  | None => []
  end.

(** ** Text normalisation: [trimWhitespace]

    Go's [strings.TrimSpace] and [regexp] read a string code point by code
    point, so the description is the list of its code points here. *)

Definition rune := N.

(** [runes s]: the code points of an ASCII string. *)
Definition runes (s : string) : list rune := map N_of_ascii (list_ascii_of_string s).

(** [unicode.IsSpace] *)
Definition isSpace (r : rune) : bool :=
  if (r <=? 255)%N
  then bool_decide (r ∈ [9; 10; 11; 12; 13; 32; 133; 160]%N)
  else bool_decide (r = 5760%N)
       || ((8192 <=? r)%N && (r <=? 8202)%N)
       || bool_decide (r ∈ [8232; 8233; 8239; 8287; 12288]%N).

Fixpoint TrimLeftSpace (s : list rune) : list rune :=
  match s with
  | c :: s' => if isSpace c then TrimLeftSpace s' else s
  | [] => []
  end.

Definition TrimSpace (s : list rune) : list rune :=
  rev (TrimLeftSpace (rev (TrimLeftSpace s))).

Definition NL : rune := 10%N.
Definition SP : rune := 32%N.
Definition TAB : rune := 9%N.

(** [\n], [[^\n]], [\s] (which is [[\t\n\f\r ]]) and [[ \t]]. *)
Definition newline : Regexp rune := CharClass (fun r => (r =? NL)%N).
Definition notNewline : Regexp rune := CharClass (fun r => negb (r =? NL)%N).
Definition perlSpace : Regexp rune :=
  CharClass (fun r => bool_decide (r ∈ [9; 10; 12; 13; 32]%N)).
Definition blank : Regexp rune :=
  CharClass (fun r => bool_decide (r ∈ [SP; TAB])).

Definition trimWhitespace (s : list rune) : list rune :=
  let s := TrimSpace s in
  (* Replace single newlines with spaces. *)
  let newlines := Concat (Capture 1 notNewline) (Concat newline (Capture 2 notNewline)) in
  let s := ReplaceAllString newlines s [Submatch 1; Text [SP]; Submatch 2] in
  (* Replace instances of 2 or more newlines with exactly two newlines. *)
  let paragraphs :=
    Concat (Star perlSpace) (Concat newline (Concat newline (Star perlSpace))) in
  let s := ReplaceAllString paragraphs s [Text [NL; NL]] in
  (* Replace tabs and double spaces with single spaces. *)
  let spaces := Plus blank in
  let s := ReplaceAllString spaces s [Text [SP]] in
  s.

(** The description [a], [b], [c] on three lines.  The first replacement
    reads [a\nb] as one match and resumes after [b], so the newline between
    [b] and [c] has no character before it left to match and stays. *)
Definition threeLines : list rune := runes "a" ++ [NL] ++ runes "b" ++ [NL] ++ runes "c".

(** [removeNewlines], of [cve.go]; its expression is [\n+]. *)
Definition removeNewlines (s : list rune) : list rune :=
  let newlines := Plus newline in
  ReplaceAllString newlines (TrimSpace s) [Text [SP]].

(** What replacing [x+] does, for a class [x]: every run of characters of
    the class [p], as long as it gets, gives way to one [t].  [inRun] tells
    that the character before was of the class. *)
Fixpoint squeezeFrom {A} (p : A -> bool) (t : list A) (inRun : bool) (s : list A)
  : list A :=
  match s with
  | [] => []
  | c :: s' =>
      if p c then (if inRun then [] else t) ++ squeezeFrom p t true s'
      else c :: squeezeFrom p t false s'
  end.

Definition squeeze {A} (p : A -> bool) (t : list A) (s : list A) : list A :=
  squeezeFrom p t false s.

Definition isNewline (r : rune) : bool := (r =? NL)%N.
Definition isBlank (r : rune) : bool := bool_decide (r ∈ [SP; TAB]).

(** No white space at either end. *)
Definition trimmed (s : list rune) : Prop :=
  match s with c :: _ => isSpace c = false | [] => True end
  /\ match rev s with c :: _ => isSpace c = false | [] => True end.


(** ** The entry of a report, and the entries on disk *)

(** Declared at the head of [osv.go]. *)
Definition OSVDir : string := "data/osv".
Definition SchemaVersion : string := "1.3.1".

Section Entry.

(** Declared in [internal/osv] and in [internal/stdlib]. *)
Variable RangeTypeSemver : string.
Variable GoStdModulePath : string.
Variable GoCmdModulePath : string.
Variable GoEcosystem : string.
Variable ModulePath : string.
Variable ToolchainModulePath : string.

(** [time.Time], and the fields [Published] and [Withdrawn] of the report,
    which the record [report.Report] does not carry. *)
Variable Time : Type.
Variable Published : report.Report -> Time.
Variable Withdrawn : report.Report -> option Time.

(** Declared elsewhere in [internal/report]. *)
Variable GetGoAdvisoryLink : string -> string.
Variable GetAliases : report.Report -> list string.

(** The code points of a string, as Go reads them. *)
Variable runesOf : string -> list rune.

Definition GenerateOSVEntry (r : report.Report) (goID : string) (lastModified : Time)
  : osv.Entry Time :=
  let credits :=
    fold_left (fun credits credit => credits ++ [ {| osv.Name := credit |} ])
              (report.Credits r) [] in
  let withdrawn :=
    match Withdrawn r with
    | Some t => Some t
    | None => None
    end in
  let affected :=
    fold_left (fun affected m =>
                 affected ++ [generateAffected RangeTypeSemver GoStdModulePath
                                GoCmdModulePath GoEcosystem ModulePath
                                ToolchainModulePath m])
              (report.Modules r) [] in
  let references :=
    fold_left (fun references ref =>
                 references ++ [ {| osv.RefType := report.Type_ ref;
                                    osv.RefURL := report.URL ref |} ])
              (report.References r) [] in
  {| osv.ID := goID;
     osv.Published := Published r;
     osv.Modified := lastModified;
     osv.Withdrawn := withdrawn;
     osv.Details := trimWhitespace (runesOf (report.Description r));
     osv.Credits := credits;
     osv.SchemaVersion := SchemaVersion;
     osv.DatabaseSpecific' := Some {| osv.URL := GetGoAdvisoryLink goID |};
     osv.Affected' := affected;
     osv.References := references;
     osv.Aliases := GetAliases r |}.

(** *** [ModulesForEntry]

    [maps.Keys], of [golang.org/x/exp/maps], returns the keys of a map in
    an order that is not determined. *)
Variable Keys : gmap string bool -> list string.

Definition ModulesForEntry (entry : osv.Entry Time) : list string :=
  let mods : gmap string bool := ∅ in
  let mods :=
    fold_left (fun mods a => <[osv.ModPath (osv.Module' a) := true]> mods)
              (osv.Affected' entry) mods in
  Keys mods.

(** *** [UnmarshalFromFile] and [ReadOSV]

    [os.ReadFile] reads from the world outside; [json.Unmarshal] returns
    what the value [v] points to holds afterwards -- it may have set some
    fields before it fails -- and the error.  [Wrap] is [derrors.Wrap],
    which is given the address of [err]: it returns what [err] holds
    afterwards. *)
Variable World : Type.
Variable Content : Type.
Variable ReadFile : string -> World -> (Content * option string) * World.
Variable Unmarshal : forall {T : Type}, Content -> T -> T * option string.
Variable Wrap : option string -> string -> list string -> option string.

Definition UnmarshalFromFile {T : Type} (path : string) (v : T) (w : World)
  : (T * option string) * World :=
  let '((content, err), w) := ReadFile path w in
  match err with
  | Some err => ((v, Some err), w)
  | None =>
      let '(v, err) := Unmarshal content v in
      match err with
      | Some err => ((v, Some err), w)
      | None => ((v, None), w)
      end
  end.

(** [zero] is [osv.Entry{}], the value of the named result [entry] on
    entry. *)
Definition ReadOSV (zero : osv.Entry Time) (filename : string) (w : World)
  : (osv.Entry Time * option string) * World :=
  let entry := zero in
  let err : option string := None in
  let err := Wrap err "ReadOSV(%s)" [filename] in
  let '((entry, err), w) := UnmarshalFromFile filename entry w in
  match err with
  | Some err => ((zero, Some err), w)
  | None => ((entry, None), w)
  end.

End Entry.

(** What [maps.Keys] is known to return: the keys of the map, each once,
    in some order. *)
Definition keysOf (Keys : gmap string bool -> list string) : Prop :=
  forall m : gmap string bool, Keys m ≡ₚ (map_to_list m).*1.

(** The module path [generateAffected] gives a module. *)
Definition publicPath (GoStdModulePath GoCmdModulePath ModulePath ToolchainModulePath : string)
    (m : report.Module_) : string :=
  if decide (report.Module' m = ModulePath) then GoStdModulePath
  else if decide (report.Module' m = ToolchainModulePath) then GoCmdModulePath
  else report.Module' m.
(** ** Package [cmd/vulnreport]: the fix pass

    An [error] is its message; [None] is the nil error.  What the pass does
    to the outside -- the calls to the linter, the package loader, the alias
    finder, the HTTP client and the report writer, each with what it
    returned, and the lines it logs -- is recorded in a trace, in the order
    of the program. *)

Definition error := string.

(** An argument of a format string. *)
Inductive Arg :=
| ArgS (s : string)
| ArgI (n : Z).

Inductive Level := Info | Warn | Err.

(** [net/http]'s response, as far as [checkRefs] reads it. *)
Record Response := {
  Status : string;
  StatusCode : Z
}.

Definition StatusNotFound : Z := 404.

Inductive Event :=
| EvLog (level : Level) (format : string) (args : list Arg)
| EvLint (r : report.Report) (lints : list string)
| EvFix (r : report.Report)
| EvExported (i j : nat) (m : report.Module_) (p : report.Package)
             (result : list string * option error)
| EvAddMissingAliases (r : report.Report) (added : Z)
| EvHead (url : string) (result : Response * option error)
| EvLintAsNotes (r : report.Report) (found : bool)
| EvWrite (r : report.Report) (result : option error)
| EvWriteDerived (r : report.Report) (result : option error).

(** [p.DerivedSymbols = syms] for package [j] of module [i] of the report. *)
Definition setPackageDerivedSymbols (syms : list string) (p : report.Package)
  : report.Package :=
  {| report.Package' := report.Package' p;
     report.GOOS := report.GOOS p;
     report.GOARCH := report.GOARCH p;
     report.Symbols := report.Symbols p;
     report.DerivedSymbols := syms;
     report.ExcludedSymbols := report.ExcludedSymbols p;
     report.SkipFix := report.SkipFix p |}.

Definition setModulePackages (ps : list report.Package) (m : report.Module_)
  : report.Module_ :=
  {| report.Module' := report.Module' m;
     report.Versions := report.Versions m;
     report.VulnerableAt := report.VulnerableAt m;
     report.Packages := ps |}.

Definition setModules (ms : list report.Module_) (r : report.Report) : report.Report :=
  {| report.ID := report.ID r;
     report.Modules := ms;
     report.Description := report.Description r;
     report.Credits := report.Credits r;
     report.References := report.References r;
     report.CVEs := report.CVEs r;
     report.CVEMetadata := report.CVEMetadata r;
     report.Notes := report.Notes r |}.

Definition setDerivedSymbols (i j : nat) (syms : list string) (r : report.Report)
  : report.Report :=
  setModules
    (alter (fun m =>
              setModulePackages
                (alter (setPackageDerivedSymbols syms) j (report.Packages m)) m)
           i (report.Modules r))
    r.

(** How a loop body ends: with the next turn, or with a [return]. *)
Inductive Flow :=
| Continue
| Return (err : option error).

Section Fix.

(** The command-line flags [-f], [-skip-alias] and [-skip-symbols]. *)
Variable force : bool.
Variable skipAlias : bool.
Variable skipSymbols : bool.

(** Everything outside the process: the module proxy, the network, the
    package loader, the file system. *)
Variable World : Type.

(** [runtime.Version()] *)
Variable runtime_Version : string.

(** [osv.RangeTypeSemver] and [osvutils.AffectsSemver]. *)
Variable RangeTypeSemver : string.
Variable AffectsSemver : list osv.Range -> string -> bool * option error.

(** Methods of the report declared in [internal/report] and in the other
    files of [cmd/vulnreport]; one that changes the report returns the
    report it leaves. *)
Variable IsExcluded : report.Report -> bool.
Variable IsFirstParty : report.Module_ -> bool.
Variable Lint : report.Report -> World -> list string * World.
Variable Fix : report.Report -> World -> report.Report * World.
Variable LintAsNotes : report.Report -> World -> (report.Report * bool) * World.
Variable NoteTypeFix : string.
Variable AddNote : report.Report -> string -> string -> list Arg -> report.Report.
Variable addMissingAliases : report.Report -> World -> (report.Report * Z) * World.
Variable write : report.Report -> World -> option error * World.
Variable writeDerived : report.Report -> World -> option error * World.

(** [symbols.Exported] and [http.Head]. *)
Variable Exported :
  report.Module_ -> report.Package -> World -> (list string * option error) * World.
Variable Head : string -> World -> (Response * option error) * World.

(** The state the pass works on: the world, the trace, the report behind
    the pointer [r], and the variable [fixed] that the closure [fixErr]
    shares with [fix]. *)
Record State := {
  world : World;
  trace : list Event;
  rep : report.Report;
  fixed : bool
}.

Definition M (A : Type) : Type := State -> A * State.

Definition ret {A} (a : A) : M A := fun s => (a, s).

Definition bind {A B} (c : M A) (k : A -> M B) : M B :=
  fun s => let '(a, s') := c s in k a s'.

Notation "x <- c ;; k" := (bind c (fun x => k))
  (at level 100, c at next level, right associativity).
Notation "c ;;; k" := (bind c (fun _ => k))
  (at level 100, right associativity).

Definition emit (e : Event) : M unit :=
  fun s => (tt, {| world := world s; trace := trace s ++ [e];
                   rep := rep s; fixed := fixed s |}).

Definition getRep : M report.Report := fun s => (rep s, s).

Definition setRep (r : report.Report) : M unit :=
  fun s => (tt, {| world := world s; trace := trace s; rep := r; fixed := fixed s |}).

(** A change made to the report through the pointer [r]. *)
Definition modifyRep (f : report.Report -> report.Report) : M unit :=
  fun s => (tt, {| world := world s; trace := trace s; rep := f (rep s); fixed := fixed s |}).

Definition getFixed : M bool := fun s => (fixed s, s).

Definition setFixed (b : bool) : M unit :=
  fun s => (tt, {| world := world s; trace := trace s; rep := rep s; fixed := b |}).

(** A call to the outside. *)
Definition extern {A} (f : World -> A * World) : M A :=
  fun s => let '(a, w) := f (world s) in
           (a, {| world := w; trace := trace s; rep := rep s; fixed := fixed s |}).

Definition logf (level : Level) (format : string) (args : list Arg) : M unit :=
  emit (EvLog level format args).

Definition when (b : bool) (c : M unit) : M unit := if b then c else ret tt.

(** [for i, x := range l], the body ending the loop when it returns. *)
Fixpoint forRange {A} (body : nat -> A -> M Flow) (i : nat) (l : list A) : M Flow :=
  match l with
  | [] => ret Continue
  | x :: l' =>
      flow <- body i x ;;
      match flow with
      | Continue => forRange body (S i) l'
      | Return err => ret (Return err)
      end
  end.

(** *** [removeExcluded] *)

(** The loop [for _, d := range syms]; [newSyms] starts as the nil slice. *)
Fixpoint removeExcludedLoop (id : string) (excluded syms newSyms : list string)
  : M (list string) :=
  match syms with
  | [] => ret newSyms
  | d :: syms' =>
      if bool_decide (d ∈ excluded)
      then logf Info "%s: removed excluded symbol %s" [ArgS id; ArgS d] ;;;
           removeExcludedLoop id excluded syms' newSyms
      else removeExcludedLoop id excluded syms' (newSyms ++ [d])
  end.

Definition removeExcluded (id : string) (syms excluded : list string) : M (list string) :=
  if (length excluded =? 0)%nat then ret syms
  else removeExcludedLoop id excluded syms [].

(** *** [checkSymbols] *)

(** The body of [for _, p := range m.Packages], for package [j] of
    module [i].  The pointer [m] is read when it is passed on. *)
Definition checkPackage (i : nat) (m0 : report.Module_) (j : nat) (p : report.Package)
  : M Flow :=
  r <- getRep ;;
  if negb (report.SkipFix p =? "") then
    logf Info "%s: skipping symbol checks for package %s (reason: %q)"
         [ArgS (report.ID r); ArgS (report.Package' p); ArgS (report.SkipFix p)] ;;;
    ret Continue
  else
    let m := default m0 (report.Modules r !! i) in
    result <- extern (Exported m p) ;;
    emit (EvExported i j m p result) ;;;
    let '(syms, err) := result in
    match err with
    | Some err =>
        ret (Return (Some ("package " +:+ report.Package' p +:+ ": " +:+ err)))
    | None =>
        (* Remove any derived symbols that were marked as excluded by a human. *)
        syms <- removeExcluded (report.ID r) syms (report.ExcludedSymbols p) ;;
        when (negb (bool_decide (syms = report.DerivedSymbols p)))
             (modifyRep (setDerivedSymbols i j syms) ;;;
              logf Info "%s: updated derived symbols for package %s"
                   [ArgS (report.ID r); ArgS (report.Package' p)]) ;;;
        ret Continue
    end.

(** The body of [for _, m := range r.Modules], for module [i]. *)
Definition checkModule (i : nat) (m : report.Module_) : M Flow :=
  r <- getRep ;;
  let packages := forRange (checkPackage i m) 0 (report.Packages m) in
  if IsFirstParty m then
    let gover := runtime_Version in
    let ver := semverForGoVersion gover in
    (* If some symbol is in the std library at a different version,
       we may derive the wrong symbols for this package and other.
       In this case, skip updating DerivedSymbols. *)
    let '(affected, err) :=
      AffectsSemver (AffectedRanges RangeTypeSemver (report.Versions m)) ver in
    match err with
    | Some err => ret (Return (Some err))
    | None =>
        if (ver =? "") || negb affected then
          logf Warn "%s: current Go version %q is not in a vulnerable range, skipping symbol checks for module %s"
               [ArgS (report.ID r); ArgS gover; ArgS (report.Module' m)] ;;;
          ret Continue
        else
          when (negb (ver =? report.VulnerableAt m))
               (logf Warn "%s: current Go version %q does not match vulnerable_at version (%s) for module %s"
                     [ArgS (report.ID r); ArgS ver; ArgS (report.VulnerableAt m);
                      ArgS (report.Module' m)]) ;;;
          packages
    end
  else packages.

Definition checkSymbols : M (option error) :=
  r <- getRep ;;
  if IsExcluded r then
    logf Info "%s: excluded, skipping symbol checks" [ArgS (report.ID r)] ;;;
    ret None
  else
    flow <- forRange checkModule 0 (report.Modules r) ;;
    match flow with
    | Return err => ret err
    | Continue => ret None
    end.

(** *** [checkRefs] *)

(** The body of [for _, r := range refs].  The deferred
    [resp.Body.Close()] is left out. *)
Definition checkRef (fixErr : string -> list Arg -> M unit) (ref : report.Reference)
  : M unit :=
  result <- extern (Head (report.URL ref)) ;;
  emit (EvHead (report.URL ref) result) ;;;
  let '(resp, err) := result in
  match err with
  | Some err =>
      fixErr "%q may not exist: %v" [ArgS (report.URL ref); ArgS err]
  | None =>
      (* For now, only error on status 404, which is unambiguously a problem. *)
      when (StatusCode resp =? StatusNotFound)%Z
           (fixErr "%q may not exist: HTTP GET returned status %s"
                   [ArgS (report.URL ref); ArgS (Status resp)])
  end.

Fixpoint checkRefs (refs : list report.Reference)
    (fixErr : string -> list Arg -> M unit) : M unit :=
  match refs with
  | [] => ret tt
  | ref :: refs' => checkRef fixErr ref ;;; checkRefs refs' fixErr
  end.

(** *** [fixer.fix] and [fixer.fixAndWriteAll] *)

(** The closure [fixErr] of [fix]. *)
Definition fixErr (addNotes : bool) (f : string) (v : list Arg) : M unit :=
  r <- getRep ;;
  logf Err (report.ID r +:+ ": " +:+ f) v ;;;
  when addNotes (modifyRep (fun r => AddNote r NoteTypeFix f v)) ;;;
  setFixed false.

Definition joinLints (lints : list string) : string :=
  String.concat (LF +:+ String "009"%char "- ") lints.

(** The steps of [fix], in the order of its body. *)

(** [if lints := r.Lint(f.pc); *force || len(lints) > 0 { r.Fix(f.pc) }] *)
Definition lintAndFix : M unit :=
  r <- getRep ;;
  lints <- extern (Lint r) ;;
  emit (EvLint r lints) ;;;
  when (force || (0 <? length lints)%nat)
       (r' <- extern (Fix r) ;;
        emit (EvFix r) ;;;
        setRep r').

(** [if !*skipSymbols { ... }] *)
Definition checkSymbolsStep (addNotes : bool) : M unit :=
  when (negb skipSymbols)
       (r <- getRep ;;
        logf Info "%s: checking packages and symbols (use -skip-symbols to skip this)"
             [ArgS (report.ID r)] ;;;
        err <- checkSymbols ;;
        match err with
        | Some err => fixErr addNotes "package or symbol error: %s" [ArgS err]
        | None => ret tt
        end).

(** [if !*skipAlias { ... }] *)
Definition addMissingAliasesStep : M unit :=
  when (negb skipAlias)
       (r <- getRep ;;
        logf Info "%s: checking for missing GHSAs and CVEs (use -skip-alias to skip this)"
             [ArgS (report.ID r)] ;;;
        result <- extern (addMissingAliases r) ;;
        emit (EvAddMissingAliases r result.2) ;;;
        setRep result.1 ;;;
        when (0 <? result.2)%Z
             (logf Info "%s: added %d missing aliases"
                   [ArgS (report.ID result.1); ArgI result.2])).

(** For now, this is a fix check instead of a lint. *)
Definition checkRefsStep (addNotes : bool) : M unit :=
  r <- getRep ;;
  logf Info "%s: checking that all references are reachable" [ArgS (report.ID r)] ;;;
  checkRefs (report.References r) (fixErr addNotes).

(** Check for remaining lint errors. *)
Definition finalLint (addNotes : bool) : M unit :=
  if addNotes then
    r <- getRep ;;
    result <- extern (LintAsNotes r) ;;
    emit (EvLintAsNotes r result.2) ;;;
    setRep result.1 ;;;
    when result.2
         (logf Warn "%s: still has lint errors after fix" [ArgS (report.ID result.1)] ;;;
          setFixed false)
  else
    r <- getRep ;;
    lints <- extern (Lint r) ;;
    emit (EvLint r lints) ;;;
    when (0 <? length lints)%nat
         (logf Warn ("%s: still has lint errors after fix:" +:+ LF +:+ String "009"%char "- %s")
               [ArgS (report.ID r); ArgS (joinLints lints)] ;;;
          setFixed false).

Definition fixer_fix (addNotes : bool) : M bool :=
  setFixed true ;;;
  lintAndFix ;;;
  checkSymbolsStep addNotes ;;;
  addMissingAliasesStep ;;;
  checkRefsStep addNotes ;;;
  finalLint addNotes ;;;
  getFixed.

Definition manualReview (id : string) : error :=
  id +:+ ": could not fix all errors; requires manual review".

Definition fixAndWriteAll : M (option error) :=
  fixed <- fixer_fix false ;;

  (* fix may have partially succeeded, so write the report no matter what. *)
  r <- getRep ;;
  err <- extern (write r) ;;
  emit (EvWrite r err) ;;;
  match err with
  | Some err => ret (Some err)
  | None =>
      if fixed then
        err <- extern (writeDerived r) ;;
        emit (EvWriteDerived r err) ;;;
        ret err
      else
        ret (Some (manualReview (report.ID r)))
  end.

End Fix.

Arguments State : clear implicits.
Arguments world {World} _.
Arguments trace {World} _.
Arguments rep {World} _.
Arguments fixed {World} _.
Arguments M : clear implicits.
Arguments ret {World A} _ _.
Arguments bind {World A B} _ _ _.
Arguments emit {World} _ _.
Arguments getRep {World} _.
Arguments setRep {World} _ _.
Arguments modifyRep {World} _ _.
Arguments getFixed {World} _.
Arguments setFixed {World} _ _.
Arguments extern {World A} _ _.
Arguments logf {World} _ _ _ _.
Arguments when {World} _ _ _.
Arguments forRange {World A} _ _ _ _.
Arguments removeExcludedLoop {World} _ _ _ _ _.
Arguments removeExcluded {World} _ _ _ _.
Arguments checkRef {World} _ _ _ _.
Arguments checkRefs {World} _ _ _ _.

(** *** Properties of a run

    [preserves R c]: the state [c] ends in is related by [R] to the state it
    starts from.  The relations used: the trace grows by events that all
    satisfy [P]; module [i] of the report is as it was; a pass that has
    failed stays failed. *)
Definition preserves {World A} (R : State World -> State World -> Prop)
  (c : M World A) : Prop :=
  forall s, R s (c s).2.

Definition emitting {World} (P : Event -> Prop) (s s' : State World) : Prop :=
  exists evs, trace s' = trace s ++ evs /\ Forall P evs.

Definition keepingModule {World} (i : nat) (s s' : State World) : Prop :=
  report.Modules (rep s') !! i = report.Modules (rep s) !! i.

Definition stayingFailed {World} (s s' : State World) : Prop :=
  fixed s = false -> fixed s' = false.

Definition keepingFixed {World} (s s' : State World) : Prop :=
  fixed s' = fixed s.

(** Kinds of events. *)
Definition isExported (e : Event) : Prop :=
  match e with
  | EvExported _ _ _ _ _ => True
  | _ => False
  end.

Definition isExportedOf (i : nat) (e : Event) : Prop :=
  match e with
  | EvExported i' _ _ _ _ => i' = i
  | _ => False
  end.

Definition isFailedExport (e : Event) : Prop :=
  match e with
  | EvExported _ _ _ _ (_, Some _) => True
  | _ => False
  end.

Definition isErrLine (e : Event) : Prop :=
  match e with
  | EvLog Err _ _ => True
  | _ => False
  end.

Definition isLint (e : Event) : Prop :=
  match e with
  | EvLint _ _ => True
  | _ => False
  end.

Definition isWrite (e : Event) : Prop :=
  match e with
  | EvWrite _ _ | EvWriteDerived _ _ => True
  | _ => False
  end.

(** The error [checkSymbols] returns when [symbols.Exported] fails with
    [err] for the package [p]. *)
Definition packageError (p : report.Package) (err : error) : error :=
  "package " +:+ report.Package' p +:+ ": " +:+ err.

(** Nothing of module [i] is queried or changed. *)
Definition untouched {World} (i : nat) (s s' : State World) : Prop :=
  emitting (fun e => ~ isExportedOf i e) s s' /\ keepingModule i s s'.

(** The run of [checkSymbols] that ends with the error [res] has left the
    events [evs]: no call of [symbols.Exported] in it has failed, or one
    has, it is the last event, and [res] is the error of its package. *)
Definition failingLast (evs : list Event) (res : option error) : Prop :=
  Forall (fun e => ~ isFailedExport e) evs
  \/ exists evs0 i j m p syms err,
       evs = evs0 ++ [EvExported i j m p (syms, Some err)]
       /\ Forall (fun e => ~ isFailedExport e) evs0
       /\ res = Some (packageError p err).

Definition flowError (flow : Flow) : option error :=
  match flow with
  | Return err => err
  | Continue => None
  end.

Definition endsAtFailure {World A} (c : M World A) (err : A -> option error) : Prop :=
  forall s, exists evs, trace (c s).2 = trace s ++ evs /\ failingLast evs (err (c s).1).

(** The Reference Validator's policy as the specification words it: a
    transport failure is a defect; of the responses, status 404 alone. *)
Definition defect (result : Response * option error) : bool :=
  match result with
  | (_, Some _) => true
  | (resp, None) => bool_decide (StatusCode resp = 404%Z)
  end.

(** What [checkRefs] leaves in the trace for one reference: the request
    with its [result] and, for a defect, the line [fixErr] logs for the
    report [id]. *)
Definition defectLog (id : string) (ref : report.Reference)
    (result : Response * option error) : Event :=
  match result with
  | (_, Some err) =>
      EvLog Err (id +:+ ": " +:+ "%q may not exist: %v")
            [ArgS (report.URL ref); ArgS err]
  | (resp, None) =>
      EvLog Err (id +:+ ": " +:+ "%q may not exist: HTTP GET returned status %s")
            [ArgS (report.URL ref); ArgS (Status resp)]
  end.

Definition refEvents (ref : report.Reference) (outcome : string * (Response * option error))
  : list Event :=
  EvHead (report.URL ref) outcome.2
  :: if defect outcome.2 then [defectLog outcome.1 ref outcome.2] else [].

(** *** More kinds of events, and places in a report *)

Definition isFix (e : Event) : Prop :=
  match e with
  | EvFix _ => True
  | _ => False
  end.

Definition isAddMissingAliases (e : Event) : Prop :=
  match e with
  | EvAddMissingAliases _ _ => True
  | _ => False
  end.

Definition isHead (e : Event) : Prop :=
  match e with
  | EvHead _ _ => True
  | _ => False
  end.

Definition isLintAsNotes (e : Event) : Prop :=
  match e with
  | EvLintAsNotes _ _ => True
  | _ => False
  end.

Definition isLog (e : Event) : Prop :=
  match e with
  | EvLog _ _ _ => True
  | _ => False
  end.

(** The line [removeExcluded] logs for the symbol [d] it removes. *)
Definition removedLine (id d : string) : Event :=
  EvLog Info "%s: removed excluded symbol %s" [ArgS id; ArgS d].

(** Package [j] of module [i] of a report. *)
Definition packageAt (i j : nat) (r : report.Report) : option report.Package :=
  match report.Modules r !! i with
  | Some m => report.Packages m !! j
  | None => None
  end.

(** A report with the [DerivedSymbols] of all its packages left out. *)
Definition clearDerived (r : report.Report) : report.Report :=
  setModules
    (map (fun m => setModulePackages
                     (map (setPackageDerivedSymbols []) (report.Packages m)) m)
         (report.Modules r))
    r.

(** What a run of the symbol refresh has done to the packages.  Its calls
    of [symbols.Exported] are for places [Q]; the package of a call that
    went through carries the symbols returned, less the excluded ones, and
    is otherwise the package the call was made for; a package with no such
    call is as it was. *)
Definition refreshedPackage (p : report.Package) (syms : list string) : report.Package :=
  setPackageDerivedSymbols (filter (fun d => d ∉ report.ExcludedSymbols p) syms) p.

Definition refreshed {World} (Q : nat -> nat -> Prop) (s s' : State World) : Prop :=
  exists evs,
    trace s' = trace s ++ evs
    /\ (forall i j m p result, EvExported i j m p result ∈ evs -> Q i j)
    /\ (forall i j m p syms,
          EvExported i j m p (syms, None) ∈ evs ->
          packageAt i j (rep s') = Some (refreshedPackage p syms))
    /\ (forall i j,
          (forall m p syms, EvExported i j m p (syms, None) ∉ evs) ->
          packageAt i j (rep s') = packageAt i j (rep s)).

Definition keepingAllButDerived {World} (s s' : State World) : Prop :=
  clearDerived (rep s') = clearDerived (rep s).

(** The requests [checkRefs] sends for [refs], one after the other from the
    world [w]: what [http.Head] returns for each, and the world after the
    last. *)
Fixpoint headResults {World} (Head : string -> World -> (Response * option error) * World)
    (refs : list report.Reference) (w : World) : list (Response * option error) :=
  match refs with
  | [] => []
  | ref :: refs' =>
      (Head (report.URL ref) w).1 :: headResults Head refs' (Head (report.URL ref) w).2
  end.

Fixpoint headWorld {World} (Head : string -> World -> (Response * option error) * World)
    (refs : list report.Reference) (w : World) : World :=
  match refs with
  | [] => w
  | ref :: refs' => headWorld Head refs' (Head (report.URL ref) w).2
  end.

(** The report as [checkRefs] leaves it after the request for [ref] has
    returned [result]: [fixErr] takes a note of a defect when notes are
    taken.  [headReports] is the report at each request, [headReport] the
    report after the last. *)
Definition afterRequest (NoteTypeFix : string)
    (AddNote : report.Report -> string -> string -> list Arg -> report.Report)
    (addNotes : bool) (ref : report.Reference) (result : Response * option error)
    (r : report.Report) : report.Report :=
  if addNotes && defect result then
    match result with
    | (_, Some err) =>
        AddNote r NoteTypeFix "%q may not exist: %v" [ArgS (report.URL ref); ArgS err]
    | (resp, None) =>
        AddNote r NoteTypeFix "%q may not exist: HTTP GET returned status %s"
                [ArgS (report.URL ref); ArgS (Status resp)]
    end
  else r.

Fixpoint headReports {World} (NoteTypeFix : string)
    (AddNote : report.Report -> string -> string -> list Arg -> report.Report)
    (Head : string -> World -> (Response * option error) * World)
    (addNotes : bool) (refs : list report.Reference) (w : World) (r : report.Report)
  : list report.Report :=
  match refs with
  | [] => []
  | ref :: refs' =>
      r :: headReports NoteTypeFix AddNote Head addNotes refs'
                       (Head (report.URL ref) w).2
                       (afterRequest NoteTypeFix AddNote addNotes ref
                                     (Head (report.URL ref) w).1 r)
  end.

Fixpoint headReport {World} (NoteTypeFix : string)
    (AddNote : report.Report -> string -> string -> list Arg -> report.Report)
    (Head : string -> World -> (Response * option error) * World)
    (addNotes : bool) (refs : list report.Reference) (w : World) (r : report.Report)
  : report.Report :=
  match refs with
  | [] => r
  | ref :: refs' =>
      headReport NoteTypeFix AddNote Head addNotes refs'
                 (Head (report.URL ref) w).2
                 (afterRequest NoteTypeFix AddNote addNotes ref
                               (Head (report.URL ref) w).1 r)
  end.

(** ** A concrete run

    A report with three modules: the standard library, and two third-party
    modules with one package each.  The package loader fails for the package
    of [example.com/a] and knows one exported symbol for everything else;
    the linter finds nothing, no alias is missing, every reference answers
    200 and every write goes through.  The running toolchain is a
    development version, which has no release tag. *)
Module demo.

Definition package (path : string) : report.Package :=
  {| report.Package' := path;
     report.GOOS := [];
     report.GOARCH := [];
     report.Symbols := [];
     report.DerivedSymbols := [];
     report.ExcludedSymbols := [];
     report.SkipFix := "" |}.

Definition std : report.Module_ :=
  {| report.Module' := "std";
     report.Versions := [ {| report.Introduced := ""; report.Fixed := "1.21.4" |} ];
     report.VulnerableAt := "1.21.3";
     report.Packages := [package "net/http"] |}.

Definition moduleA : report.Module_ :=
  {| report.Module' := "example.com/a";
     report.Versions := [ {| report.Introduced := "1.0.0"; report.Fixed := "1.2.0" |} ];
     report.VulnerableAt := "1.1.0";
     report.Packages := [package "example.com/a/pkg"] |}.

Definition moduleB : report.Module_ :=
  {| report.Module' := "example.com/b";
     report.Versions := [];
     report.VulnerableAt := "0.3.0";
     report.Packages := [package "example.com/b/pkg"] |}.

Definition advisory : report.Reference :=
  {| report.Type_ := "ADVISORY"; report.URL := "https://example.com/advisory" |}.

Definition r : report.Report :=
  {| report.ID := "GO-2024-0001";
     report.Modules := [std; moduleA; moduleB];
     report.Description := "";
     report.Credits := [];
     report.References := [advisory];
     report.CVEs := [];
     report.CVEMetadata := None;
     report.Notes := [] |}.

Definition World : Type := unit.

Definition runtime_Version : string := "devel go1.22-abcdef".

Definition AffectsSemver (ranges : list osv.Range) (v : string) : bool * option error :=
  (true, None).

Definition IsExcluded (r : report.Report) : bool := false.

Definition IsFirstParty (m : report.Module_) : bool := report.Module' m =? "std".

Definition Lint (r : report.Report) (w : World) : list string * World := ([], w).

Definition Fix (r : report.Report) (w : World) : report.Report * World := (r, w).

Definition LintAsNotes (r : report.Report) (w : World) : (report.Report * bool) * World :=
  ((r, false), w).

Definition AddNote (r : report.Report) (type format : string) (args : list Arg)
  : report.Report := r.

Definition addMissingAliases (r : report.Report) (w : World) : (report.Report * Z) * World :=
  ((r, 0%Z), w).

Definition write (r : report.Report) (w : World) : option error * World := (None, w).

Definition Exported (m : report.Module_) (p : report.Package) (w : World)
  : (list string * option error) * World :=
  if report.Package' p =? "example.com/a/pkg"
  then (([], Some "no Go files"), w)
  else ((["Serve"], None), w).

Definition Head (url : string) (w : World) : (Response * option error) * World :=
  (({| Status := "200 OK"; StatusCode := 200 |}, None), w).

Definition s : State World :=
  {| world := tt; trace := []; rep := r; fixed := true |}.

(** The pass on [r], with no flag set. *)
Definition fix_ (addNotes : bool) : M World bool :=
  fixer_fix false false false World runtime_Version "SEMVER" AffectsSemver IsExcluded
            IsFirstParty Lint Fix LintAsNotes "FIX" AddNote addMissingAliases Exported
            Head addNotes.

Definition fixAndWriteAll_ : M World (option error) :=
  fixAndWriteAll false false false World runtime_Version "SEMVER" AffectsSemver IsExcluded
                 IsFirstParty Lint Fix LintAsNotes "FIX" AddNote addMissingAliases
                 write write Exported Head.

Definition checkSymbols_ : M World (option error) :=
  checkSymbols World runtime_Version "SEMVER" AffectsSemver IsExcluded IsFirstParty
               Exported.

(** The trace of [fix_ false s]: the failed call, what comes before it and
    what comes after it. *)
Definition failed : Event :=
  EvExported 1 0 moduleA (package "example.com/a/pkg") ([], Some "no Go files").

Definition before : list Event :=
  [ EvLint r [];
    EvLog Info "%s: checking packages and symbols (use -skip-symbols to skip this)"
          [ArgS "GO-2024-0001"];
    EvLog Warn "%s: current Go version %q is not in a vulnerable range, skipping symbol checks for module %s"
          [ArgS "GO-2024-0001"; ArgS "devel go1.22-abcdef"; ArgS "std"] ].

Definition after : list Event :=
  [ EvLog Err "GO-2024-0001: package or symbol error: %s"
          [ArgS "package example.com/a/pkg: no Go files"];
    EvLog Info "%s: checking for missing GHSAs and CVEs (use -skip-alias to skip this)"
          [ArgS "GO-2024-0001"];
    EvAddMissingAliases r 0;
    EvLog Info "%s: checking that all references are reachable" [ArgS "GO-2024-0001"];
    EvHead "https://example.com/advisory"
           ({| Status := "200 OK"; StatusCode := 200 |}, None);
    EvLint r [] ].

(** A version tag, and a CVE record of each shape whose first product is
    ["foo"]; [Contains] knows two packages of the standard library. *)
Definition tag : GoTag :=
  {| major := "1"; minor := "22"; patch := Some "0"; prerelease := Some (rc, "2") |}.

Definition Contains (path : string) : bool :=
  bool_decide (path ∈ ["fmt"; "net/http"]).

Definition cve : cveschema.CVE :=
  {| cveschema.Metadata_ID := "CVE-2024-0001";
     cveschema.Description_Data := [];
     cveschema.References_Data := [];
     cveschema.Credit_Data_Description_Data := [];
     cveschema.Affects_Vendor_Data :=
       [ {| cveschema.Product_Data := [ {| cveschema.ProductName := "foo" |} ] |} ] |}.

Definition cve5 : cveschema5.CVERecord :=
  {| cveschema5.Metadata_ID := "CVE-2024-0001";
     cveschema5.Containers_CNAContainer :=
       {| cveschema5.Descriptions := [];
          cveschema5.Credits := [];
          cveschema5.References := [];
          cveschema5.Affected' := [ {| cveschema5.Product := "foo" |} ] |} |}.

Definition referenceFromUrl (url : string) : report.Reference :=
  {| report.Type_ := "WEB"; report.URL := url |}.

Definition IsStdModule (path : string) : bool := path =? "std".

Definition IsCmdModule (path : string) : bool := path =? "cmd".

Definition IsXModule (path : string) : bool := false.

(** A package loader that never fails, the pass with it, and the events
    that pass leaves. *)
Definition ExportedOk (m : report.Module_) (p : report.Package) (w : World)
  : (list string * option error) * World :=
  ((["Serve"; "Close"], None), w).

Definition fixOk : M World bool :=
  fixer_fix false false false World runtime_Version "SEMVER" AffectsSemver IsExcluded
            IsFirstParty Lint Fix LintAsNotes "FIX" AddNote addMissingAliases ExportedOk
            Head false.

Definition passed : list Event := Eval vm_compute in trace (fixOk s).2.

(** An entry with two blocks for one module and one for another, and a
    [maps.Keys] that returns the keys in the order of the map. *)
Definition block (path : string) : osv.Affected :=
  {| osv.Module' := {| osv.ModPath := path; osv.Ecosystem := "Go" |};
     osv.Ranges := [];
     osv.EcosystemSpecific' := {| osv.Packages := [] |} |}.

Definition entry : osv.Entry unit :=
  {| osv.ID := "GO-2024-0001";
     osv.Published := tt;
     osv.Modified := tt;
     osv.Withdrawn := None;
     osv.Details := [];
     osv.Credits := [];
     osv.SchemaVersion := SchemaVersion;
     osv.DatabaseSpecific' := None;
     osv.Affected' := [block "example.com/a"; block "stdlib"; block "example.com/a"];
     osv.References := [];
     osv.Aliases := [] |}.

Definition Keys (m : gmap string bool) : list string := (map_to_list m).*1.

(** A description of one line. *)
Definition oneLine : list rune := runes "  a   b c  ".

(** A [stdlib.Contains] that goes by the shape of the path: an import path
    is taken for one of the standard library when its first element has no
    dot.  The empty path has none. *)
Fixpoint ContainsByShape (path : string) : bool :=
  match path with
  | EmptyString => true
  | String c rest =>
      if Ascii.eqb c "/" then true
      else if Ascii.eqb c "." then false
      else ContainsByShape rest
  end.

End demo.

(** ** A world that keeps what is written

    The world is the list of the files written, each with the directory it
    goes to; [write] and [writeDerived] add one.  Everything else is as in
    [demo]. *)
Module disk.

Definition World : Type := list (string * report.Report).

Definition Lint (r : report.Report) (w : World) : list string * World := ([], w).

Definition Fix (r : report.Report) (w : World) : report.Report * World := (r, w).

Definition LintAsNotes (r : report.Report) (w : World) : (report.Report * bool) * World :=
  ((r, false), w).

Definition addMissingAliases (r : report.Report) (w : World) : (report.Report * Z) * World :=
  ((r, 0%Z), w).

Definition write (r : report.Report) (w : World) : option error * World :=
  (None, w ++ [("data/reports", r)]).

Definition writeDerived (r : report.Report) (w : World) : option error * World :=
  (None, w ++ [("data/osv", r)]).

Definition Exported (m : report.Module_) (p : report.Package) (w : World)
  : (list string * option error) * World :=
  if report.Package' p =? "example.com/a/pkg"
  then (([], Some "no Go files"), w)
  else ((["Serve"], None), w).

Definition ExportedOk (m : report.Module_) (p : report.Package) (w : World)
  : (list string * option error) * World :=
  ((["Serve"; "Close"], None), w).

Definition Head (url : string) (w : World) : (Response * option error) * World :=
  (({| Status := "200 OK"; StatusCode := 200 |}, None), w).

Definition s : State World :=
  {| world := []; trace := []; rep := demo.r; fixed := true |}.

(** The pass and [fixAndWriteAll] with the loader that fails, and with the
    one that does not. *)
Definition fix_ : M World bool :=
  fixer_fix false false false World demo.runtime_Version "SEMVER" demo.AffectsSemver
            demo.IsExcluded demo.IsFirstParty Lint Fix LintAsNotes "FIX" demo.AddNote
            addMissingAliases Exported Head false.

Definition fixAndWriteAll_ : M World (option error) :=
  fixAndWriteAll false false false World demo.runtime_Version "SEMVER" demo.AffectsSemver
                 demo.IsExcluded demo.IsFirstParty Lint Fix LintAsNotes "FIX"
                 demo.AddNote addMissingAliases write writeDerived Exported Head.

Definition fixOk : M World bool :=
  fixer_fix false false false World demo.runtime_Version "SEMVER" demo.AffectsSemver
            demo.IsExcluded demo.IsFirstParty Lint Fix LintAsNotes "FIX" demo.AddNote
            addMissingAliases ExportedOk Head false.

Definition fixAndWriteAllOk : M World (option error) :=
  fixAndWriteAll false false false World demo.runtime_Version "SEMVER" demo.AffectsSemver
                 demo.IsExcluded demo.IsFirstParty Lint Fix LintAsNotes "FIX"
                 demo.AddNote addMissingAliases write writeDerived ExportedOk Head.

(** The report the pass leaves when every package loads. *)
Definition refreshed : report.Report := Eval vm_compute in rep (fixOk s).2.

(** Three references: one that is gone, one whose server does not answer,
    one whose server fails; and the [http.Head] that tells so. *)
Definition gone : report.Reference :=
  {| report.Type_ := "WEB"; report.URL := "https://example.com/gone" |}.
Definition down : report.Reference :=
  {| report.Type_ := "WEB"; report.URL := "https://example.com/down" |}.
Definition failing : report.Reference :=
  {| report.Type_ := "WEB"; report.URL := "https://example.com/failing" |}.

Definition noResponse : Response := {| Status := ""; StatusCode := 0 |}.

Definition HeadByUrl (url : string) (w : World) : (Response * option error) * World :=
  if url =? "https://example.com/gone"
  then (({| Status := "404 Not Found"; StatusCode := 404 |}, None), w)
  else if url =? "https://example.com/down"
  then ((noResponse, Some "dial tcp: i/o timeout"), w)
  else (({| Status := "500 Internal Server Error"; StatusCode := 500 |}, None), w).

Definition checkRefs_ : M World unit :=
  checkRefs HeadByUrl [gone; down; failing] (fixErr World "FIX" demo.AddNote false).

End disk.

(** The example of C7 as the specification words it: an empty candidate
    module path and a first product ["foo"] give the module ["TODO"] with
    the package ["foo"], in both converters. *)
Definition emptyModulePathUnresolved (ModulePath : string)
    (Contains IsStd IsCmd IsX : string -> bool)
    (referenceFromUrl : string -> report.Reference) : Prop :=
  (forall c id,
      candidatePackage c = "foo" ->
      report.Modules
        (cveToReport ModulePath Contains IsStd IsCmd IsX referenceFromUrl c id "")
      = skeletonModules "TODO" "foo")
  /\ (forall c id,
      candidatePackage5 c = "foo" ->
      report.Modules
        (cve5ToReport ModulePath Contains IsStd IsCmd IsX referenceFromUrl c id "")
      = skeletonModules "TODO" "foo").

(** C3 as the specification words it, for a run that has left the trace
    [tr] on the report [r]: after a failed call of [symbols.Exported], every
    package that is not skipped, in every module after it that the gate does
    not stop, is still queried. *)
Definition remainingModulesRefreshed (IsFirstParty : report.Module_ -> bool)
    (tr : list Event) (r : report.Report) : Prop :=
  forall i j m p syms err,
    EvExported i j m p (syms, Some err) ∈ tr ->
    forall i' m' j' p',
      (i < i')%nat ->
      report.Modules r !! i' = Some m' ->
      IsFirstParty m' = false ->
      report.Packages m' !! j' = Some p' ->
      report.SkipFix p' = "" ->
      exists m'' result, EvExported i' j' m'' p' result ∈ tr.

(** * Theorems *)

(** ** Range Builder *)

Lemma eqb_empty_decide (s : string) :
  (s =? "") = bool_decide (s = "").
Proof.
  destruct (String.eqb_spec s ""); symmetry.
  - by apply bool_decide_eq_true.
  - by apply bool_decide_eq_false.
Qed.

Lemma appendRange_spec (events : list osv.RangeEvent) (v : report.VersionRange) :
  appendRange events v = events ++ eventsOfRange v.
Proof.
  unfold appendRange, eventsOfRange.
  rewrite !eqb_empty_decide.
  repeat case_decide;
    rewrite ?bool_decide_eq_true_2, ?bool_decide_eq_false_2 by done; simpl;
    by rewrite ?app_nil_r, <- ?app_assoc.
Qed.

Lemma fold_appendRange (versions : list report.VersionRange) :
  forall events,
    fold_left appendRange versions events
    = events ++ concat (map eventsOfRange versions).
Proof.
  induction versions as [|v vs IH]; intros events; simpl.
  - by rewrite app_nil_r.
  - by rewrite IH, appendRange_spec, <- app_assoc.
Qed.


(** ** Schema Converter *)

Lemma addCVE_Modules IsStd IsCmd IsX (r : report.Report) (cveID modulePath : string) :
  report.Modules (addCVE IsStd IsCmd IsX r cveID modulePath) = report.Modules r.
Proof. unfold addCVE. by destruct (_ || _). Qed.

Lemma resolve_paths (ModulePath : string) (Contains : string -> bool)
    (candidate modulePath : string) :
  defaultPackage
    (unresolvedModule (stdlibCorrection ModulePath Contains (candidate, modulePath)))
  = (resolvedPackage ModulePath Contains candidate modulePath,
     resolvedModule ModulePath Contains modulePath).
Proof.
  unfold stdlibCorrection, unresolvedModule, defaultPackage, resolvedPackage,
    resolvedModule.
  destruct (Contains modulePath); simpl; rewrite !eqb_empty_decide;
    repeat (case_bool_decide || case_decide); simpl;
    rewrite ?eqb_empty_decide, ?bool_decide_eq_true_2, ?bool_decide_eq_false_2 by done;
    try done.
Qed.


(** ** Entry Generator *)

(** C8.  The module path of the affected block is the public
    standard-library identifier for the internal standard-library sentinel,
    the public toolchain identifier for the internal toolchain sentinel, and
    the module path itself otherwise.  The public identifiers being no
    internal sentinels, no module whose path is a sentinel keeps it. *)
Theorem generateAffected_module_path
    (RangeTypeSemver GoStdModulePath GoCmdModulePath GoEcosystem : string)
    (ModulePath ToolchainModulePath : string)
    (m : report.Module_)
    (Hsentinels : ModulePath <> ToolchainModulePath)
    (Hstd : GoStdModulePath <> ModulePath /\ GoStdModulePath <> ToolchainModulePath)
    (Hcmd : GoCmdModulePath <> ModulePath /\ GoCmdModulePath <> ToolchainModulePath) :
  let path :=
    osv.ModPath
      (osv.Module'
         (generateAffected RangeTypeSemver GoStdModulePath GoCmdModulePath GoEcosystem
                           ModulePath ToolchainModulePath m)) in
  (report.Module' m = ModulePath -> path = GoStdModulePath)
  /\ (report.Module' m = ToolchainModulePath -> path = GoCmdModulePath)
  /\ (report.Module' m <> ModulePath -> report.Module' m <> ToolchainModulePath ->
      path = report.Module' m)
  /\ path <> ModulePath
  /\ path <> ToolchainModulePath.
Proof.
  simpl.
  destruct (String.eqb_spec (report.Module' m) ModulePath) as [E1|N1];
    [|destruct (String.eqb_spec (report.Module' m) ToolchainModulePath) as [E2|N2]].
  - destruct Hstd. repeat split; try done. intros E2. congruence.
  - destruct Hcmd. repeat split; done.
  - repeat split; done.
Qed.

Lemma generateAffected_module_path_witness :
  let m := {| report.Module' := "std"; report.Versions := [];
              report.VulnerableAt := ""; report.Packages := [] |} in
  osv.ModPath
    (osv.Module' (generateAffected "SEMVER" "stdlib" "toolchain" "Go" "std" "cmd" m))
  = "stdlib".
Proof.
  intros m.
  apply (generateAffected_module_path "SEMVER" "stdlib" "toolchain" "Go" "std" "cmd" m);
    [discriminate | split; discriminate | split; discriminate | reflexivity].
Defined.
(** ** Regular expressions *)

Section RegexpFacts.
Context {A : Type}.
Implicit Types (t m : Thread A) (k : Thread A -> option (Thread A)) (p : A -> bool).

Lemma after_nil t cs : rest t = cs -> after t [] cs = t.
Proof. intros <-. by destruct t. Qed.

Lemma after_advance t c cs cs' :
  after (advance t (cs ++ cs')) cs cs' = after t (c :: cs) cs'.
Proof. unfold after, advance. simpl. f_equal. lia. Qed.

Lemma after_after t cs1 cs2 cs' r :
  after (after t cs1 r) cs2 cs' = after t (cs1 ++ cs2) cs'.
Proof. unfold after. simpl. f_equal. rewrite length_app. lia. Qed.

Lemma run_CharClass p k t c cs :
  rest t = c :: cs ->
  run (CharClass p) k t = if p c then k (after t [c] cs) else None.
Proof. intros E. simpl. rewrite E. done. Qed.

Lemma star_class_step p n k t :
  star (run (CharClass p)) (S n) k t
  = match rest t with
    | c :: cs =>
        if p c
        then match star (run (CharClass p)) n k (advance t cs) with
             | Some m => Some m
             | None => k t
             end
        else k t
    | [] => k t
    end.
Proof.
  cbn [star run]. destruct (rest t) as [|c cs]; [done|].
  destruct (p c); [|done].
  replace (pos t <? pos (advance t cs))%nat with true; [done|].
  symmetry. apply Nat.ltb_lt. simpl. lia.
Qed.

Lemma plus_class_step p k t :
  run (Plus (CharClass p)) k t
  = match rest t with
    | c :: cs =>
        if p c then star (run (CharClass p)) (length cs) k (advance t cs) else None
    | [] => None
    end.
Proof. cbn [Plus run]. destruct (rest t) as [|c cs]; [done|]. by destruct (p c). Qed.

Lemma star_class_sound p k m cs cs' :
  Forall (fun c => p c = true) cs -> stops p cs' ->
  forall n t,
    rest t = cs ++ cs' -> length cs <= n ->
    k (after t cs cs') = Some m ->
    star (run (CharClass p)) n k t = Some m.
Proof.
  intros Hcs Hstop. induction Hcs as [|c cs Hc Hcs IH]; intros n t Ht Hn Hk.
  - simpl in Ht. rewrite after_nil in Hk by done.
    destruct n as [|n]; [done|].
    rewrite star_class_step, Ht. destruct cs' as [|c' cs'']; [done|].
    simpl in Hstop. by rewrite Hstop.
  - destruct n as [|n]; [simpl in Hn; lia|].
    simpl in Ht. rewrite star_class_step, Ht, Hc.
    rewrite (IH n (advance t (cs ++ cs'))); [done|done|simpl in Hn; lia|].
    by rewrite (after_advance t c).
Qed.

Lemma plus_class_sound p k m t cs cs' :
  cs <> [] -> Forall (fun c => p c = true) cs -> stops p cs' ->
  rest t = cs ++ cs' ->
  k (after t cs cs') = Some m ->
  run (Plus (CharClass p)) k t = Some m.
Proof.
  intros Hne Hcs Hstop Ht Hk. destruct Hcs as [|c cs Hc Hcs]; [done|].
  simpl in Ht. rewrite plus_class_step, Ht, Hc.
  apply (star_class_sound p k m cs cs'); [done|done|done| |].
  - simpl. rewrite length_app. lia.
  - by rewrite (after_advance t c).
Qed.

Lemma find_BeginText (r : Regexp A) (s : list A) :
  forall n, find (Concat BeginText r) (S n) s = None.
Proof. induction s as [|c s IH]; intros n; simpl; [done|apply IH]. Qed.

Lemma run_Concat (r1 r2 : Regexp A) k t :
  run (Concat r1 r2) k t = run r1 (run r2 k) t.
Proof. done. Qed.

Lemma run_Capture n (r : Regexp A) k t :
  run (Capture n r) k t = run r (fun t' => k (capture n t t')) t.
Proof. done. Qed.

Lemma run_Alternate_l (r1 r2 : Regexp A) k t m :
  run r1 k t = Some m -> run (Alternate r1 r2) k t = Some m.
Proof. intros H. cbn [run]. by rewrite H. Qed.

Lemma run_Alternate_r (r1 r2 : Regexp A) k t :
  run r1 k t = None -> run (Alternate r1 r2) k t = run r2 k t.
Proof. intros H. cbn [run]. by rewrite H. Qed.

Lemma capture_after n t t' w cs :
  rest t = w ++ cs -> pos t' = length w + pos t ->
  capture n t t' = captured n w t'.
Proof.
  intros Hr Hp. unfold capture, captured. rewrite Hr, Hp. do 3 f_equal.
  replace (length w + pos t - pos t) with (length w) by lia.
  by rewrite take_app_length.
Qed.

(** Every match the search finds is a match of the expression. *)
Lemma star_matches (r : Regexp A) k m :
  (forall k t,
      run r k t = Some m ->
      exists w t', matches r (pos t) w (rest t') /\ rest t = w ++ rest t'
                   /\ pos t' = length w + pos t /\ k t' = Some m) ->
  forall n t,
    star (run r) n k t = Some m ->
    exists w t', matches (Star r) (pos t) w (rest t') /\ rest t = w ++ rest t'
                 /\ pos t' = length w + pos t /\ k t' = Some m.
Proof.
  intros IHr.
  assert (Hnil : forall t, k t = Some m ->
    exists w t', matches (Star r) (pos t) w (rest t') /\ rest t = w ++ rest t'
                 /\ pos t' = length w + pos t /\ k t' = Some m).
  { intros t H. exists [], t. split; [constructor|done]. }
  induction n as [|n IH]; intros t H; [by apply Hnil|].
  cbn [star] in H.
  destruct (run r _ t) as [m'|] eqn:Hstep; [|by apply Hnil].
  injection H as ->.
  apply IHr in Hstep as (w1 & t1 & Hm1 & Hr1 & Hp1 & Hk1).
  destruct (pos t <? pos t1)%nat; [|done].
  apply IH in Hk1 as (w2 & t2 & Hm2 & Hr2 & Hp2 & Hk2).
  exists (w1 ++ w2), t2. split; [|split; [|split]].
  - constructor; [by rewrite <- Hr2 | by rewrite <- Hp1].
  - by rewrite Hr1, Hr2, app_assoc.
  - rewrite Hp2, Hp1, length_app. lia.
  - done.
Qed.

Theorem run_matches (r : Regexp A) :
  forall k t m,
    run r k t = Some m ->
    exists w t', matches r (pos t) w (rest t') /\ rest t = w ++ rest t'
                 /\ pos t' = length w + pos t /\ k t' = Some m.
Proof.
  induction r as [|q|r1 IH1 r2 IH2|r1 IH1 r2 IH2|r IH|n r IH| |]; intros k t m H.
  - exists [], t. split; [constructor|done].
  - cbn [run] in H. destruct (rest t) as [|c cs] eqn:Ht; [done|].
    destruct (q c) eqn:Hq; [|done].
    exists [c], (advance t cs). split; [by constructor|done].
  - cbn [run] in H.
    apply IH1 in H as (w1 & t1 & Hm1 & Hr1 & Hp1 & H).
    apply IH2 in H as (w2 & t2 & Hm2 & Hr2 & Hp2 & H).
    exists (w1 ++ w2), t2. split; [|split; [|split]].
    + constructor; [by rewrite <- Hr2 | by rewrite <- Hp1].
    + by rewrite Hr1, Hr2, app_assoc.
    + rewrite Hp2, Hp1, length_app. lia.
    + done.
  - cbn [run] in H. destruct (run r1 k t) as [m'|] eqn:H1.
    + injection H as ->. apply IH1 in H1 as (w & t' & Hm & ?).
      exists w, t'. split; [by apply matches_Alternate_l|done].
    + apply IH2 in H as (w & t' & Hm & ?).
      exists w, t'. split; [by apply matches_Alternate_r|done].
  - cbn [run] in H. apply star_matches in H; [done|]. intros. by apply IH.
  - cbn [run] in H. apply IH in H as (w & t' & Hm & Hr & Hp & H).
    exists w, (capture n t t'). split; [by constructor|done].
  - cbn [run] in H. destruct (pos t =? 0)%nat eqn:Hp; [|done].
    apply Nat.eqb_eq in Hp. exists [], t. rewrite Hp. split; [constructor|done].
  - cbn [run] in H. destruct (rest t) eqn:Ht; [|done].
    exists [], t. rewrite Ht. split; [constructor|done].
Qed.

Lemma matches_Star_CharClass (q : A -> bool) (i : nat) w cs :
  matches (Star (CharClass q)) i w cs -> Forall (fun c => q c = true) w.
Proof.
  intros H. remember (Star (CharClass q)) as r eqn:Er.
  induction H as [| | | | | |r i w1 w2 cs H1 _ H2 IH| | |]; try done.
  injection Er as ->. inversion H1; subst. constructor; [done|by apply IH].
Qed.

Lemma matches_Plus_CharClass (q : A -> bool) (i : nat) w cs :
  matches (Plus (CharClass q)) i w cs -> w <> [] /\ Forall (fun c => q c = true) w.
Proof.
  intros H. inversion H as [| |? ? ? w1 w2 ? H1 H2| | | | | | |]; subst.
  inversion H1; subst. apply matches_Star_CharClass in H2.
  split; [done|by constructor].
Qed.

End RegexpFacts.
(** ** [ReplaceAllString] for [x+], [x] a class *)

Section ReplaceFacts.
Context {A : Type}.
Implicit Types (p : A -> bool) (t s : list A).

Lemma find_plus_class_none p s :
  Forall (fun c => p c = false) s ->
  forall i, find (Plus (CharClass p)) i s = None.
Proof.
  induction 1 as [|c s Hc Hs IH]; intros i; cbn [find]; rewrite plus_class_step;
    cbn [rest]; [done|].
  rewrite Hc. apply IH.
Qed.

Lemma find_plus_class p pre cs cs' :
  Forall (fun c => p c = false) pre ->
  cs <> [] -> Forall (fun c => p c = true) cs -> stops p cs' ->
  forall i,
    find (Plus (CharClass p)) i (pre ++ cs ++ cs')
    = Some (i + length pre,
            {| pos := length cs + (i + length pre); rest := cs'; caps := [] |}).
Proof.
  intros Hpre Hne Hcs Hstop. induction Hpre as [|c pre Hc Hpre IH]; intros i.
  - cbn [app length]. rewrite Nat.add_0_r.
    assert (Hrun :
      run (Plus (CharClass p)) Some {| pos := i; rest := cs ++ cs'; caps := [] |}
      = Some {| pos := length cs + i; rest := cs'; caps := [] |}).
    { by apply (plus_class_sound p Some _ _ cs cs'). }
    destruct cs as [|c cs]; [done|]. cbn [app find] in *. by rewrite Hrun.
  - cbn [app find]. rewrite plus_class_step. cbn [rest]. rewrite Hc.
    rewrite IH. cbn [length].
    by replace (S i + length pre) with (i + S (length pre)) by lia.
Qed.

(** A text has no character of the class, or a first run of them. *)
Lemma first_run p s :
  Forall (fun c => p c = false) s
  \/ exists pre cs cs',
       s = pre ++ cs ++ cs'
       /\ Forall (fun c => p c = false) pre
       /\ cs <> [] /\ Forall (fun c => p c = true) cs /\ stops p cs'.
Proof.
  induction s as [|c s IH]; [left; constructor|].
  destruct (p c) eqn:Hc.
  - right. exists [].
    assert (Hrun : exists cs cs',
      s = cs ++ cs' /\ Forall (fun c => p c = true) cs /\ stops p cs').
    { clear IH. induction s as [|d s IH]; [by exists [], []|].
      destruct (p d) eqn:Hd.
      - destruct IH as (cs & cs' & -> & Hcs & Hstop).
        exists (d :: cs), cs'. split; [done|]. split; [by constructor|done].
      - exists [], (d :: s). split; [done|]. split; [constructor|done]. }
    destruct Hrun as (cs & cs' & -> & Hcs & Hstop).
    exists (c :: cs), cs'. split; [done|]. split; [constructor|].
    split; [done|]. split; [by constructor|done].
  - destruct IH as [Hall|(pre & cs & cs' & -> & Hpre & Hne & Hcs & Hstop)].
    + left. by constructor.
    + right. exists (c :: pre), cs, cs'. split; [done|]. split; [by constructor|done].
Qed.

Lemma squeezeFrom_none p t s :
  Forall (fun c => p c = false) s -> forall b, squeezeFrom p t b s = s.
Proof.
  induction 1 as [|c s Hc Hs IH]; intros b; cbn; [done|]. by rewrite Hc, IH.
Qed.

Lemma squeezeFrom_app_none p t pre s :
  Forall (fun c => p c = false) pre ->
  forall b, pre <> [] \/ b = false ->
    squeezeFrom p t b (pre ++ s) = pre ++ squeezeFrom p t false s.
Proof.
  induction 1 as [|c pre Hc Hpre IH]; intros b Hb; cbn [app squeezeFrom].
  - by destruct Hb as [?| ->].
  - rewrite Hc. f_equal. apply IH. by right.
Qed.

Lemma squeezeFrom_run p t cs cs' :
  Forall (fun c => p c = true) cs -> stops p cs' ->
  squeezeFrom p t true (cs ++ cs') = squeezeFrom p t false cs'.
Proof.
  intros Hcs Hstop. induction Hcs as [|c cs Hc Hcs IH]; cbn [app squeezeFrom].
  - destruct cs' as [|c' cs']; [done|]. cbn in *. by rewrite Hstop.
  - by rewrite Hc, IH.
Qed.

Lemma squeeze_first_run p t pre cs cs' :
  Forall (fun c => p c = false) pre ->
  cs <> [] -> Forall (fun c => p c = true) cs -> stops p cs' ->
  squeeze p t (pre ++ cs ++ cs') = pre ++ t ++ squeeze p t cs'.
Proof.
  intros Hpre Hne Hcs Hstop. unfold squeeze.
  rewrite squeezeFrom_app_none by (done || by right). f_equal.
  destruct Hcs as [|c cs Hc Hcs]; [done|]. cbn [app squeezeFrom]. rewrite Hc.
  f_equal. by apply squeezeFrom_run.
Qed.

Lemma replaceAll_plus_class p t src :
  forall fuel n buf,
    n <= length src -> length src - n < fuel ->
    replaceAll (Plus (CharClass p)) [Text t] src fuel n n buf
    = buf ++ squeeze p t (drop n src).
Proof.
  induction fuel as [|fuel IH]; intros n buf Hn Hfuel; [lia|].
  cbn [replaceAll]. rewrite (proj2 (Nat.leb_le _ _) Hn).
  destruct (first_run p (drop n src))
    as [Hall|(pre & cs & cs' & Hsrc & Hpre & Hne & Hcs & Hstop)].
  - rewrite find_plus_class_none by done. unfold squeeze.
    by rewrite squeezeFrom_none.
  - rewrite Hsrc, find_plus_class by done.
    cbn [pos]. rewrite <- Hsrc.
    assert (Hlen : length src - n = length pre + length cs + length cs').
    { rewrite <- length_drop, Hsrc, !length_app. lia. }
    assert (Hcs1 : 1 <= length cs) by (destruct cs; [done|cbn; lia]).
    replace (n + length pre - n) with (length pre) by lia.
    rewrite Hsrc at 1. rewrite take_app_length.
    replace (n <? length cs + (n + length pre))%nat with true
      by (symmetry; apply Nat.ltb_lt; lia).
    cbn [orb expand map concat]. rewrite app_nil_r.
    replace (length cs + (n + length pre) <? n + (if (n <? length src)%nat then 1 else 0))%nat
      with false by (symmetry; apply Nat.ltb_ge; destruct (n <? length src)%nat; lia).
    replace (length cs + (n + length pre) <? n + 1)%nat
      with false by (symmetry; apply Nat.ltb_ge; lia).
    rewrite IH by lia.
    replace (drop (length cs + (n + length pre)) src) with cs'.
    + rewrite Hsrc, squeeze_first_run by done. by rewrite <- !app_assoc.
    + replace (length cs + (n + length pre)) with (n + (length pre + length cs)) by lia.
      rewrite <- drop_drop, Hsrc, app_assoc, <- length_app.
      by rewrite drop_app_length.
Qed.

(** Replacing [x+] by a text squeezes every run of [x]. *)
Lemma ReplaceAllString_plus_class p t src :
  ReplaceAllString (Plus (CharClass p)) src [Text t] = squeeze p t src.
Proof.
  unfold ReplaceAllString. rewrite replaceAll_plus_class by lia. done.
Qed.

(** An expression with no match leaves the text as it is. *)
Lemma ReplaceAllString_no_match (re : Regexp A) template src :
  find re 0 src = None -> ReplaceAllString re src template = src.
Proof.
  intros Hnone. unfold ReplaceAllString. cbn [Nat.add replaceAll Nat.leb].
  by rewrite !drop_0, Hnone.
Qed.

(** What the search finds is a match of the expression in the text. *)
Lemma find_matches (re : Regexp A) src :
  forall i a m,
    find re i src = Some (a, m) ->
    exists pre w post, src = pre ++ w ++ post /\ matches re a w post.
Proof.
  induction src as [|c src IH]; intros i a m; cbn [find].
  - destruct (run re Some _) as [m'|] eqn:Hrun; [|done].
    intros [= <- <-]. apply run_matches in Hrun as (w & t' & Hm & Hr & _ & _).
    cbn in *. exists [], w, (rest t'). by split.
  - destruct (run re Some _) as [m'|] eqn:Hrun.
    + intros [= <- <-]. apply run_matches in Hrun as (w & t' & Hm & Hr & _ & _).
      cbn in *. exists [], w, (rest t'). by split.
    + intros (pre & w & post & -> & Hm)%IH. by exists (c :: pre), w, post.
Qed.

(** Squeezing what has been squeezed, when the text put in is one character
    of the class. *)
Lemma squeezeFrom_squeezeFrom p c s :
  p c = true ->
  squeezeFrom p [c] false (squeezeFrom p [c] false s) = squeezeFrom p [c] false s
  /\ forall b, squeezeFrom p [c] b (squeezeFrom p [c] true s) = squeezeFrom p [c] true s.
Proof.
  intros Hc. induction s as [|x s [IHf IHt]]; [done|]. cbn [squeezeFrom].
  destruct (p x) eqn:Hx.
  - split; [|done]. cbn [app squeezeFrom]. rewrite Hc. cbn [app]. by rewrite IHt.
  - split; [|intros b]; cbn [squeezeFrom]; by rewrite Hx, IHf.
Qed.

(** What squeezing leaves is what was there and was not of the class, and
    the text put in. *)
Lemma squeezeFrom_Forall p t (Q : A -> Prop) s :
  Forall Q t -> Forall (fun c => p c = false -> Q c) s ->
  forall b, Forall Q (squeezeFrom p t b s).
Proof.
  intros Ht. induction 1 as [|c s Hc Hs IH]; intros b; cbn [squeezeFrom];
    [constructor|].
  destruct (p c) eqn:Hpc.
  - apply Forall_app_2; [by destruct b|apply IH].
  - constructor; [by apply Hc|apply IH].
Qed.

Lemma squeezeFrom_snoc p t s d :
  p d = false ->
  forall b, squeezeFrom p t b (s ++ [d]) = squeezeFrom p t b s ++ [d].
Proof.
  intros Hd. induction s as [|c s IH]; intros b; cbn [app squeezeFrom].
  - by rewrite Hd.
  - destruct (p c); by rewrite IH, ?app_assoc.
Qed.

End ReplaceFacts.


(** ** Version Tag Parser *)

Lemma list_ascii_of_string_app (a b : string) :
  list_ascii_of_string (a +:+ b) = list_ascii_of_string a ++ list_ascii_of_string b.
Proof. induction a as [|c a IH]; simpl; [done|by rewrite IH]. Qed.

Lemma string_of_list_ascii_app (l1 l2 : list ascii) :
  string_of_list_ascii (l1 ++ l2) = string_of_list_ascii l1 +:+ string_of_list_ascii l2.
Proof. induction l1 as [|c l1 IH]; simpl; [done|by rewrite IH]. Qed.

Lemma number_numeral (s : string) : number s <-> numeral (list_ascii_of_string s).
Proof.
  unfold number, numeral. split; intros [Hne Hd]; (split; [|done]).
  - intros E. apply Hne. by destruct s.
  - intros ->. done.
Qed.

Lemma numeral_number (l : list ascii) : numeral l -> number (string_of_list_ascii l).
Proof. intros H. apply number_numeral. by rewrite list_ascii_of_string_of_list_ascii. Qed.

Lemma literal_String (c : ascii) (s : string) :
  literal (String c s) = Concat (byte c) (literal s).
Proof. done. Qed.

Lemma run_literal (s : string) :
  forall k (t : Thread ascii) cs,
    rest t = list_ascii_of_string s ++ cs ->
    run (literal s) k t = k (after t (list_ascii_of_string s) cs).
Proof.
  induction s as [|c s IH]; intros k t cs Ht.
  - simpl in Ht |- *. by rewrite after_nil.
  - simpl in Ht. rewrite literal_String, run_Concat. unfold byte.
    rewrite (run_CharClass _ _ _ c (list_ascii_of_string s ++ cs)) by done.
    rewrite Ascii.eqb_refl, (IH _ _ cs) by done.
    by rewrite after_after.
Qed.

Lemma run_literal_mismatch (c : ascii) (s : string) k (t : Thread ascii) :
  match rest t with
  | x :: _ => x <> c
  | [] => True
  end ->
  run (literal (String c s)) k t = None.
Proof.
  intros H. rewrite literal_String, run_Concat. unfold byte. cbn [run].
  destruct (rest t) as [|x cs]; [done|].
  destruct (Ascii.eqb_spec x c); done.
Qed.

Lemma matches_literal (s : string) :
  forall i w cs, matches (literal s) i w cs -> w = list_ascii_of_string s.
Proof.
  induction s as [|c s IH]; intros i w cs H.
  - by inv H.
  - rewrite literal_String in H. inv H.
    match goal with H : matches (byte _) _ _ _ |- _ => inv H end.
    match goal with H : Ascii.eqb _ _ = true |- _ => apply Ascii.eqb_eq in H as -> end.
    simpl. f_equal. by eapply IH.
Qed.

Lemma matches_digits i w cs : matches digits i w cs -> numeral w.
Proof. apply matches_Plus_CharClass. Qed.

Lemma matches_majorMinor i w cs :
  matches majorMinor i w cs ->
  exists M N, numeral M /\ numeral N /\ w = M ++ "."%char :: N.
Proof.
  intros H. inv H.
  match goal with H : matches (Concat _ _) _ _ _ |- _ => inv H end.
  match goal with H : matches (byte _) _ _ _ |- _ => inv H end.
  match goal with H : Ascii.eqb _ _ = true |- _ => apply Ascii.eqb_eq in H as -> end.
  repeat match goal with H : matches digits _ _ _ |- _ => apply matches_digits in H end.
  eauto 10.
Qed.

Lemma matches_patchVersion i w cs :
  matches patchVersion i w cs ->
  w = [] \/ exists P, numeral P /\ w = "."%char :: P.
Proof.
  intros H. inv H.
  - match goal with H : matches (Concat _ _) _ _ _ |- _ => inv H end.
    match goal with H : matches (byte _) _ _ _ |- _ => inv H end.
    match goal with H : Ascii.eqb _ _ = true |- _ => apply Ascii.eqb_eq in H as -> end.
    match goal with H : matches digits _ _ _ |- _ => apply matches_digits in H end.
    right. eauto.
  - match goal with H : matches EmptyMatch _ _ _ |- _ => inv H end. by left.
Qed.

Lemma matches_prerelease i w cs :
  matches (Quest (Capture 3 prereleaseRe)) i w cs ->
  w = [] \/ exists kind n, numeral n /\ w = list_ascii_of_string (kindName kind) ++ n.
Proof.
  intros H. inv H.
  - match goal with H : matches (Capture _ _) _ _ _ |- _ => inv H end.
    match goal with H : matches prereleaseRe _ _ _ |- _ => inv H end.
    repeat match goal with H : matches (Capture _ _) _ _ _ |- _ => inv H end.
    match goal with H : matches digits _ _ _ |- _ => apply matches_digits in H end.
    right.
    match goal with H : matches prereleaseType _ _ _ |- _ => inv H end;
      match goal with H : matches (literal _) _ _ _ |- _ =>
        apply matches_literal in H as -> end.
    + by exists beta, w2.
    + by exists rc, w2.
  - match goal with H : matches EmptyMatch _ _ _ |- _ => inv H end. by left.
Qed.

Lemma tagRegexp_shape w cs :
  matches tagRegexp 0 w cs ->
  cs = [] /\ exists g, wellFormed g /\ w = list_ascii_of_string (tagOf g).
Proof.
  intros H. unfold tagRegexp in H.
  repeat match goal with H : matches (Concat _ _) _ _ _ |- _ => inv H end.
  repeat match goal with
         | H : matches BeginText _ _ _ |- _ => inv H
         | H : matches EndText _ _ _ |- _ => inv H
         | H : matches (literal _) _ _ _ |- _ => apply matches_literal in H as ->
         | H : matches (Capture _ _) _ _ _ |- _ => inv H
         end.
  match goal with H : matches majorMinor _ _ _ |- _ =>
    apply matches_majorMinor in H as (M & N & HM & HN & ->) end.
  match goal with H : matches patchVersion _ _ _ |- _ =>
    apply matches_patchVersion in H as [->|(P & HP & ->)] end;
  match goal with H : matches (Quest _) _ _ _ |- _ =>
    apply matches_prerelease in H as [->|(kind & n & Hn & ->)] end;
  (split; [done|]).
  - exists {| major := string_of_list_ascii M; minor := string_of_list_ascii N;
              patch := None; prerelease := None |}.
    split; [unfold wellFormed; simpl; auto 10 using numeral_number|].
    unfold tagOf. simpl.
    rewrite !list_ascii_of_string_app, !list_ascii_of_string_of_list_ascii.
    simpl. by rewrite ?app_nil_r, <- ?app_assoc.
  - exists {| major := string_of_list_ascii M; minor := string_of_list_ascii N;
              patch := None; prerelease := Some (kind, string_of_list_ascii n) |}.
    split; [unfold wellFormed; simpl; auto 10 using numeral_number|].
    unfold tagOf. simpl.
    rewrite !list_ascii_of_string_app, !list_ascii_of_string_of_list_ascii.
    simpl. by rewrite ?app_nil_r, <- ?app_assoc.
  - exists {| major := string_of_list_ascii M; minor := string_of_list_ascii N;
              patch := Some (string_of_list_ascii P); prerelease := None |}.
    split; [unfold wellFormed; simpl; auto 10 using numeral_number|].
    unfold tagOf. simpl.
    rewrite !list_ascii_of_string_app, !list_ascii_of_string_of_list_ascii.
    simpl. by rewrite ?app_nil_r, <- ?app_assoc.
  - exists {| major := string_of_list_ascii M; minor := string_of_list_ascii N;
              patch := Some (string_of_list_ascii P);
              prerelease := Some (kind, string_of_list_ascii n) |}.
    split; [unfold wellFormed; simpl; auto 10 using numeral_number|].
    unfold tagOf. simpl.
    rewrite !list_ascii_of_string_app, !list_ascii_of_string_of_list_ascii.
    simpl. by rewrite ?app_nil_r, <- ?app_assoc.
Qed.

Lemma run_digits k (t m : Thread ascii) w cs :
  numeral w -> stops isDigit cs -> rest t = w ++ cs ->
  k (after t w cs) = Some m ->
  run digits k t = Some m.
Proof. intros [Hne Hd] Hs Ht Hk. by apply (plus_class_sound isDigit k m t w cs). Qed.

Lemma run_majorMinor k (t m : Thread ascii) M N cs :
  numeral M -> numeral N -> stops isDigit cs ->
  rest t = (M ++ "."%char :: N) ++ cs ->
  k (captured 1 (M ++ "."%char :: N) (after t (M ++ "."%char :: N) cs)) = Some m ->
  run (Capture 1 majorMinor) k t = Some m.
Proof.
  intros HM HN Hs Ht Hk. rewrite run_Capture. unfold majorMinor.
  rewrite run_Concat.
  apply (run_digits _ _ _ M ("."%char :: N ++ cs)); [done|done| |].
  { by rewrite Ht, <- app_assoc. }
  rewrite run_Concat. unfold byte.
  rewrite (run_CharClass _ _ _ "."%char (N ++ cs)) by done.
  rewrite Ascii.eqb_refl.
  apply (run_digits _ _ _ N cs); [done|done|done|].
  rewrite !after_after, <- ?app_assoc. simpl.
  by rewrite (capture_after 1 t _ (M ++ "."%char :: N) cs)
    by (try done; simpl; lia).
Qed.

Lemma run_patchVersion_some k (t m : Thread ascii) P cs :
  numeral P -> stops isDigit cs ->
  rest t = ("."%char :: P) ++ cs ->
  k (captured 2 ("."%char :: P) (after t ("."%char :: P) cs)) = Some m ->
  run (Capture 2 patchVersion) k t = Some m.
Proof.
  intros HP Hs Ht Hk. rewrite run_Capture. unfold patchVersion.
  apply run_Alternate_l. rewrite run_Concat. unfold byte.
  rewrite (run_CharClass _ _ _ "."%char (P ++ cs)) by done.
  rewrite Ascii.eqb_refl.
  apply (run_digits _ _ _ P cs); [done|done|done|].
  rewrite after_after. simpl.
  by rewrite (capture_after 2 t _ ("."%char :: P) cs) by (try done; simpl; lia).
Qed.

Lemma run_patchVersion_none k (t : Thread ascii) :
  match rest t with
  | c :: _ => c <> "."%char
  | [] => True
  end ->
  run (Capture 2 patchVersion) k t = k (captured 2 [] t).
Proof.
  intros H. rewrite run_Capture. unfold patchVersion.
  rewrite run_Alternate_r.
  - cbn [run]. by rewrite (capture_after 2 t t [] (rest t)).
  - rewrite run_Concat. unfold byte. cbn [run].
    destruct (rest t) as [|c cs]; [done|].
    by destruct (Ascii.eqb_spec c "."%char).
Qed.

Lemma run_prerelease_some k (t m : Thread ascii) kind n :
  numeral n ->
  rest t = list_ascii_of_string (kindName kind) ++ n ->
  k (captured 3 (list_ascii_of_string (kindName kind) ++ n)
       (captured 5 n
          (captured 4 (list_ascii_of_string (kindName kind))
             (after t (list_ascii_of_string (kindName kind) ++ n) []))))
  = Some m ->
  run (Quest (Capture 3 prereleaseRe)) k t = Some m.
Proof.
  intros Hn Ht Hk. unfold Quest. apply run_Alternate_l.
  rewrite run_Capture. unfold prereleaseRe. rewrite run_Concat, run_Capture.
  assert (Hkind : forall k',
    k' (after t (list_ascii_of_string (kindName kind)) n) = Some m ->
    run prereleaseType k' t = Some m).
  { intros k' Hk'. unfold prereleaseType. destruct kind.
    - apply run_Alternate_l. by rewrite (run_literal "beta" _ _ n).
    - rewrite run_Alternate_r.
      + by rewrite (run_literal "rc" _ _ n).
      + apply run_literal_mismatch. by rewrite Ht. }
  apply Hkind. clear Hkind.
  rewrite run_Capture.
  rewrite (capture_after 4 t _ (list_ascii_of_string (kindName kind)) n)
    by (try done; simpl; lia).
  apply (run_digits _ _ _ n []); [done|done|by rewrite app_nil_r|].
  rewrite (capture_after 5 _ _ n []) by (try done; by rewrite app_nil_r).
  rewrite (capture_after 3 t _ (list_ascii_of_string (kindName kind) ++ n) [])
    by (rewrite ?app_nil_r; try done; simpl; rewrite length_app; lia).
  rewrite <- Hk. f_equal. unfold captured, after. simpl. rewrite length_app.
  by replace (length n + (length (list_ascii_of_string (kindName kind)) + pos t))
    with (length (list_ascii_of_string (kindName kind)) + length n + pos t) by lia.
Qed.

Lemma run_prerelease_none k (t : Thread ascii) :
  rest t = [] ->
  run (Quest (Capture 3 prereleaseRe)) k t = k t.
Proof.
  intros Ht. unfold Quest. rewrite run_Alternate_r; [done|].
  rewrite run_Capture. unfold prereleaseRe. rewrite run_Concat, run_Capture.
  unfold prereleaseType. rewrite run_Alternate_r.
  - apply run_literal_mismatch. by rewrite Ht.
  - apply run_literal_mismatch. by rewrite Ht.
Qed.

Lemma tagRegexp_unfold k (t : Thread ascii) :
  run tagRegexp k t
  = if (pos t =? 0)%nat
    then run (literal "go")
           (run (Capture 1 majorMinor)
              (run (Capture 2 patchVersion)
                 (run (Quest (Capture 3 prereleaseRe)) (run EndText k)))) t
    else None.
Proof. done. Qed.

Lemma tagOf_text (g : GoTag) :
  list_ascii_of_string (tagOf g)
  = list_ascii_of_string "go"
    ++ (list_ascii_of_string (major g) ++ "."%char :: list_ascii_of_string (minor g))
    ++ patchText g ++ prereleaseText g.
Proof.
  unfold tagOf, patchText, prereleaseText.
  rewrite !list_ascii_of_string_app. simpl. rewrite <- !app_assoc. simpl.
  do 4 f_equal. destruct (patch g), (prerelease g) as [[kind n]|]; simpl;
    by rewrite ?list_ascii_of_string_app, ?app_nil_r.
Qed.

Lemma stops_prereleaseText (g : GoTag) : stops isDigit (prereleaseText g).
Proof.
  unfold prereleaseText. destruct (prerelease g) as [[[] n]|]; done.
Qed.

Lemma stops_patch_prerelease (g : GoTag) :
  stops isDigit (patchText g ++ prereleaseText g).
Proof.
  unfold patchText. destruct (patch g); [done|]. apply stops_prereleaseText.
Qed.

(** The match of a well-formed tag, with its five groups. *)
Lemma run_tagRegexp (g : GoTag) :
  wellFormed g ->
  exists m,
    run tagRegexp Some {| pos := 0; rest := list_ascii_of_string (tagOf g); caps := [] |}
    = Some m
    /\ group 1 (caps m)
       = list_ascii_of_string (major g) ++ "."%char :: list_ascii_of_string (minor g)
    /\ group 2 (caps m) = patchText g
    /\ group 3 (caps m) = prereleaseText g
    /\ match prerelease g with
       | Some (kind, n) =>
           group 4 (caps m) = list_ascii_of_string (kindName kind)
           /\ group 5 (caps m) = list_ascii_of_string n
       | None => True
       end.
Proof.
  intros (HM & HN & HP & HQ).
  apply number_numeral in HM, HN.
  pose proof (stops_patch_prerelease g) as Hs1.
  pose proof (stops_prereleaseText g) as Hs2.
  rewrite tagRegexp_unfold. cbn [pos Nat.eqb].
  rewrite (run_literal "go" _
             {| pos := 0; rest := list_ascii_of_string (tagOf g); caps := [] |}
             _ (tagOf_text g)).
  unfold patchText, prereleaseText in *.
  destruct g as [M N [p|] [[kind n]|]]; cbn [major minor patch prerelease] in *;
    try apply number_numeral in HP; try apply number_numeral in HQ;
    eexists; (split;
     [ eapply run_majorMinor; [exact HM|exact HN|exact Hs1|reflexivity|] | ]).
  - eapply run_patchVersion_some; [exact HP|exact Hs2|reflexivity|].
    eapply run_prerelease_some; [exact HQ|reflexivity|]. reflexivity.
  - done.
  - eapply run_patchVersion_some; [exact HP|exact Hs2|reflexivity|].
    rewrite run_prerelease_none by done. reflexivity.
  - done.
  - rewrite run_patchVersion_none by (by destruct kind).
    eapply run_prerelease_some; [exact HQ|reflexivity|]. reflexivity.
  - done.
  - rewrite run_patchVersion_none by done.
    rewrite run_prerelease_none by done. reflexivity.
  - done.
Qed.

Lemma find_anchored (r : Regexp ascii) (s : list ascii) :
  find (Concat BeginText r) 0 s
  = match run (Concat BeginText r) Some {| pos := 0; rest := s; caps := [] |} with
    | Some m => Some (0, m)
    | None => None
    end.
Proof.
  destruct s as [|c s]; [done|]. cbn [find].
  destruct (run _ _ _); [done|]. apply find_BeginText.
Qed.

Lemma FindStringSubmatch_tagRegexp (v : string) :
  FindStringSubmatch tagRegexp v
  = match run tagRegexp Some {| pos := 0; rest := list_ascii_of_string v; caps := [] |} with
    | Some m => Some (fun n => string_of_list_ascii (group n (caps m)))
    | None => None
    end.
Proof.
  unfold FindStringSubmatch, tagRegexp. rewrite find_anchored.
  by destruct (run _ _ _).
Qed.

Lemma append_assoc (a b c : string) : (a +:+ b) +:+ c = a +:+ b +:+ c.
Proof.
  induction a as [|x a IH]; [done|].
  change (String x ((a +:+ b) +:+ c) = String x (a +:+ b +:+ c)). by f_equal.
Qed.

Lemma append_empty_r (a : string) : a +:+ "" = a.
Proof.
  induction a as [|x a IH]; [done|].
  change (String x (a +:+ "") = String x a). by f_equal.
Qed.

Lemma append_eqb_empty (a b : string) : a <> "" -> (a +:+ b =? "") = false.
Proof. intros H. destruct a; [done|]. done. Qed.

(** C9.  A tag [go<major>.<minor>[.<patch>][(beta|rc)<n>]] maps to
    [<major>.<minor>.<patch>], the patch being [0] when the tag has none, with
    [-<beta|rc>.<n>] appended when the tag has a prerelease; every other
    string maps to the empty string.  So ["go1.21.3"] gives ["1.21.3"],
    ["go1.21beta1"] gives ["1.21.0-beta.1"] and ["1.21.3"] gives [""]. *)
Theorem semverForGoVersion_spec :
  (forall g, wellFormed g -> semverForGoVersion (tagOf g) = semverOf g)
  /\ (forall v, (forall g, wellFormed g -> v <> tagOf g) -> semverForGoVersion v = "")
  /\ semverForGoVersion "go1.21.3" = "1.21.3"
  /\ semverForGoVersion "go1.21beta1" = "1.21.0-beta.1"
  /\ semverForGoVersion "1.21.3" = "".
Proof.
  split; [|split; [|done]].
  - intros g Hg. unfold semverForGoVersion.
    rewrite FindStringSubmatch_tagRegexp.
    destruct (run_tagRegexp g Hg) as (m & -> & H1 & H2 & H3 & H45).
    rewrite H1, H2, H3. unfold semverOf, patchText, prereleaseText.
    destruct Hg as (_ & _ & HP & HQ).
    rewrite string_of_list_ascii_app. cbn [string_of_list_ascii].
    rewrite !string_of_list_ascii_of_string.
    destruct (prerelease g) as [[kind n]|];
      [destruct H45 as [H4 H5]; rewrite H4, H5|clear H45];
      destruct (patch g) as [p|];
      cbn [string_of_list_ascii String.eqb Ascii.eqb Bool.eqb negb];
      rewrite ?string_of_list_ascii_app, ?string_of_list_ascii_of_string;
      rewrite ?append_eqb_empty by (by destruct kind); cbn [negb].
    all: by rewrite ?append_assoc, ?append_empty_r.
  - intros v Hv. unfold semverForGoVersion.
    rewrite FindStringSubmatch_tagRegexp.
    destruct (run tagRegexp Some _) as [m|] eqn:Hrun; [exfalso|done].
    apply run_matches in Hrun as (w & t' & Hm & Hr & _ & [= ->]).
    simpl in Hm, Hr. apply tagRegexp_shape in Hm as (Hcs & g & Hg & ->).
    rewrite Hcs, app_nil_r in Hr. apply (Hv g Hg).
    by rewrite <- (string_of_list_ascii_of_string v), Hr, string_of_list_ascii_of_string.
Qed.
(** ** Range Builder: the shape of the events *)


(** ** Entry Generator: the packages of an affected block *)

Lemma fold_left_snoc {A B} (f : A -> B) (l : list A) :
  forall acc, fold_left (fun acc x => acc ++ [f x]) l acc = acc ++ map f l.
Proof.
  induction l as [|x l IH]; intros acc; cbn; [by rewrite app_nil_r|].
  by rewrite IH, <- app_assoc.
Qed.

Lemma insertSorted_Sorted (s : string) (l : list string) :
  Sorted (fun a b => (a <=? b) = true) l ->
  Sorted (fun a b => (a <=? b) = true) (insertSorted s l).
Proof.
  induction 1 as [|x l Hl IH Hx]; cbn.
  - by repeat constructor.
  - destruct (s <=? x) eqn:Hsx.
    + constructor; [by constructor|by constructor].
    + constructor; [done|].
      assert (Hxs : (x <=? s) = true)
        by (destruct (String.leb_total s x); congruence).
      destruct Hx as [|y l Hxy]; cbn; [by constructor|].
      destruct (s <=? y); by constructor.
Qed.

Lemma insertSorted_Permutation (s : string) (l : list string) :
  insertSorted s l ≡ₚ s :: l.
Proof.
  induction l as [|x l IH]; cbn; [done|].
  destruct (s <=? x); [done|]. by rewrite IH, Permutation_swap.
Qed.

Lemma sortStrings_Sorted (l : list string) :
  Sorted (fun a b => (a <=? b) = true) (sortStrings l).
Proof.
  induction l as [|s l IH]; cbn; [constructor|]. by apply insertSorted_Sorted.
Qed.

Lemma sortStrings_Permutation (l : list string) : sortStrings l ≡ₚ l.
Proof.
  induction l as [|s l IH]; cbn; [done|].
  by rewrite insertSorted_Permutation, IH.
Qed.

(** X12.  [generateImports] gives one package for every package of the
    module, in order, with the path and the platform lists copied; its
    symbols are the given and the derived symbols together -- none dropped,
    a symbol in both lists kept twice -- in ascending order. *)
Theorem generateImports_sorted (m : report.Module_) :
  length (generateImports m) = length (report.Packages m)
  /\ forall j p,
      report.Packages m !! j = Some p ->
      exists imp,
        generateImports m !! j = Some imp
        /\ osv.Path imp = report.Package' p
        /\ osv.GOOS imp = report.GOOS p
        /\ osv.GOARCH imp = report.GOARCH p
        /\ Sorted (fun a b => (a <=? b) = true) (osv.Symbols imp)
        /\ osv.Symbols imp ≡ₚ report.Symbols p ++ report.DerivedSymbols p.
Proof.
  unfold generateImports.
  rewrite (fold_left_snoc
             (fun p => {| osv.Path := report.Package' p;
                          osv.GOOS := report.GOOS p;
                          osv.GOARCH := report.GOARCH p;
                          osv.Symbols :=
                            sortStrings (([] ++ report.Symbols p)
                                         ++ report.DerivedSymbols p) |})).
  cbn [app]. split; [by rewrite length_map|].
  intros j p Hj. eexists. split; [by rewrite list_lookup_fmap, Hj|]. cbn.
  split; [done|]. split; [done|]. split; [done|].
  split; [apply sortStrings_Sorted|apply sortStrings_Permutation].
Qed.

(** ** Schema Converter: the fields copied, the CVE ID *)

Lemma fold_left_concat {A} (f : A -> string) (l : list A) :
  forall acc,
    fold_left (fun acc x => acc +:+ f x) l acc = acc +:+ String.concat "" (map f l).
Proof.
  induction l as [|x l IH]; intros acc; cbn [fold_left map].
  - cbn. by rewrite append_empty_r.
  - rewrite IH. destruct l as [|y l]; cbn [map String.concat].
    + by rewrite !append_empty_r.
    + change ("" +:+ ?s) with s. by rewrite append_assoc.
Qed.

(** X14.  Both converters record the CVE ID exactly once, and decide where
    by the module path they have resolved: as the report's own CVE metadata,
    with the CWE still to fill in, for a module of the standard library, of
    the toolchain or of [golang.org/x]; as the only entry of the list [CVEs]
    otherwise. *)
Theorem converters_record_cve
    (ModulePath : string) (Contains IsStd IsCmd IsX : string -> bool)
    (referenceFromUrl : string -> report.Reference) (id modulePath : string) :
  let resolved := resolvedModule ModulePath Contains modulePath in
  let recorded (cveID : string) (r : report.Report) :=
    if IsStd resolved || IsCmd resolved || IsX resolved
    then report.CVEMetadata r = Some {| report.ID' := cveID; report.CWE := "TODO" |}
         /\ report.CVEs r = []
    else report.CVEMetadata r = None /\ report.CVEs r = [cveID] in
  (forall c,
      recorded (cveschema.Metadata_ID c)
        (cveToReport ModulePath Contains IsStd IsCmd IsX referenceFromUrl c id modulePath))
  /\ (forall c,
      recorded (cveschema5.Metadata_ID c)
        (cve5ToReport ModulePath Contains IsStd IsCmd IsX referenceFromUrl c id modulePath)).
Proof.
  cbv zeta. split; intros c.
  - unfold cveToReport. rewrite resolve_paths. unfold addCVE. cbn.
    by destruct (_ || _).
  - unfold cve5ToReport. rewrite resolve_paths. unfold addCVE. cbn.
    by destruct (_ || _).
Qed.

(** X15.  What both converters copy from the record: the report gets the ID
    given, one reference for every reference of the record and one credit
    for every credit, in order; the description is the descriptions of the
    record, each followed by a line feed -- in the v5 converter those marked
    as English only. *)
Theorem converters_copy_fields
    (ModulePath : string) (Contains IsStd IsCmd IsX : string -> bool)
    (referenceFromUrl : string -> report.Reference) (id modulePath : string) :
  (forall c,
      let r := cveToReport ModulePath Contains IsStd IsCmd IsX referenceFromUrl
                           c id modulePath in
      report.ID r = id
      /\ report.Description r
         = String.concat "" (map (fun d => cveschema.Value d +:+ LF)
                                 (cveschema.Description_Data c))
      /\ report.References r
         = map (fun ref => referenceFromUrl (cveschema.URL ref))
               (cveschema.References_Data c)
      /\ report.Credits r
         = map cveschema.Value (cveschema.Credit_Data_Description_Data c))
  /\ (forall c,
      let cna := cveschema5.Containers_CNAContainer c in
      let r := cve5ToReport ModulePath Contains IsStd IsCmd IsX referenceFromUrl
                            c id modulePath in
      report.ID r = id
      /\ report.Description r
         = String.concat ""
             (map (fun d => cveschema5.Value d +:+ LF)
                  (filter (fun d => cveschema5.Lang d = "en")
                          (cveschema5.Descriptions cna)))
      /\ report.References r
         = map (fun ref => referenceFromUrl (cveschema5.URL ref))
               (cveschema5.References cna)
      /\ report.Credits r = map cveschema5.CreditValue (cveschema5.Credits cna)).
Proof.
  split; intros c; cbv zeta.
  - unfold cveToReport. rewrite resolve_paths. unfold addCVE.
    rewrite (fold_left_concat (fun d => cveschema.Value d +:+ LF)).
    rewrite (fold_left_snoc (fun r => referenceFromUrl (cveschema.URL r))).
    rewrite (fold_left_snoc cveschema.Value).
    by destruct (_ || _).
  - unfold cve5ToReport. rewrite resolve_paths. unfold addCVE.
    rewrite (fold_left_snoc cveschema5.CreditValue).
    rewrite (fold_left_snoc (fun r => referenceFromUrl (cveschema5.URL r))).
    assert (Hdesc : forall l acc,
      fold_left (fun description d =>
                   if cveschema5.Lang d =? "en"
                   then description +:+ (cveschema5.Value d +:+ LF)
                   else description) l acc
      = fold_left (fun acc d => acc +:+ (cveschema5.Value d +:+ LF))
                  (filter (fun d => cveschema5.Lang d = "en") l) acc).
    { induction l as [|d l IH]; intros acc; [done|]. cbn [fold_left].
      destruct (String.eqb_spec (cveschema5.Lang d) "en") as [E|N].
      - rewrite filter_cons_True by done. apply IH.
      - rewrite filter_cons_False by done. apply IH. }
    rewrite Hdesc, (fold_left_concat (fun d => cveschema5.Value d +:+ LF)).
    by destruct (_ || _).
Qed.

(** ** The entry of a report *)

(** X19.  [GenerateOSVEntry] gives the entry the ID and the time of
    modification it is passed and the schema version 1.3.1, one affected
    block for every module of the report, one reference for every reference,
    with its type and URL, and one credit for every credit, all in the order
    of the report; the entry is marked as withdrawn exactly when the report
    is. *)
Theorem GenerateOSVEntry_copies
    (RangeTypeSemver GoStdModulePath GoCmdModulePath GoEcosystem : string)
    (ModulePath ToolchainModulePath : string) (Time : Type)
    (Published : report.Report -> Time) (Withdrawn : report.Report -> option Time)
    (GetGoAdvisoryLink : string -> string) (GetAliases : report.Report -> list string)
    (runesOf : string -> list rune)
    (r : report.Report) (goID : string) (lastModified : Time) :
  let e := GenerateOSVEntry RangeTypeSemver GoStdModulePath GoCmdModulePath GoEcosystem
                            ModulePath ToolchainModulePath Time Published Withdrawn
                            GetGoAdvisoryLink GetAliases runesOf r goID lastModified in
  osv.ID e = goID
  /\ osv.Modified e = lastModified
  /\ osv.SchemaVersion e = "1.3.1"
  /\ osv.Withdrawn e = Withdrawn r
  /\ osv.Affected' e
     = map (generateAffected RangeTypeSemver GoStdModulePath GoCmdModulePath GoEcosystem
                             ModulePath ToolchainModulePath)
           (report.Modules r)
  /\ osv.References e
     = map (fun ref => {| osv.RefType := report.Type_ ref; osv.RefURL := report.URL ref |})
           (report.References r)
  /\ osv.Credits e = map (fun credit => {| osv.Name := credit |}) (report.Credits r).
Proof.
  cbv zeta. unfold GenerateOSVEntry. cbn.
  rewrite (fold_left_snoc (fun credit => {| osv.Name := credit |})).
  rewrite (fold_left_snoc
             (generateAffected RangeTypeSemver GoStdModulePath GoCmdModulePath
                               GoEcosystem ModulePath ToolchainModulePath)).
  rewrite (fold_left_snoc
             (fun ref => {| osv.RefType := report.Type_ ref;
                            osv.RefURL := report.URL ref |})).
  by destruct (Withdrawn r).
Qed.

Lemma ModulesForEntry_dom (affected : list osv.Affected) :
  forall (mods : gmap string bool) (x : string),
    x ∈ dom (fold_left (fun mods a => <[osv.ModPath (osv.Module' a) := true]> mods)
                       affected mods)
    <-> x ∈ dom mods \/ exists a, a ∈ affected /\ osv.ModPath (osv.Module' a) = x.
Proof.
  induction affected as [|a affected IH]; intros mods x; cbn.
  - split; [by left|]. intros [?|(a & Hin & _)]; [done|]. by apply elem_of_nil in Hin.
  - rewrite IH, dom_insert, elem_of_union, elem_of_singleton. split.
    + intros [[->|?]|(a' & Hin & <-)].
      * right. exists a. split; [apply list_elem_of_here|done].
      * by left.
      * right. exists a'. split; [by apply list_elem_of_further|done].
    + intros [?|(a' & Hin & <-)]; [by left; right|].
      apply elem_of_cons in Hin as [->|Hin]; [by left; left|].
      right. by exists a'.
Qed.

Lemma ModulesForEntry_elem_of (Time : Type) (Keys : gmap string bool -> list string)
    (entry : osv.Entry Time) :
  keysOf Keys ->
  NoDup (ModulesForEntry Time Keys entry)
  /\ forall x,
      x ∈ ModulesForEntry Time Keys entry
      <-> exists a, a ∈ osv.Affected' entry /\ osv.ModPath (osv.Module' a) = x.
Proof.
  intros HKeys. unfold ModulesForEntry.
  set (mods := fold_left _ _ _).
  split.
  - rewrite (HKeys mods). apply NoDup_fst_map_to_list.
  - intros x. rewrite (HKeys mods).
    transitivity (x ∈ dom mods).
    + rewrite elem_of_dom. split.
      * intros ([k v] & Hk & Hin)%list_elem_of_fmap. cbn in Hk. subst k.
        apply elem_of_map_to_list in Hin. by exists v.
      * intros [v Hv]. apply list_elem_of_fmap. exists (x, v).
        split; [done|]. by apply elem_of_map_to_list.
    + subst mods. rewrite ModulesForEntry_dom, dom_empty. split.
      * intros [Hin|?]; [|done]. by apply elem_of_empty in Hin.
      * intros ?. by right.
Qed.

(** X13.  Whatever the order in which [maps.Keys] returns the keys,
    [ModulesForEntry] lists every module path of the entry's affected
    blocks, each once, and nothing else. *)
Theorem ModulesForEntry_paths (Time : Type) (Keys : gmap string bool -> list string)
    (entry : osv.Entry Time) :
  keysOf Keys ->
  NoDup (ModulesForEntry Time Keys entry)
  /\ forall x,
      x ∈ ModulesForEntry Time Keys entry
      <-> exists a, a ∈ osv.Affected' entry /\ osv.ModPath (osv.Module' a) = x.
Proof. apply ModulesForEntry_elem_of. Qed.

(** X20.  The modules of the entry generated for a report are the public
    paths of the report's modules -- the public identifier for a sentinel,
    the path itself otherwise -- each once; the public identifiers being no
    sentinels, no sentinel is among them. *)
Theorem GenerateOSVEntry_modules
    (RangeTypeSemver GoStdModulePath GoCmdModulePath GoEcosystem : string)
    (ModulePath ToolchainModulePath : string) (Time : Type)
    (Published : report.Report -> Time) (Withdrawn : report.Report -> option Time)
    (GetGoAdvisoryLink : string -> string) (GetAliases : report.Report -> list string)
    (runesOf : string -> list rune) (Keys : gmap string bool -> list string)
    (r : report.Report) (goID : string) (lastModified : Time)
    (HKeys : keysOf Keys)
    (Hstd : GoStdModulePath <> ModulePath /\ GoStdModulePath <> ToolchainModulePath)
    (Hcmd : GoCmdModulePath <> ModulePath /\ GoCmdModulePath <> ToolchainModulePath) :
  let e := GenerateOSVEntry RangeTypeSemver GoStdModulePath GoCmdModulePath GoEcosystem
                            ModulePath ToolchainModulePath Time Published Withdrawn
                            GetGoAdvisoryLink GetAliases runesOf r goID lastModified in
  let modules := ModulesForEntry Time Keys e in
  NoDup modules
  /\ (forall x,
        x ∈ modules
        <-> exists m, m ∈ report.Modules r
                      /\ publicPath GoStdModulePath GoCmdModulePath ModulePath
                                    ToolchainModulePath m = x)
  /\ (ModulePath ∉ modules)
  /\ (ToolchainModulePath ∉ modules).
Proof.
  intros e modules.
  destruct (ModulesForEntry_elem_of Time Keys e HKeys) as [Hnodup Hin].
  assert (Haffected : osv.Affected' e
    = map (generateAffected RangeTypeSemver GoStdModulePath GoCmdModulePath GoEcosystem
                            ModulePath ToolchainModulePath)
          (report.Modules r)).
  { subst e. unfold GenerateOSVEntry. cbn.
    by rewrite (fold_left_snoc
                  (generateAffected RangeTypeSemver GoStdModulePath GoCmdModulePath
                                    GoEcosystem ModulePath ToolchainModulePath)). }
  assert (Hpath : forall m,
    osv.ModPath (osv.Module' (generateAffected RangeTypeSemver GoStdModulePath
                                GoCmdModulePath GoEcosystem ModulePath
                                ToolchainModulePath m))
    = publicPath GoStdModulePath GoCmdModulePath ModulePath ToolchainModulePath m).
  { intros m. unfold publicPath. cbn.
    destruct (String.eqb_spec (report.Module' m) ModulePath);
      [by rewrite decide_True|rewrite decide_False by done].
    destruct (String.eqb_spec (report.Module' m) ToolchainModulePath);
      [by rewrite decide_True|by rewrite decide_False]. }
  assert (Hmodules : forall x,
    x ∈ modules
    <-> exists m, m ∈ report.Modules r
                  /\ publicPath GoStdModulePath GoCmdModulePath ModulePath
                                ToolchainModulePath m = x).
  { intros x. subst modules. rewrite Hin, Haffected. split.
    - intros (a & (m & -> & Hm)%list_elem_of_fmap & <-). exists m. by rewrite Hpath.
    - intros (m & Hm & <-). eexists. split; [by apply list_elem_of_fmap_2|].
      by rewrite Hpath. }
  split; [done|]. split; [done|].
  destruct Hstd as [Hs1 Hs2], Hcmd as [Hc1 Hc2].
  split; intros (m & _ & Hm)%Hmodules; unfold publicPath in Hm;
    repeat case_decide; congruence.
Qed.

(** ** The entries on disk *)

(** X21.  [ReadOSV] returns the error of [os.ReadFile], or else that of
    [json.Unmarshal], as it is -- the call of [derrors.Wrap] at its head
    comes before there is an error and adds nothing to it -- and with an
    error always the empty entry, whatever [json.Unmarshal] had set; without
    an error it returns the entry read.  A file that cannot be read is not
    decoded. *)
Theorem ReadOSV_errors (Time World Content : Type)
    (ReadFile : string -> World -> (Content * option string) * World)
    (Unmarshal : forall T : Type, Content -> T -> T * option string)
    (Wrap : option string -> string -> list string -> option string)
    (zero : osv.Entry Time) (filename : string) (w : World) :
  let content := (ReadFile filename w).1.1 in
  let w' := (ReadFile filename w).2 in
  ReadOSV Time World Content ReadFile Unmarshal Wrap zero filename w
  = match (ReadFile filename w).1.2 with
    | Some err => ((zero, Some err), w')
    | None =>
        match Unmarshal (osv.Entry Time) content zero with
        | (_, Some err) => ((zero, Some err), w')
        | (entry, None) => ((entry, None), w')
        end
    end.
Proof.
  cbv zeta. unfold ReadOSV, UnmarshalFromFile.
  destruct (ReadFile filename w) as [[content [err|]] w']; cbn [fst snd]; [done|].
  by destruct (Unmarshal (osv.Entry Time) content zero) as [entry [err|]].
Qed.

(** ** Text normalisation *)

(** C4.  Normalising once leaves a single newline, which normalising again
    replaces: [trimWhitespace] is not idempotent on [threeLines]. *)
Theorem trimWhitespace_not_idempotent :
  trimWhitespace threeLines = runes "a b" ++ [NL] ++ runes "c"
  /\ trimWhitespace (trimWhitespace threeLines) = runes "a b c"
  /\ trimWhitespace (trimWhitespace threeLines) <> trimWhitespace threeLines.
Proof. split; [|split]; by vm_compute. Qed.
(** *** [strings.TrimSpace] *)

Lemma TrimLeftSpace_head (s : list rune) :
  match TrimLeftSpace s with c :: _ => isSpace c = false | [] => True end.
Proof.
  induction s as [|c s IH]; cbn [TrimLeftSpace]; [done|].
  by destruct (isSpace c) eqn:Hc.
Qed.

Lemma TrimLeftSpace_suffix (s : list rune) :
  exists pre, s = pre ++ TrimLeftSpace s.
Proof.
  induction s as [|c s [pre IH]]; cbn [TrimLeftSpace]; [by exists []|].
  destruct (isSpace c).
  - exists (c :: pre). cbn. by rewrite <- IH.
  - by exists [].
Qed.

Lemma TrimLeftSpace_id (s : list rune) :
  match s with c :: _ => isSpace c = false | [] => True end ->
  TrimLeftSpace s = s.
Proof. destruct s as [|c s]; cbn; [done|]. by intros ->. Qed.

Lemma TrimSpace_trimmed (s : list rune) : trimmed (TrimSpace s).
Proof.
  unfold trimmed, TrimSpace. rewrite rev_involutive.
  split; [|apply TrimLeftSpace_head].
  pose proof (TrimLeftSpace_head s) as Hhead.
  destruct (TrimLeftSpace_suffix (rev (TrimLeftSpace s))) as [pre Hpre].
  apply (f_equal (@rev rune)) in Hpre. rewrite rev_involutive, rev_app_distr in Hpre.
  rewrite Hpre in Hhead.
  by destruct (rev (TrimLeftSpace (rev (TrimLeftSpace s)))).
Qed.

Lemma TrimSpace_id (s : list rune) : trimmed s -> TrimSpace s = s.
Proof.
  intros [Hhead Hlast]. unfold TrimSpace.
  rewrite (TrimLeftSpace_id s Hhead), (TrimLeftSpace_id (rev s) Hlast).
  apply rev_involutive.
Qed.

Lemma elem_of_TrimSpace (s : list rune) (x : rune) : x ∈ TrimSpace s -> x ∈ s.
Proof.
  unfold TrimSpace. intros Hin.
  apply list_elem_of_In, in_rev, list_elem_of_In in Hin.
  destruct (TrimLeftSpace_suffix (rev (TrimLeftSpace s))) as [pre1 H1].
  assert (Hin1 : x ∈ rev (TrimLeftSpace s))
    by (rewrite H1; apply elem_of_app; by right).
  apply list_elem_of_In, in_rev, list_elem_of_In in Hin1.
  destruct (TrimLeftSpace_suffix s) as [pre2 H2].
  rewrite H2. apply elem_of_app. by right.
Qed.

(** Squeezing runs of white space keeps a text trimmed. *)
Lemma squeeze_trimmed (p : rune -> bool) (t s : list rune) :
  (forall c, p c = true -> isSpace c = true) ->
  trimmed s -> trimmed (squeeze p t s).
Proof.
  intros Hp [Hhead Hlast].
  assert (Hnot : forall c, isSpace c = false -> p c = false).
  { intros c Hc. destruct (p c) eqn:Hpc; [|done]. apply Hp in Hpc. congruence. }
  unfold trimmed, squeeze. split.
  - destruct s as [|c s]; [done|]. cbn [squeezeFrom]. by rewrite (Hnot c Hhead).
  - destruct (rev s) as [|d r] eqn:Hrev; [|].
    + apply (f_equal (@rev rune)) in Hrev. rewrite rev_involutive in Hrev.
      by rewrite Hrev.
    + apply (f_equal (@rev rune)) in Hrev. rewrite rev_involutive in Hrev.
      cbn [rev] in Hrev. rewrite Hrev, squeezeFrom_snoc by (by apply Hnot).
      by rewrite rev_app_distr.
Qed.

(** *** [removeNewlines] *)

(** X16.  [removeNewlines] trims the text and puts one space for every run
    of line feeds. What it returns has no line feed and no white space at
    either end, and is left as it is by a second pass. *)
Theorem removeNewlines_squeezes (s : list rune) :
  removeNewlines s = squeeze isNewline [SP] (TrimSpace s)
  /\ (NL ∉ removeNewlines s)
  /\ trimmed (removeNewlines s)
  /\ removeNewlines (removeNewlines s) = removeNewlines s.
Proof.
  assert (Heq : forall l,
    removeNewlines l = squeeze isNewline [SP] (TrimSpace l)).
  { intros l. unfold removeNewlines. apply ReplaceAllString_plus_class. }
  assert (Hfree : Forall (fun c => isNewline c = false) (removeNewlines s)).
  { rewrite Heq. apply squeezeFrom_Forall; [by repeat constructor|].
    by apply Forall_forall. }
  assert (Htrim : trimmed (removeNewlines s)).
  { rewrite Heq. apply squeeze_trimmed; [|apply TrimSpace_trimmed].
    intros c Hc. apply N.eqb_eq in Hc. by subst c. }
  split; [apply Heq|]. split; [|split; [done|]].
  - intros Hin. by apply (proj1 (Forall_forall _ _) Hfree) in Hin.
  - rewrite (Heq (removeNewlines s)), (TrimSpace_id _ Htrim).
    by apply squeezeFrom_none.
Qed.

(** *** [trimWhitespace]: tabs and runs of spaces *)

Lemma trimWhitespace_last (s : list rune) :
  exists s', trimWhitespace s = squeeze isBlank [SP] s'.
Proof. eexists. unfold trimWhitespace. cbv zeta. apply ReplaceAllString_plus_class. Qed.

Lemma isBlank_spec (c : rune) : isBlank c = true <-> c = SP \/ c = TAB.
Proof.
  unfold isBlank. rewrite bool_decide_eq_true, elem_of_cons, list_elem_of_singleton.
  done.
Qed.

Lemma squeezeFrom_blank (s : list rune) :
  forall b,
    let o := squeezeFrom isBlank [SP] b s in
    (b = true -> match o with c :: _ => c <> SP | [] => True end)
    /\ forall i, o !! i = Some SP -> o !! S i <> Some SP.
Proof.
  induction s as [|c s IH]; intros b; cbn [squeezeFrom]; [done|].
  destruct (isBlank c) eqn:Hc.
  - destruct (IH true) as [Hhead Hrest]. destruct b; cbn [app].
    + done.
    + split; [done|]. intros [|i]; cbn; [|apply Hrest].
      intros _. specialize (Hhead eq_refl).
      destruct (squeezeFrom isBlank [SP] true s); cbn; congruence.
  - destruct (IH false) as [_ Hrest].
    assert (Hne : c <> SP).
    { intros ->. by rewrite (proj2 (isBlank_spec SP)) in Hc by (by left). }
    split; [done|]. intros [|i]; cbn; [congruence|apply Hrest].
Qed.

(** X17.  Whatever the description, what [trimWhitespace] returns has no tab
    in it and no two spaces in a row. *)
Theorem trimWhitespace_blanks (s : list rune) :
  (TAB ∉ trimWhitespace s)
  /\ forall i, trimWhitespace s !! i = Some SP -> trimWhitespace s !! S i <> Some SP.
Proof.
  destruct (trimWhitespace_last s) as [s' ->]. split.
  - assert (H : Forall (fun c => c <> TAB) (squeeze isBlank [SP] s')).
    { apply squeezeFrom_Forall; [by repeat constructor|].
      apply Forall_forall. intros c _ Hc ->.
      by rewrite (proj2 (isBlank_spec TAB)) in Hc by (by right). }
    intros Hin. by apply (proj1 (Forall_forall _ _) H) in Hin.
  - apply (squeezeFrom_blank s' false).
Qed.

(** *** [trimWhitespace] on a description of one line *)

Lemma matches_newline (i : nat) (w cs : list rune) :
  matches newline i w cs -> w = [NL].
Proof.
  intros H. inversion H as [|q c ? ? Hq| | | | | | | |]; subst.
  apply N.eqb_eq in Hq. by subst c.
Qed.

Lemma matches_Concat_newline (r1 r2 : Regexp rune) (i : nat) (w cs : list rune) :
  matches (Concat r1 (Concat newline r2)) i w cs -> NL ∈ w.
Proof.
  intros H. inversion H as [| |? ? ? w1 w23 ? H1 H23| | | | | | |]; subst.
  inversion H23 as [| |? ? ? w2 w3 ? H2 H3| | | | | | |]; subst.
  apply matches_newline in H2 as ->.
  apply elem_of_app. right. apply list_elem_of_here.
Qed.

Lemma trimWhitespace_one_line (s : list rune) :
  NL ∉ s -> trimWhitespace s = squeeze isBlank [SP] (TrimSpace s).
Proof.
  intros Hs.
  assert (Hfree : NL ∉ TrimSpace s) by (intros Hin; by apply elem_of_TrimSpace in Hin).
  unfold trimWhitespace. cbv zeta.
  change (Plus blank) with (Plus (CharClass isBlank)).
  rewrite ReplaceAllString_plus_class.
  rewrite (ReplaceAllString_no_match (Concat _ (Concat newline _)) _ (TrimSpace s)).
  - rewrite ReplaceAllString_no_match; [done|].
    destruct (find _ 0 (TrimSpace s)) as [[a m]|] eqn:Hfind; [|done]. exfalso.
    apply find_matches in Hfind as (pre & w & post & Heq & Hm).
    apply matches_Concat_newline in Hm. apply Hfree. rewrite Heq.
    apply elem_of_app. right. apply elem_of_app. by left.
  - destruct (find _ 0 (TrimSpace s)) as [[a m]|] eqn:Hfind; [|done]. exfalso.
    apply find_matches in Hfind as (pre & w & post & Heq & Hm).
    apply matches_Concat_newline in Hm. apply Hfree. rewrite Heq.
    apply elem_of_app. right. apply elem_of_app. by left.
Qed.

(** X18.  For a description with no line feed, [trimWhitespace] trims it and
    puts one space for every run of spaces and tabs; what it returns has no
    line feed either, and a second pass leaves it as it is. *)
Theorem trimWhitespace_single_line (s : list rune) :
  NL ∉ s ->
  trimWhitespace s = squeeze isBlank [SP] (TrimSpace s)
  /\ (NL ∉ trimWhitespace s)
  /\ trimWhitespace (trimWhitespace s) = trimWhitespace s.
Proof.
  intros Hs.
  assert (Hfree : NL ∉ TrimSpace s) by (intros Hin; by apply elem_of_TrimSpace in Hin).
  assert (Hout : NL ∉ trimWhitespace s).
  { rewrite trimWhitespace_one_line by done.
    assert (H : Forall (fun c => c <> NL) (squeeze isBlank [SP] (TrimSpace s))).
    { apply squeezeFrom_Forall; [by repeat constructor|].
      apply Forall_forall. by intros c Hin _ ->. }
    intros Hin. by apply (proj1 (Forall_forall _ _) H) in Hin. }
  split; [by apply trimWhitespace_one_line|]. split; [done|].
  rewrite (trimWhitespace_one_line (trimWhitespace s)) by done.
  rewrite (trimWhitespace_one_line s) by done.
  rewrite TrimSpace_id.
  - apply (squeezeFrom_squeezeFrom isBlank SP). by apply isBlank_spec; left.
  - apply squeeze_trimmed; [|apply TrimSpace_trimmed].
    intros c [-> | ->]%isBlank_spec; by vm_compute.
Qed.

(** ** Lists *)

Lemma filter_not_in_nil (l : list string) : filter (fun d => d ∉ ([] : list string)) l = l.
Proof.
  induction l as [|d l IH]; [done|].
  rewrite filter_cons_True; [by rewrite IH|]. apply not_elem_of_nil.
Qed.

Lemma filter_in_nil (l : list string) : filter (fun d => d ∈ ([] : list string)) l = [].
Proof.
  induction l as [|d l IH]; [done|].
  rewrite filter_cons_False; [done|]. apply not_elem_of_nil.
Qed.


(** ** The fix pass *)

Section Run.
Context {World : Type}.
Implicit Types (s : State World) (P : Event -> Prop).

Lemma bind_eq {A B} (c : M World A) (k : A -> M World B) s :
  bind c k s = k (c s).1 (c s).2.
Proof. unfold bind. by destruct (c s). Qed.

Lemma extern_eq {A} (f : World -> A * World) s :
  extern f s
  = ((f (world s)).1,
     {| world := (f (world s)).2; trace := trace s; rep := rep s; fixed := fixed s |}).
Proof. unfold extern. by destruct (f (world s)). Qed.

(** *** Relations every step of a run preserves *)

Section Preserves.
Variable R : State World -> State World -> Prop.
Hypothesis R_refl : forall s, R s s.
Hypothesis R_trans : forall s1 s2 s3, R s1 s2 -> R s2 s3 -> R s1 s3.

Lemma preserves_ret {A} (a : A) : preserves R (ret (World := World) a).
Proof. intros s. apply R_refl. Qed.

Lemma preserves_bind {A B} (c : M World A) (k : A -> M World B) :
  preserves R c -> (forall a, preserves R (k a)) -> preserves R (bind c k).
Proof.
  intros Hc Hk s. rewrite bind_eq. eapply R_trans; [apply Hc|apply Hk].
Qed.

Lemma preserves_when (b : bool) (c : M World unit) :
  preserves R c -> preserves R (when b c).
Proof. intros Hc. destruct b; [done|]. apply preserves_ret. Qed.

Lemma preserves_getRep : preserves R (getRep (World := World)).
Proof. intros s. apply R_refl. Qed.

Lemma preserves_getFixed : preserves R (getFixed (World := World)).
Proof. intros s. apply R_refl. Qed.

Lemma preserves_forRange {A} (body : nat -> A -> M World Flow) (l : list A) :
  forall i,
    (forall k x, l !! k = Some x -> preserves R (body (i + k) x)) ->
    preserves R (forRange body i l).
Proof.
  induction l as [|x l IH]; intros i Hbody; [apply preserves_ret|].
  cbn [forRange]. apply preserves_bind.
  - specialize (Hbody 0 x eq_refl). by rewrite Nat.add_0_r in Hbody.
  - intros [|err]; [|apply preserves_ret].
    apply IH. intros k y Hk. specialize (Hbody (S k) y Hk).
    by rewrite Nat.add_succ_r in Hbody.
Qed.

End Preserves.

(** *** The trace grows, by events of one kind *)

Lemma emitting_refl P s : emitting P s s.
Proof. exists []. by rewrite app_nil_r. Qed.

Lemma emitting_trans P s1 s2 s3 :
  emitting P s1 s2 -> emitting P s2 s3 -> emitting P s1 s3.
Proof.
  intros (e1 & H1 & F1) (e2 & H2 & F2). exists (e1 ++ e2).
  split; [by rewrite H2, H1, app_assoc|by apply Forall_app].
Qed.

Lemma emitting_same_trace P s s' : trace s' = trace s -> emitting P s s'.
Proof. intros H. exists []. by rewrite app_nil_r. Qed.

Lemma emitting_emit P (e : Event) : P e -> preserves (emitting P) (emit (World := World) e).
Proof. intros He s. exists [e]. split; [done|by constructor]. Qed.

Lemma emitting_logf P level format args :
  P (EvLog level format args) ->
  preserves (emitting P) (logf (World := World) level format args).
Proof. apply emitting_emit. Qed.

Lemma emitting_extern P {A} (f : World -> A * World) : preserves (emitting P) (extern f).
Proof. intros s. rewrite extern_eq. by apply emitting_same_trace. Qed.

Lemma emitting_setRep P r : preserves (emitting P) (setRep (World := World) r).
Proof. intros s. by apply emitting_same_trace. Qed.

Lemma emitting_modifyRep P f : preserves (emitting P) (modifyRep (World := World) f).
Proof. intros s. by apply emitting_same_trace. Qed.

Lemma emitting_setFixed P b : preserves (emitting P) (setFixed (World := World) b).
Proof. intros s. by apply emitting_same_trace. Qed.

(** *** Module [i] of the report stays as it is *)

Lemma keepingModule_refl i s : keepingModule i s s.
Proof. done. Qed.

Lemma keepingModule_trans i s1 s2 s3 :
  keepingModule i s1 s2 -> keepingModule i s2 s3 -> keepingModule i s1 s3.
Proof. unfold keepingModule. congruence. Qed.

Lemma keepingModule_emit i (e : Event) :
  preserves (keepingModule i) (emit (World := World) e).
Proof. by intros s. Qed.

Lemma keepingModule_logf i level format args :
  preserves (keepingModule i) (logf (World := World) level format args).
Proof. by intros s. Qed.

Lemma keepingModule_extern i {A} (f : World -> A * World) :
  preserves (keepingModule i) (extern f).
Proof. intros s. by rewrite extern_eq. Qed.

Lemma keepingModule_setFixed i b : preserves (keepingModule i) (setFixed (World := World) b).
Proof. by intros s. Qed.

Lemma keepingModule_setDerivedSymbols i i' j syms :
  i' <> i ->
  preserves (keepingModule i) (modifyRep (World := World) (setDerivedSymbols i' j syms)).
Proof.
  intros Hne s. unfold keepingModule, setDerivedSymbols. cbn.
  by apply list_lookup_alter_ne.
Qed.

End Run.

(** Breaks a run into its steps, for a relation [emitting P]: what is left
    is that the events of each [emit] satisfy [P]. *)
(** Proves that an event is not of a kind. *)
Ltac kind_solve :=
  cbn; unfold not; intros; first [assumption | contradiction | congruence].

(** A run is broken into its steps; [side] proves that the relation is
    reflexive and transitive. *)
Ltac preserves_struct side :=
  repeat match goal with
    | |- preserves _ (ret _) => apply preserves_ret; side
    | |- preserves _ getRep => apply preserves_getRep; side
    | |- preserves _ getFixed => apply preserves_getFixed; side
    | |- preserves _ (when _ _) => apply preserves_when; [side|]
    | |- preserves _ (bind _ _) => apply preserves_bind; [side| |intros ?]
    | |- preserves _ (match ?x with _ => _ end) => destruct x
    end.

Ltac emitting_side :=
  first [exact (emitting_refl _) | exact (emitting_trans _)].

(** What is left is that the events of each [emit] satisfy [P]. *)
Ltac emitting_steps :=
  preserves_struct emitting_side;
  try match goal with
    | |- preserves _ (extern _) => apply emitting_extern
    | |- preserves _ (setRep _) => apply emitting_setRep
    | |- preserves _ (modifyRep _) => apply emitting_modifyRep
    | |- preserves _ (setFixed _) => apply emitting_setFixed
    | |- preserves _ (logf _ _ _) => apply emitting_logf
    | |- preserves _ (emit _) => apply emitting_emit
    end.

Ltac keeping_side :=
  first [exact (keepingModule_refl _) | exact (keepingModule_trans _)].

Ltac keeping_steps :=
  preserves_struct keeping_side;
  try match goal with
    | |- preserves _ (extern _) => apply keepingModule_extern
    | |- preserves _ (setFixed _) => apply keepingModule_setFixed
    | |- preserves _ (logf _ _ _) => apply keepingModule_logf
    | |- preserves _ (emit _) => apply keepingModule_emit
    end.

Section FixFacts.
Context (force skipAlias skipSymbols : bool) {World : Type}
  (runtime_Version RangeTypeSemver : string)
  (AffectsSemver : list osv.Range -> string -> bool * option error)
  (IsExcluded : report.Report -> bool)
  (IsFirstParty : report.Module_ -> bool)
  (Lint : report.Report -> World -> list string * World)
  (Fix : report.Report -> World -> report.Report * World)
  (LintAsNotes : report.Report -> World -> (report.Report * bool) * World)
  (NoteTypeFix : string)
  (AddNote : report.Report -> string -> string -> list Arg -> report.Report)
  (addMissingAliases : report.Report -> World -> (report.Report * Z) * World)
  (write writeDerived : report.Report -> World -> option error * World)
  (Exported :
     report.Module_ -> report.Package -> World -> (list string * option error) * World)
  (Head : string -> World -> (Response * option error) * World).

Implicit Types (s : State World) (P : Event -> Prop).

Local Set Default Proof Using "Type".

Local Abbreviation checkPackage' := (checkPackage World Exported).
Local Abbreviation checkModule' :=
  (checkModule World runtime_Version RangeTypeSemver AffectsSemver IsFirstParty Exported).
Local Abbreviation checkSymbols' :=
  (checkSymbols World runtime_Version RangeTypeSemver AffectsSemver IsExcluded
                IsFirstParty Exported).
Local Abbreviation checkRef' := (checkRef Head).
Local Abbreviation checkRefs' := (checkRefs Head).
Local Abbreviation fixErr' := (fixErr World NoteTypeFix AddNote).
Local Abbreviation lintAndFix' := (lintAndFix force World Lint Fix).
Local Abbreviation checkSymbolsStep' :=
  (checkSymbolsStep skipSymbols World runtime_Version RangeTypeSemver AffectsSemver
                    IsExcluded IsFirstParty NoteTypeFix AddNote Exported).
Local Abbreviation addMissingAliasesStep' :=
  (addMissingAliasesStep skipAlias World addMissingAliases).
Local Abbreviation checkRefsStep' := (checkRefsStep World NoteTypeFix AddNote Head).
Local Abbreviation finalLint' := (finalLint World Lint LintAsNotes).
Local Abbreviation fixer_fix' :=
  (fixer_fix force skipAlias skipSymbols World runtime_Version RangeTypeSemver
             AffectsSemver IsExcluded IsFirstParty Lint Fix LintAsNotes NoteTypeFix
             AddNote addMissingAliases Exported Head).
Local Abbreviation fixAndWriteAll' :=
  (fixAndWriteAll force skipAlias skipSymbols World runtime_Version RangeTypeSemver
                  AffectsSemver IsExcluded IsFirstParty Lint Fix LintAsNotes NoteTypeFix
                  AddNote addMissingAliases write writeDerived Exported Head).

(** *** Which events each function leaves *)

Lemma emitting_removeExcluded P id syms excluded :
  (forall level format args, level <> Err -> P (EvLog level format args)) ->
  preserves (emitting P) (removeExcluded (World := World) id syms excluded).
Proof.
  intros Hlog. unfold removeExcluded.
  destruct (length excluded =? 0)%nat; [emitting_steps|].
  generalize (@nil string). induction syms as [|d syms IH]; intros newSyms;
    cbn [removeExcludedLoop].
  - emitting_steps.
  - destruct (bool_decide (d ∈ excluded)); [|apply IH].
    emitting_steps; [by apply Hlog|apply IH].
Qed.

Lemma emitting_checkPackage P i m0 j p :
  (forall level format args, level <> Err -> P (EvLog level format args)) ->
  (forall m result, P (EvExported i j m p result)) ->
  preserves (emitting P) (checkPackage' i m0 j p).
Proof.
  intros Hlog Hexp. unfold checkPackage.
  emitting_steps; try (by apply Hlog); try apply Hexp.
  by apply emitting_removeExcluded.
Qed.

Lemma emitting_checkPackages P i m :
  (forall level format args, level <> Err -> P (EvLog level format args)) ->
  (forall j m' p result, P (EvExported i j m' p result)) ->
  preserves (emitting P) (forRange (checkPackage' i m) 0 (report.Packages m)).
Proof.
  intros Hlog Hexp. apply preserves_forRange; [emitting_side|emitting_side|].
  intros k p _. by apply emitting_checkPackage.
Qed.

Lemma emitting_checkModule P i m :
  (forall level format args, level <> Err -> P (EvLog level format args)) ->
  (forall j m' p result, P (EvExported i j m' p result)) ->
  preserves (emitting P) (checkModule' i m).
Proof.
  intros Hlog Hexp. pose proof (emitting_checkPackages P i m Hlog Hexp).
  unfold checkModule. emitting_steps; try (by apply Hlog); done.
Qed.

Lemma emitting_checkSymbols P :
  (forall level format args, level <> Err -> P (EvLog level format args)) ->
  (forall i j m p result, P (EvExported i j m p result)) ->
  preserves (emitting P) checkSymbols'.
Proof.
  intros Hlog Hexp. unfold checkSymbols.
  emitting_steps; try (by apply Hlog).
  apply preserves_forRange; [emitting_side|emitting_side|].
  intros k m _. apply emitting_checkModule; [done|]. intros. apply Hexp.
Qed.

Lemma emitting_fixErr P addNotes f v :
  (forall format args, P (EvLog Err format args)) ->
  preserves (emitting P) (fixErr' addNotes f v).
Proof. intros Herr. unfold fixErr. emitting_steps. apply Herr. Qed.

Lemma emitting_checkRefs P addNotes refs :
  (forall format args, P (EvLog Err format args)) ->
  (forall url result, P (EvHead url result)) ->
  preserves (emitting P) (checkRefs' refs (fixErr' addNotes)).
Proof.
  intros Herr Hhead. induction refs as [|ref refs IH]; cbn [checkRefs].
  - emitting_steps.
  - unfold checkRef.
    emitting_steps; try apply Hhead; try done; by apply emitting_fixErr.
Qed.

Lemma emitting_lintAndFix P :
  (forall r lints, P (EvLint r lints)) ->
  (forall r, P (EvFix r)) ->
  preserves (emitting P) lintAndFix'.
Proof. intros Hlint Hfix. unfold lintAndFix. emitting_steps; done. Qed.

Lemma emitting_checkSymbolsStep P addNotes :
  (forall level format args, level <> Err -> P (EvLog level format args)) ->
  (forall format args, P (EvLog Err format args)) ->
  (forall i j m p result, P (EvExported i j m p result)) ->
  preserves (emitting P) (checkSymbolsStep' addNotes).
Proof.
  intros Hlog Herr Hexp. unfold checkSymbolsStep.
  emitting_steps; try (by apply Hlog).
  - by apply emitting_checkSymbols.
  - by apply emitting_fixErr.
Qed.

Lemma emitting_addMissingAliasesStep P :
  (forall level format args, level <> Err -> P (EvLog level format args)) ->
  (forall r added, P (EvAddMissingAliases r added)) ->
  preserves (emitting P) addMissingAliasesStep'.
Proof.
  intros Hlog Halias. unfold addMissingAliasesStep.
  emitting_steps; try (by apply Hlog); done.
Qed.

Lemma emitting_checkRefsStep P addNotes :
  (forall level format args, level <> Err -> P (EvLog level format args)) ->
  (forall format args, P (EvLog Err format args)) ->
  (forall url result, P (EvHead url result)) ->
  preserves (emitting P) (checkRefsStep' addNotes).
Proof.
  intros Hlog Herr Hhead. unfold checkRefsStep.
  emitting_steps; try (by apply Hlog).
  by apply emitting_checkRefs.
Qed.

Lemma emitting_finalLint P addNotes :
  (forall level format args, level <> Err -> P (EvLog level format args)) ->
  (forall r lints, P (EvLint r lints)) ->
  (forall r found, P (EvLintAsNotes r found)) ->
  preserves (emitting P) (finalLint' addNotes).
Proof.
  intros Hlog Hlint Hnotes. unfold finalLint.
  emitting_steps; try (by apply Hlog); done.
Qed.

Lemma fixer_fix_emitting P addNotes :
  (forall e, ~ isWrite e -> P e) ->
  preserves (emitting P) (fixer_fix' addNotes).
Proof.
  intros HP. unfold fixer_fix. emitting_steps.
  - apply emitting_lintAndFix; intros; apply HP; kind_solve.
  - apply emitting_checkSymbolsStep; intros; apply HP; kind_solve.
  - apply emitting_addMissingAliasesStep; intros; apply HP; kind_solve.
  - apply emitting_checkRefsStep; intros; apply HP; kind_solve.
  - apply emitting_finalLint; intros; apply HP; kind_solve.
Qed.

(** *** Reference Validator *)

Lemma fixErr_eq addNotes f v s :
  fixErr' addNotes f v s
  = (tt, {| world := world s;
            trace := trace s ++ [EvLog Err (report.ID (rep s) +:+ ": " +:+ f) v];
            rep := if addNotes then AddNote (rep s) NoteTypeFix f v else rep s;
            fixed := false |}).
Proof. unfold fixErr. by destruct addNotes. Qed.

Lemma checkRef_eq addNotes ref s :
  let result := (Head (report.URL ref) (world s)).1 in
  exists s',
    checkRef' (fixErr' addNotes) ref s = (tt, s')
    /\ trace s' = trace s ++ refEvents ref (report.ID (rep s), result)
    /\ fixed s' = fixed s && negb (defect result)
    /\ (addNotes = false -> rep s' = rep s).
Proof.
  intros result. unfold checkRef. rewrite bind_eq, extern_eq. cbn [fst snd].
  fold result. rewrite bind_eq. cbn [emit fst snd].
  unfold refEvents, defect. cbn [fst snd].
  destruct result as [resp [err|]].
  - rewrite fixErr_eq. eexists. split; [done|]. cbn [trace fixed rep world].
    rewrite <- app_assoc, andb_false_r. split; [done|]. split; [done|]. by intros ->.
  - unfold StatusNotFound.
    destruct (Z.eqb_spec (StatusCode resp) 404) as [E|N].
    + rewrite bool_decide_eq_true_2 by done. cbn [when].
      rewrite fixErr_eq. eexists. split; [done|]. cbn [trace fixed rep world].
      rewrite <- app_assoc, andb_false_r. split; [done|]. split; [done|]. by intros ->.
    + rewrite bool_decide_eq_false_2 by done. cbn [when ret].
      eexists. split; [done|]. cbn [trace fixed rep world].
      by rewrite andb_true_r.
Qed.

Lemma checkRefs_run addNotes refs s :
  let s' := (checkRefs' refs (fixErr' addNotes) s).2 in
  exists outcomes,
    length outcomes = length refs
    /\ trace s' = trace s ++ concat (zip_with refEvents refs outcomes)
    /\ fixed s' = fixed s && forallb (fun o => negb (defect o.2)) outcomes
    /\ (addNotes = false -> rep s' = rep s).
Proof.
  cbv zeta. revert s. induction refs as [|ref refs IH]; intros s.
  - exists []. cbn. by rewrite app_nil_r, andb_true_r.
  - cbn [checkRefs]. rewrite bind_eq.
    destruct (checkRef_eq addNotes ref s) as (s1 & -> & Ht & Hf & Hr).
    cbn [fst snd]. destruct (IH s1) as (outcomes & Hlen & Ht' & Hf' & Hr').
    exists ((report.ID (rep s), (Head (report.URL ref) (world s)).1) :: outcomes).
    split; [cbn; by rewrite Hlen|]. split; [|split].
    + by rewrite Ht', Ht, <- app_assoc.
    + by rewrite Hf', Hf, <- andb_assoc.
    + intros Hn. by rewrite Hr', Hr.
Qed.

Lemma checkRef_world addNotes ref s :
  world (checkRef' (fixErr' addNotes) ref s).2 = (Head (report.URL ref) (world s)).2.
Proof.
  unfold checkRef. rewrite bind_eq, extern_eq. cbn [fst snd].
  rewrite bind_eq. cbn [emit fst snd].
  destruct (Head (report.URL ref) (world s)).1 as [resp [err|]].
  - by rewrite fixErr_eq.
  - destruct (StatusCode resp =? StatusNotFound)%Z; cbn [when ret snd]; [|done].
    by rewrite fixErr_eq.
Qed.

Lemma checkRef_rep addNotes ref s :
  rep (checkRef' (fixErr' addNotes) ref s).2
  = afterRequest NoteTypeFix AddNote addNotes ref
                 (Head (report.URL ref) (world s)).1 (rep s).
Proof.
  unfold checkRef, afterRequest, defect.
  rewrite bind_eq, extern_eq. cbn [fst snd]. rewrite bind_eq. cbn [emit fst snd].
  destruct (Head (report.URL ref) (world s)).1 as [resp [err|]].
  - rewrite fixErr_eq. cbn [snd rep]. by rewrite andb_true_r.
  - unfold StatusNotFound. destruct (Z.eqb_spec (StatusCode resp) 404) as [E|N].
    + rewrite bool_decide_eq_true_2 by done. cbn [when].
      rewrite fixErr_eq. cbn [snd rep]. by rewrite andb_true_r.
    + rewrite bool_decide_eq_false_2 by done. cbn [when ret snd rep].
      by rewrite andb_false_r.
Qed.

(** The run of [checkRefs], with what [http.Head] has returned. *)
Lemma checkRefs_heads addNotes refs :
  forall s,
    let s' := (checkRefs' refs (fixErr' addNotes) s).2 in
    let results := headResults Head refs (world s) in
    let reports := headReports NoteTypeFix AddNote Head addNotes refs (world s) (rep s) in
    trace s'
    = trace s ++ concat (zip_with refEvents refs (zip (map report.ID reports) results))
    /\ fixed s' = fixed s && forallb (fun result => negb (defect result)) results
    /\ world s' = headWorld Head refs (world s)
    /\ rep s' = headReport NoteTypeFix AddNote Head addNotes refs (world s) (rep s).
Proof.
  induction refs as [|ref refs IH]; intros s; cbv zeta.
  - cbn. by rewrite app_nil_r, andb_true_r.
  - cbn [checkRefs headResults headWorld headReports headReport]. rewrite bind_eq.
    pose proof (checkRef_world addNotes ref s) as Hw.
    pose proof (checkRef_rep addNotes ref s) as Hrep.
    destruct (checkRef_eq addNotes ref s) as (s1 & Hrun & Ht & Hf & _).
    rewrite Hrun in Hw, Hrep |- *. cbn [fst snd] in Hw, Hrep |- *.
    destruct (IH s1) as (Ht' & Hf' & Hw' & Hrep').
    rewrite Hw in Ht', Hf', Hw', Hrep'. rewrite Hrep in Ht', Hrep'.
    split; [|split; [|split]]; [| |done|done].
    + cbn [map zip zip_with concat]. by rewrite Ht', Ht, <- app_assoc.
    + cbn [forallb]. by rewrite Hf', Hf, <- andb_assoc.
Qed.

Lemma headReport_no_notes refs :
  forall (w : World) r,
    headReport NoteTypeFix AddNote Head false refs w r = r
    /\ headReports NoteTypeFix AddNote Head false refs w r = replicate (length refs) r.
Proof.
  induction refs as [|ref refs IH]; intros w r; cbn; [done|].
  destruct (IH (Head (report.URL ref) w).2 r) as [-> ->]. done.
Qed.

(** C6.  For every reference, in order, [checkRefs] sends one HEAD request
    and, with what [http.Head] has returned for it, records a defect -- an
    error line, the pass marked as failed, and a note when notes are taken
    -- exactly when that is a defect: a request that failed, or a response
    with status 404.  Every other status, 500, 403 and 429 among them,
    records nothing.  The requests are all [checkRefs] does to the world,
    and without notes the report is left alone. *)
Theorem checkRefs_defects addNotes refs s :
  let s' := (checkRefs' refs (fixErr' addNotes) s).2 in
  let results := headResults Head refs (world s) in
  let reports := headReports NoteTypeFix AddNote Head addNotes refs (world s) (rep s) in
  trace s'
  = trace s ++ concat (zip_with refEvents refs (zip (map report.ID reports) results))
  /\ fixed s' = fixed s && forallb (fun result => negb (defect result)) results
  /\ world s' = headWorld Head refs (world s)
  /\ rep s' = headReport NoteTypeFix AddNote Head addNotes refs (world s) (rep s)
  /\ (addNotes = false ->
      rep s' = rep s /\ reports = replicate (length refs) (rep s))
  /\ (forall ref id result,
        refEvents ref (id, result)
        = EvHead (report.URL ref) result
          :: if defect result then [defectLog id ref result] else [])
  /\ (forall resp err, defect (resp, Some err) = true)
  /\ (forall resp, defect (resp, None) = true <-> StatusCode resp = 404%Z)
  /\ (forall status,
      defect ({| Status := status; StatusCode := 500 |}, None) = false
      /\ defect ({| Status := status; StatusCode := 403 |}, None) = false
      /\ defect ({| Status := status; StatusCode := 429 |}, None) = false).
Proof.
  intros s' results reports.
  destruct (checkRefs_heads addNotes refs s) as (Htrace & Hfixed & Hworld & Hrep).
  split; [exact Htrace|]. split; [exact Hfixed|]. split; [exact Hworld|].
  split; [exact Hrep|]. split.
  { intros ->. subst s' reports. rewrite Hrep.
    apply (headReport_no_notes refs (world s) (rep s)). }
  split; [done|]. split; [done|]. split; [|done].
  intros resp. unfold defect. apply bool_decide_eq_true.
Qed.

(** *** Symbol Refresher: the gate on first-party modules *)

Lemma keepingModule_removeExcluded i id syms excluded :
  preserves (keepingModule i) (removeExcluded (World := World) id syms excluded).
Proof.
  unfold removeExcluded.
  destruct (length excluded =? 0)%nat; [keeping_steps|].
  generalize (@nil string). induction syms as [|d syms IH]; intros newSyms;
    cbn [removeExcludedLoop].
  - keeping_steps.
  - destruct (bool_decide (d ∈ excluded)); [|apply IH].
    keeping_steps. apply IH.
Qed.

Lemma keepingModule_checkModule i i' m :
  i' <> i -> preserves (keepingModule i) (checkModule' i' m).
Proof.
  intros Hne.
  assert (Hpackages :
    preserves (keepingModule i) (forRange (checkPackage' i' m) 0 (report.Packages m))).
  { apply preserves_forRange; [keeping_side|keeping_side|].
    intros k p _. unfold checkPackage. keeping_steps.
    - apply keepingModule_removeExcluded.
    - by apply keepingModule_setDerivedSymbols. }
  unfold checkModule. keeping_steps; done.
Qed.

Lemma untouched_refl i s : untouched i s s.
Proof. split; [apply emitting_refl|apply keepingModule_refl]. Qed.

Lemma untouched_trans i s1 s2 s3 :
  untouched i s1 s2 -> untouched i s2 s3 -> untouched i s1 s3.
Proof.
  intros [E1 K1] [E2 K2].
  split; [by eapply emitting_trans|by eapply keepingModule_trans].
Qed.

Lemma untouched_checkModule_other i i' m :
  i' <> i -> preserves (untouched i) (checkModule' i' m).
Proof.
  intros Hne s. split; [|by apply keepingModule_checkModule].
  apply emitting_checkModule; intros; kind_solve.
Qed.

(** The module the gate stops: a first-party module, when the version of
    the running toolchain is unknown or outside the module's ranges. *)
Lemma untouched_checkModule_gated i m :
  IsFirstParty m = true ->
  semverForGoVersion runtime_Version = ""
  \/ (AffectsSemver (AffectedRanges RangeTypeSemver (report.Versions m))
                    (semverForGoVersion runtime_Version)).1 = false ->
  preserves (untouched i) (checkModule' i m).
Proof.
  intros Hfp Hgate s. unfold checkModule. rewrite bind_eq, Hfp. cbn [getRep fst snd].
  destruct (AffectsSemver _ _) as [affected [err|]]; [apply untouched_refl|].
  assert (Hskip : (semverForGoVersion runtime_Version =? "") || negb affected = true).
  { destruct Hgate as [->|Ha]; [done|]. simpl in Ha. subst affected.
    apply orb_true_r. }
  rewrite Hskip, bind_eq. cbn [ret snd].
  split; [|done]. eexists. split; [reflexivity|].
  constructor; [kind_solve|constructor].
Qed.

(** C2.  A first-party module of the report for which the version of the
    running toolchain parses to the empty string, or is not inside the
    module's affected ranges, is passed over by [checkSymbols]: no call of
    [symbols.Exported] is made for it, and the module, the [DerivedSymbols]
    of its packages included, is as it was. *)
Theorem checkSymbols_skips_module s i m :
  report.Modules (rep s) !! i = Some m ->
  IsFirstParty m = true ->
  semverForGoVersion runtime_Version = ""
  \/ (AffectsSemver (AffectedRanges RangeTypeSemver (report.Versions m))
                    (semverForGoVersion runtime_Version)).1 = false ->
  let s' := (checkSymbols' s).2 in
  (exists evs,
      trace s' = trace s ++ evs
      /\ forall j m' p result, EvExported i j m' p result ∉ evs)
  /\ report.Modules (rep s') !! i = Some m.
Proof.
  intros Hm Hfp Hgate s'.
  assert (H : untouched i s s').
  { subst s'. unfold checkSymbols. rewrite bind_eq. cbn [getRep fst snd].
    destruct (IsExcluded (rep s)).
    - rewrite bind_eq. cbn [ret snd]. split; [|done].
      eexists. split; [reflexivity|].
      constructor; [kind_solve|constructor].
    - rewrite bind_eq.
      eapply untouched_trans;
        [|destruct (forRange _ _ _ s).1; apply untouched_refl].
      apply preserves_forRange;
        [exact (untouched_refl i)|exact (untouched_trans i)|].
      intros k x Hk. cbn [Nat.add]. destruct (decide (k = i)) as [->|Hne].
      + rewrite Hm in Hk. injection Hk as <-. by apply untouched_checkModule_gated.
      + by apply untouched_checkModule_other. }
  destruct H as [(evs & Ht & Hall) Hkeep]. split.
  - exists evs. split; [done|]. intros j m' p result Hin.
    by apply (proj1 (Forall_forall _ _) Hall) in Hin.
  - unfold keepingModule in Hkeep. by rewrite Hkeep.
Qed.

(** *** A failed query ends the symbol refresh *)

Lemma failingLast_app evs1 evs2 res :
  Forall (fun e => ~ isFailedExport e) evs1 ->
  failingLast evs2 res -> failingLast (evs1 ++ evs2) res.
Proof.
  intros H1 [H2|(evs0 & i & j & m & p & syms & err & -> & H0 & ->)].
  - left. by apply Forall_app.
  - right. exists (evs1 ++ evs0), i, j, m, p, syms, err.
    split; [by rewrite app_assoc|]. split; [by apply Forall_app|done].
Qed.

Lemma endsAtFailure_clean {A} (c : M World A) err :
  preserves (emitting (fun e => ~ isFailedExport e)) c -> endsAtFailure c err.
Proof.
  intros Hc s. destruct (Hc s) as (evs & Ht & Hall).
  exists evs. split; [done|by left].
Qed.

Lemma endsAtFailure_bind {A B} (c : M World A) (k : A -> M World B) err :
  preserves (emitting (fun e => ~ isFailedExport e)) c ->
  (forall a, endsAtFailure (k a) err) ->
  endsAtFailure (bind c k) err.
Proof.
  intros Hc Hk s. rewrite bind_eq.
  destruct (Hc s) as (evs1 & Ht1 & Hall1).
  destruct (Hk (c s).1 (c s).2) as (evs2 & Ht2 & Hlast).
  exists (evs1 ++ evs2). split; [by rewrite Ht2, Ht1, app_assoc|].
  by apply failingLast_app.
Qed.

Lemma endsAtFailure_forRange {A} (body : nat -> A -> M World Flow) (l : list A) :
  (forall i x, endsAtFailure (body i x) flowError) ->
  forall i, endsAtFailure (forRange body i l) flowError.
Proof.
  intros Hbody. induction l as [|x l IH]; intros i s.
  - exists []. split; [by rewrite app_nil_r|left; constructor].
  - cbn [forRange]. rewrite bind_eq.
    destruct (Hbody i x s) as (evs1 & Ht1 & Hlast1).
    destruct (body i x s).1 as [|err] eqn:Hflow.
    + destruct Hlast1 as [Hclean|(? & ? & ? & ? & ? & ? & ? & _ & _ & ?)]; [|done].
      destruct (IH (S i) (body i x s).2) as (evs2 & Ht2 & Hlast2).
      exists (evs1 ++ evs2). split; [by rewrite Ht2, Ht1, app_assoc|].
      by apply failingLast_app.
    + exists evs1. split; [done|]. cbn [ret fst]. exact Hlast1.
Qed.

Lemma endsAtFailure_checkPackage i m0 j p :
  endsAtFailure (checkPackage' i m0 j p) flowError.
Proof.
  unfold checkPackage.
  apply endsAtFailure_bind; [emitting_steps|]. intros r.
  destruct (negb (report.SkipFix p =? "")).
  { apply endsAtFailure_clean. emitting_steps. kind_solve. }
  apply endsAtFailure_bind; [emitting_steps|]. intros [syms [err|]].
  - intros s. rewrite bind_eq. cbn [emit ret fst snd trace flowError].
    eexists. split; [reflexivity|]. right.
    exists [], i, j, (default m0 (report.Modules r !! i)), p, syms, err.
    split; [done|]. split; [constructor|done].
  - apply endsAtFailure_clean. emitting_steps; try (kind_solve).
    apply emitting_removeExcluded. intros. kind_solve.
Qed.

Lemma endsAtFailure_checkModule i m :
  endsAtFailure (checkModule' i m) flowError.
Proof.
  assert (Hpackages :
    endsAtFailure (forRange (checkPackage' i m) 0 (report.Packages m)) flowError).
  { apply endsAtFailure_forRange. intros. apply endsAtFailure_checkPackage. }
  unfold checkModule.
  apply endsAtFailure_bind; [emitting_steps|]. intros r.
  destruct (IsFirstParty m); [|done].
  destruct (AffectsSemver _ _) as [affected [err|]].
  { apply endsAtFailure_clean. emitting_steps. }
  destruct (_ || _).
  { apply endsAtFailure_clean. emitting_steps. kind_solve. }
  apply endsAtFailure_bind; [|done]. emitting_steps. kind_solve.
Qed.

Lemma endsAtFailure_checkSymbols : endsAtFailure checkSymbols' id.
Proof.
  unfold checkSymbols.
  apply endsAtFailure_bind; [emitting_steps|]. intros r.
  destruct (IsExcluded r).
  { apply endsAtFailure_clean. emitting_steps. kind_solve. }
  intros s. rewrite bind_eq.
  destruct (endsAtFailure_forRange checkModule' (report.Modules r)
              endsAtFailure_checkModule 0 s) as (evs & Ht & Hlast).
  exists evs. by destruct (forRange _ _ _ s).1.
Qed.

Lemma checkSymbolsStep_run addNotes s :
  let s' := (checkSymbolsStep' addNotes s).2 in
  exists evs,
    trace s' = trace s ++ evs
    /\ (Forall (fun e => ~ isFailedExport e) evs
        \/ exists evs0 i j m p syms err id,
             evs = evs0 ++ [EvExported i j m p (syms, Some err);
                            EvLog Err (id +:+ ": " +:+ "package or symbol error: %s")
                                  [ArgS (packageError p err)]]
             /\ Forall (fun e => ~ isFailedExport e) evs0
             /\ fixed s' = false).
Proof.
  cbv zeta. unfold checkSymbolsStep. destruct skipSymbols; cbn [negb when].
  { exists []. split; [by rewrite app_nil_r|left; constructor]. }
  rewrite bind_eq. cbn [getRep fst snd]. rewrite bind_eq. cbn [logf emit fst snd].
  set (s1 := {| world := world s; trace := _; rep := rep s; fixed := fixed s |}).
  rewrite bind_eq.
  destruct (endsAtFailure_checkSymbols s1) as (evs & Ht & Hlast).
  set (s2 := (checkSymbols' s1).2) in *. unfold id in Hlast.
  destruct Hlast as [Hclean|(evs0 & i & j & m & p & syms & err & -> & Hclean & Hres)].
  - destruct (checkSymbols' s1).1 as [err|].
    + rewrite fixErr_eq. cbn [snd trace]. eexists.
      split; [rewrite Ht; subst s1; cbn [trace]; by rewrite <- !app_assoc|].
      left. constructor; [kind_solve|]. apply Forall_app. split; [done|].
      constructor; [kind_solve|constructor].
    + cbn [ret snd]. eexists.
      split; [rewrite Ht; subst s1; cbn [trace]; by rewrite <- !app_assoc|].
      left. constructor; [kind_solve|done].
  - rewrite Hres, fixErr_eq. cbn [snd trace fixed]. eexists.
    split; [rewrite Ht; subst s1; cbn [trace]; by rewrite <- !app_assoc|].
    right. exists (EvLog Info "%s: checking packages and symbols (use -skip-symbols to skip this)"
                         [ArgS (report.ID (rep s))] :: evs0),
             i, j, m, p, syms, err, (report.ID (rep s2)).
    split; [cbn; by rewrite <- ?app_assoc|]. split; [|done].
    constructor; [kind_solve|done].
Qed.

(** *** The steps after the symbol refresh *)

Lemma stayingFailed_refl s : stayingFailed s s.
Proof. by unfold stayingFailed. Qed.

Lemma stayingFailed_trans s1 s2 s3 :
  stayingFailed s1 s2 -> stayingFailed s2 s3 -> stayingFailed s1 s3.
Proof. unfold stayingFailed. auto. Qed.

Lemma stayingFailed_checkRefs addNotes refs :
  preserves stayingFailed (checkRefs' refs (fixErr' addNotes)).
Proof.
  intros s Hs. destruct (checkRefs_run addNotes refs s) as (? & _ & _ & -> & _).
  by rewrite Hs.
Qed.

Lemma stayingFailed_rest addNotes :
  preserves stayingFailed
    (bind addMissingAliasesStep'
          (fun _ => bind (checkRefsStep' addNotes) (fun _ => finalLint' addNotes))).
Proof.
  unfold addMissingAliasesStep, checkRefsStep, finalLint.
  preserves_struct
    ltac:(first [exact stayingFailed_refl | exact stayingFailed_trans]);
    try apply stayingFailed_checkRefs;
    intros s Hs; rewrite ?extern_eq; done.
Qed.

Lemma addMissingAliasesStep_run s :
  skipAlias = false ->
  exists evs r added,
    trace (addMissingAliasesStep' s).2 = trace s ++ evs
    /\ EvAddMissingAliases r added ∈ evs.
Proof.
  intros ->. unfold addMissingAliasesStep. cbn [negb when].
  rewrite bind_eq. cbn [getRep fst snd]. rewrite bind_eq. cbn [logf emit fst snd].
  rewrite bind_eq, extern_eq. cbn [fst snd]. rewrite bind_eq. cbn [emit fst snd].
  rewrite bind_eq. cbn [setRep fst snd].
  destruct (0 <? _)%Z; cbn [when logf emit ret snd trace];
    rewrite <- ?app_assoc; do 3 eexists; (split; [reflexivity|]);
    apply list_elem_of_further, list_elem_of_here.
Qed.

Lemma head_in_refEvents refs :
  forall outcomes ref,
    length outcomes = length refs -> ref ∈ refs ->
    exists result,
      EvHead (report.URL ref) result ∈ concat (zip_with refEvents refs outcomes).
Proof.
  induction refs as [|ref0 refs IH]; intros outcomes ref Hlen Hin.
  - by apply elem_of_nil in Hin.
  - destruct outcomes as [|o outcomes]; [done|]. cbn.
    apply elem_of_cons in Hin as [->|Hin].
    + exists o.2. apply list_elem_of_here.
    + destruct (IH outcomes ref) as (result & Hres); [by injection Hlen|done|].
      exists result. apply list_elem_of_further, elem_of_app. by right.
Qed.

Lemma checkRefsStep_run addNotes s :
  let s' := (checkRefsStep' addNotes s).2 in
  exists evs,
    trace s'
    = trace s ++ EvLog Info "%s: checking that all references are reachable"
                       [ArgS (report.ID (rep s))] :: evs
    /\ (forall ref, ref ∈ report.References (rep s) ->
                    exists result, EvHead (report.URL ref) result ∈ evs)
    /\ (addNotes = false -> rep s' = rep s).
Proof.
  cbv zeta. unfold checkRefsStep.
  rewrite bind_eq. cbn [getRep fst snd]. rewrite bind_eq. cbn [logf emit fst snd].
  set (s1 := {| world := world s; trace := _; rep := rep s; fixed := fixed s |}).
  destruct (checkRefs_run addNotes (report.References (rep s)) s1)
    as (outcomes & Hlen & Ht & _ & Hr).
  eexists. split; [rewrite Ht; subst s1; cbn [trace]; by rewrite <- app_assoc|].
  split; [|done]. intros ref Hin. by apply head_in_refEvents.
Qed.

Lemma finalLint_run addNotes s :
  let s' := (finalLint' addNotes s).2 in
  exists e evs,
    trace s' = trace s ++ e :: evs
    /\ ((exists lints, e = EvLint (rep s) lints)
        \/ (exists found, e = EvLintAsNotes (rep s) found))
    /\ (addNotes = false -> rep s' = rep s).
Proof.
  cbv zeta. unfold finalLint. destruct addNotes.
  - rewrite bind_eq. cbn [getRep fst snd]. rewrite bind_eq, extern_eq. cbn [fst snd].
    rewrite bind_eq. cbn [emit fst snd]. rewrite bind_eq. cbn [setRep fst snd].
    destruct (LintAsNotes _ _).1.2; cbn [when];
      rewrite ?bind_eq; cbn [logf emit setFixed ret fst snd trace];
      rewrite <- ?app_assoc; do 2 eexists;
      (split; [reflexivity|]); (split; [right; by eexists|done]).
  - rewrite bind_eq. cbn [getRep fst snd]. rewrite bind_eq, extern_eq. cbn [fst snd].
    rewrite bind_eq. cbn [emit fst snd].
    destruct (0 <? _)%nat; cbn [when];
      rewrite ?bind_eq; cbn [logf emit setFixed ret fst snd trace rep];
      rewrite <- ?app_assoc; do 2 eexists;
      (split; [reflexivity|]); (split; [left; by eexists|done]).
Qed.

Lemma notExported_notFailed (e : Event) : ~ isExported e -> ~ isFailedExport e.
Proof. destruct e as [| | |? ? ? ? [? [?|]]| | | | |]; kind_solve. Qed.

(** The one element of its kind in a list is found at one place only. *)
Lemma unique_split {A} (Q : A -> Prop) (l1 l2 pre post : list A) (x y : A) :
  Forall (fun a => ~ Q a) l1 -> Forall (fun a => ~ Q a) l2 -> Q y ->
  l1 ++ x :: l2 = pre ++ y :: post ->
  pre = l1 /\ y = x /\ post = l2.
Proof.
  intros H1 H2 Hy. revert pre. induction H1 as [|a l1 Ha H1 IH]; intros pre Heq.
  - destruct pre as [|b pre]; simpl in Heq.
    + by injection Heq as -> ->.
    + injection Heq as -> ->. exfalso.
      assert (Hin : y ∈ pre ++ y :: post)
        by (apply elem_of_app; right; apply list_elem_of_here).
      by apply (proj1 (Forall_forall _ _) H2) in Hin.
  - destruct pre as [|b pre]; simpl in Heq.
    + injection Heq as -> _. done.
    + injection Heq as -> Heq. destruct (IH pre Heq) as (-> & -> & ->). done.
Qed.

(** C3, as the code has it.  When [symbols.Exported] fails for a package,
    the symbol refresh of the whole report ends there: no package or module
    after it is queried.  The failure is reported -- the next event is the
    error line with the error of that package, and the pass returns false --
    and the pass goes on: the alias merge unless it is switched off, the
    reference validation, a HEAD request for every reference of the report
    when no notes are taken, and the final lint. *)
Theorem fixer_fix_failed_export addNotes s pre post i j m p syms err :
  let ok := (fixer_fix' addNotes s).1 in
  let s' := (fixer_fix' addNotes s).2 in
  trace s' = trace s ++ pre ++ EvExported i j m p (syms, Some err) :: post ->
  Forall (fun e => ~ isExported e) post
  /\ (exists id post',
        post = EvLog Err (id +:+ ": " +:+ "package or symbol error: %s")
                     [ArgS (packageError p err)] :: post')
  /\ ok = false
  /\ (skipAlias = false -> exists r added, EvAddMissingAliases r added ∈ post)
  /\ (exists id,
        EvLog Info "%s: checking that all references are reachable" [ArgS id] ∈ post)
  /\ ((exists r lints, EvLint r lints ∈ post)
      \/ (exists r found, EvLintAsNotes r found ∈ post))
  /\ (addNotes = false ->
      forall ref, ref ∈ report.References (rep s') ->
                  exists result, EvHead (report.URL ref) result ∈ post).
Proof.
  cbv zeta. unfold fixer_fix. rewrite !bind_eq. cbn [setFixed getFixed fst snd].
  set (s0 := {| world := world s; trace := trace s; rep := rep s; fixed := true |}).
  set (s1 := (lintAndFix' s0).2).
  set (s2 := (checkSymbolsStep' addNotes s1).2).
  set (s3 := (addMissingAliasesStep' s2).2).
  set (s4 := (checkRefsStep' addNotes s3).2).
  set (s5 := (finalLint' addNotes s4).2).
  intros Htrace.
  (* the events of each step *)
  destruct (emitting_lintAndFix (fun e => ~ isExported e)
              ltac:(intros; kind_solve) ltac:(intros; kind_solve) s0) as (e0 & Ht1 & Hc0).
  destruct (checkSymbolsStep_run addNotes s1) as (e1 & Ht2 & Hsym).
  destruct (emitting_addMissingAliasesStep (fun e => ~ isExported e)
              ltac:(intros; kind_solve) ltac:(intros; kind_solve) s2) as (eA & Ht3 & HcA).
  destruct (emitting_checkRefsStep (fun e => ~ isExported e) addNotes
              ltac:(intros; kind_solve) ltac:(intros; kind_solve)
              ltac:(intros; kind_solve) s3) as (eR & Ht4 & HcR).
  destruct (emitting_finalLint (fun e => ~ isExported e) addNotes
              ltac:(intros; kind_solve) ltac:(intros; kind_solve) ltac:(intros; kind_solve) s4)
    as (eF & Ht5 & HcF).
  fold s1 in Ht1. fold s2 in Ht2, Hsym. fold s3 in Ht3. fold s4 in Ht4. fold s5 in Ht5.
  change (trace s0) with (trace s) in Ht1.
  assert (Hall : e0 ++ e1 ++ eA ++ eR ++ eF
                 = pre ++ EvExported i j m p (syms, Some err) :: post).
  { apply (app_inv_head (trace s)). rewrite <- Htrace, Ht5, Ht4, Ht3, Ht2, Ht1.
    by rewrite <- !app_assoc. }
  assert (HcRest : Forall (fun e => ~ isExported e) (eA ++ eR ++ eF))
    by (by repeat apply Forall_app_2).
  destruct Hsym as [Hclean|(evs0 & i' & j' & m' & p' & syms' & err' & id & -> & Hclean & Hfixed)].
  { exfalso.
    assert (Hin : EvExported i j m p (syms, Some err) ∈ e0 ++ e1 ++ eA ++ eR ++ eF)
      by (rewrite Hall; apply elem_of_app; right; apply list_elem_of_here).
    assert (Hno : Forall (fun e => ~ isFailedExport e) (e0 ++ e1 ++ eA ++ eR ++ eF)).
    { apply Forall_app_2; [|apply Forall_app_2; [done|]];
        (eapply Forall_impl; [|exact notExported_notFailed]); done. }
    by apply (proj1 (Forall_forall _ _) Hno) in Hin. }
  rewrite <- !app_assoc in Hall. cbn [app] in Hall. rewrite app_assoc in Hall.
  apply (unique_split isFailedExport) in Hall as (-> & [= <- <- <- <- <- <-] & ->);
    [| |constructor; [kind_solve|]|done].
  2: { apply Forall_app_2; [|done].
       eapply Forall_impl; [exact Hc0|exact notExported_notFailed]. }
  2: { eapply Forall_impl; [exact HcRest|exact notExported_notFailed]. }
  (* the steps that follow *)
  destruct (checkRefsStep_run addNotes s3) as (eR' & Ht4' & Hheads & Hrep4).
  destruct (finalLint_run addNotes s4) as (e & eF' & Ht5' & Hfinal & Hrep5).
  fold s4 in Ht4', Hrep4. fold s5 in Ht5', Hrep5.
  assert (HeR : eR = EvLog Info "%s: checking that all references are reachable"
                           [ArgS (report.ID (rep s3))] :: eR')
    by (apply (app_inv_head (trace s3)); by rewrite <- Ht4, Ht4').
  assert (HeF : eF = e :: eF')
    by (apply (app_inv_head (trace s4)); by rewrite <- Ht5, Ht5').
  split; [constructor; [kind_solve|done]|].
  split; [by eexists _, _|].
  split.
  { pose proof (stayingFailed_rest addNotes s2 Hfixed) as Hf.
    by rewrite !bind_eq in Hf. }
  split; [|split; [|split]].
  - intros Hskip.
    destruct (addMissingAliasesStep_run s2 Hskip) as (eA' & r & added & Ht3' & Hin).
    fold s3 in Ht3'.
    assert (eA = eA') as -> by (apply (app_inv_head (trace s2)); by rewrite <- Ht3, Ht3').
    exists r, added. apply list_elem_of_further, elem_of_app. by left.
  - exists (report.ID (rep s3)).
    apply list_elem_of_further, elem_of_app. right. apply elem_of_app. left.
    rewrite HeR. apply list_elem_of_here.
  - assert (Hin : e ∈ EvLog Err (id +:+ ": " +:+ "package or symbol error: %s")
                           [ArgS (packageError p err)] :: eA ++ eR ++ eF).
    { apply list_elem_of_further, elem_of_app. right. apply elem_of_app. right.
      rewrite HeF. apply list_elem_of_here. }
    destruct Hfinal as [(lints & ->)|(found & ->)]; [left|right]; by eexists _, _.
  - intros Hn ref Href. rewrite (Hrep5 Hn), (Hrep4 Hn) in Href.
    destruct (Hheads ref Href) as (result & Hin). exists result.
    apply list_elem_of_further, elem_of_app. right. apply elem_of_app. left.
    rewrite HeR. by apply list_elem_of_further.
Qed.

(** *** What makes the pass fail *)

Lemma checkSymbolsStep_errLine addNotes s :
  let s' := (checkSymbolsStep' addNotes s).2 in
  exists evs,
    trace s' = trace s ++ evs /\ (Exists isErrLine evs -> fixed s' = false).
Proof.
  cbv zeta. unfold checkSymbolsStep. destruct skipSymbols; cbn [negb when].
  { exists []. split; [by rewrite app_nil_r|]. by intros ?%Exists_nil. }
  rewrite bind_eq. cbn [getRep fst snd]. rewrite bind_eq. cbn [logf emit fst snd].
  set (s1 := {| world := world s; trace := _; rep := rep s; fixed := fixed s |}).
  rewrite bind_eq.
  destruct (emitting_checkSymbols (fun e => ~ isErrLine e)
              ltac:(intros [] ? ? ?; kind_solve) ltac:(intros; kind_solve) s1)
    as (evs & Ht & Hclean).
  destruct (checkSymbols' s1).1 as [err|].
  - rewrite fixErr_eq. cbn [snd trace fixed]. eexists.
    split; [rewrite Ht; subst s1; cbn [trace]; by rewrite <- !app_assoc|done].
  - cbn [ret snd]. eexists.
    split; [rewrite Ht; subst s1; cbn [trace]; by rewrite <- !app_assoc|].
    intros [Hlog|Hin]%Exists_cons; [done|].
    apply Exists_exists in Hin as (e & Hin & He).
    by apply (proj1 (Forall_forall _ _) Hclean) in Hin.
Qed.

Lemma errLine_in_refEvents refs :
  forall outcomes,
    Exists isErrLine (concat (zip_with refEvents refs outcomes)) ->
    forallb (fun o => negb (defect o.2)) outcomes = false.
Proof.
  induction refs as [|ref refs IH]; intros [|o outcomes]; cbn;
    try (by intros ?%Exists_nil).
  intros [Hhead|H]%Exists_cons; [done|].
  apply Exists_app in H as [H|H].
  - destruct (defect o.2); [done|]. by apply Exists_nil in H.
  - by rewrite (IH outcomes H), andb_false_r.
Qed.

Lemma checkRefsStep_errLine addNotes s :
  let s' := (checkRefsStep' addNotes s).2 in
  exists evs,
    trace s' = trace s ++ evs /\ (Exists isErrLine evs -> fixed s' = false).
Proof.
  cbv zeta. unfold checkRefsStep.
  rewrite bind_eq. cbn [getRep fst snd]. rewrite bind_eq. cbn [logf emit fst snd].
  set (s1 := {| world := world s; trace := _; rep := rep s; fixed := fixed s |}).
  destruct (checkRefs_run addNotes (report.References (rep s)) s1)
    as (outcomes & _ & Ht & Hf & _).
  eexists. split; [rewrite Ht; subst s1; cbn [trace]; by rewrite <- app_assoc|].
  intros [Hlog|H]%Exists_cons; [done|].
  by rewrite Hf, (errLine_in_refEvents _ _ H), andb_false_r.
Qed.

Lemma finalLint_eq s :
  let lints := (Lint (rep s) (world s)).1 in
  exists tail,
    trace (finalLint' false s).2 = trace s ++ EvLint (rep s) lints :: tail
    /\ Forall (fun e => ~ isLint e) tail
    /\ Forall (fun e => ~ isErrLine e) tail
    /\ fixed (finalLint' false s).2 = (if (0 <? length lints)%nat then false else fixed s).
Proof.
  cbv zeta. unfold finalLint.
  rewrite bind_eq. cbn [getRep fst snd]. rewrite bind_eq, extern_eq. cbn [fst snd].
  rewrite bind_eq. cbn [emit fst snd].
  destruct (0 <? _)%nat; cbn [when];
    rewrite ?bind_eq; cbn [logf emit setFixed ret fst snd trace fixed];
    rewrite <- ?app_assoc; eexists; (split; [reflexivity|]).
  - split; [|split; [|done]]; (constructor; [kind_solve|constructor]).
  - split; [|split; [|done]]; constructor.
Qed.

(** The last element of its kind in a list. *)
Lemma last_split {A} (Q : A -> Prop) (l1 l2 pre post : list A) (x y : A) :
  Q x -> Q y ->
  Forall (fun a => ~ Q a) l2 -> Forall (fun a => ~ Q a) post ->
  l1 ++ x :: l2 = pre ++ y :: post ->
  y = x /\ post = l2.
Proof.
  intros Hx Hy H2 Hpost. revert pre. induction l1 as [|a l1 IH]; intros pre Heq.
  - destruct pre as [|b pre]; simpl in Heq.
    + by injection Heq as -> ->.
    + injection Heq as -> ->. exfalso.
      assert (Hin : y ∈ pre ++ y :: post)
        by (apply elem_of_app; right; apply list_elem_of_here).
      by apply (proj1 (Forall_forall _ _) H2) in Hin.
  - destruct pre as [|b pre]; simpl in Heq.
    + injection Heq as -> <-. exfalso.
      assert (Hin : x ∈ l1 ++ x :: l2)
        by (apply elem_of_app; right; apply list_elem_of_here).
      by apply (proj1 (Forall_forall _ _) Hpost) in Hin.
    + injection Heq as _ Heq. by apply IH in Heq.
Qed.

(** The pass returns false when it has logged an error line -- [fixErr]
    logs them all -- and when its last lint has found defects. *)
Lemma fixer_fix_reports_failure s evs :
  let ok := (fixer_fix' false s).1 in
  let s' := (fixer_fix' false s).2 in
  trace s' = trace s ++ evs ->
  (Exists isErrLine evs -> ok = false)
  /\ (forall pre r lints post,
        evs = pre ++ EvLint r lints :: post ->
        Forall (fun e => ~ isLint e) post ->
        lints <> [] ->
        ok = false).
Proof.
  cbv zeta. unfold fixer_fix. rewrite !bind_eq. cbn [setFixed getFixed fst snd].
  set (s0 := {| world := world s; trace := trace s; rep := rep s; fixed := true |}).
  set (s1 := (lintAndFix' s0).2).
  set (s2 := (checkSymbolsStep' false s1).2).
  set (s3 := (addMissingAliasesStep' s2).2).
  set (s4 := (checkRefsStep' false s3).2).
  set (s5 := (finalLint' false s4).2).
  intros Htrace.
  destruct (emitting_lintAndFix (fun e => ~ isErrLine e)
              ltac:(intros; kind_solve) ltac:(intros; kind_solve) s0)
    as (e0 & Ht1 & Hc0).
  destruct (checkSymbolsStep_errLine false s1) as (e1 & Ht2 & Hsym).
  destruct (emitting_addMissingAliasesStep (fun e => ~ isErrLine e)
              ltac:(intros [] ? ? ?; kind_solve) ltac:(intros; kind_solve) s2)
    as (eA & Ht3 & HcA).
  destruct (checkRefsStep_errLine false s3) as (eR & Ht4 & Hrefs).
  destruct (finalLint_eq s4) as (tail & Ht5 & Htail & HtailErr & Hfixed).
  fold s1 in Ht1. fold s2 in Ht2, Hsym. fold s3 in Ht3. fold s4 in Ht4, Hrefs.
  fold s5 in Ht5, Hfixed. change (trace s0) with (trace s) in Ht1.
  set (lints4 := (Lint (rep s4) (world s4)).1) in *.
  assert (Hall : evs = e0 ++ e1 ++ eA ++ eR ++ EvLint (rep s4) lints4 :: tail).
  { apply (app_inv_head (trace s)). rewrite <- Htrace, Ht5, Ht4, Ht3, Ht2, Ht1.
    by rewrite <- !app_assoc. }
  assert (Hfinal : fixed s4 = false -> fixed s5 = false).
  { intros H. rewrite Hfixed, H. by destruct (0 <? _)%nat. }
  split.
  - rewrite Hall. intros H.
    apply Exists_app in H as [H|H].
    { apply Exists_exists in H as (e & Hin & He).
      by apply (proj1 (Forall_forall _ _) Hc0) in Hin. }
    apply Exists_app in H as [H|H].
    { pose proof (stayingFailed_rest false s2 (Hsym H)) as Hf.
      by rewrite !bind_eq in Hf. }
    apply Exists_app in H as [H|H].
    { apply Exists_exists in H as (e & Hin & He).
      by apply (proj1 (Forall_forall _ _) HcA) in Hin. }
    apply Exists_app in H as [H|H]; [by apply Hfinal, Hrefs|].
    apply Exists_cons in H as [H|H]; [done|].
    apply Exists_exists in H as (e & Hin & He).
    by apply (proj1 (Forall_forall _ _) HtailErr) in Hin.
  - intros pre r lints post Hevs Hpost Hlints. rewrite Hall, !app_assoc in Hevs.
    apply (last_split isLint) in Hevs as ([= _ Hl] & _); [|done..].
    rewrite Hfixed. fold lints4. rewrite <- Hl. by destruct lints.
Qed.

(** *** Writing the report *)

(** What [fixAndWriteAll] does once the pass has returned [ok] and left the
    state [s1]. *)
Lemma fixAndWriteAll_eq s :
  let ok := (fixer_fix' false s).1 in
  let s1 := (fixer_fix' false s).2 in
  let r := rep s1 in
  let werr := (write r (world s1)).1 in
  let w2 := (write r (world s1)).2 in
  let derr := (writeDerived r w2).1 in
  fixAndWriteAll' s
  = match werr with
    | Some err =>
        (Some err,
         {| world := w2; trace := trace s1 ++ [EvWrite r werr];
            rep := r; fixed := fixed s1 |})
    | None =>
        if ok then
          (derr,
           {| world := (writeDerived r w2).2;
              trace := (trace s1 ++ [EvWrite r werr]) ++ [EvWriteDerived r derr];
              rep := r; fixed := fixed s1 |})
        else
          (Some (manualReview (report.ID r)),
           {| world := w2; trace := trace s1 ++ [EvWrite r werr];
              rep := r; fixed := fixed s1 |})
    end.
Proof.
  intros ok s1 r werr w2 derr. unfold fixAndWriteAll.
  rewrite bind_eq. fold ok s1. unfold getRep at 1. rewrite bind_eq. cbn [fst snd].
  rewrite bind_eq, extern_eq. cbn [fst snd]. fold r werr w2.
  rewrite bind_eq. cbn [emit fst snd world trace rep fixed].
  destruct werr as [err|]; [done|]. destruct ok; [|done].
  rewrite bind_eq, extern_eq. cbn [fst snd world]. fold derr.
  by rewrite bind_eq.
Qed.

(** *** [removeExcluded]: what is kept, what is logged *)

Lemma removeExcludedLoop_eq id excluded syms :
  forall newSyms s,
    removeExcludedLoop id excluded syms newSyms s
    = (newSyms ++ filter (fun d => d ∉ excluded) syms,
       {| world := world s;
          trace := trace s
                   ++ map (removedLine id) (filter (fun d => d ∈ excluded) syms);
          rep := rep s;
          fixed := fixed s |}).
Proof.
  induction syms as [|d syms IH]; intros newSyms s; cbn [removeExcludedLoop].
  - destruct s. cbn. by rewrite !app_nil_r.
  - case_bool_decide as Hd.
    + rewrite bind_eq. cbn [logf emit fst snd]. rewrite IH. cbn [world trace rep fixed].
      rewrite filter_cons_False by (by intros ?).
      rewrite filter_cons_True by done.
      cbn [map]. by rewrite <- app_assoc.
    + rewrite IH. rewrite filter_cons_True by done.
      rewrite filter_cons_False by done.
      by rewrite <- app_assoc.
Qed.

Lemma removeExcluded_eq id syms excluded s :
  removeExcluded id syms excluded s
  = (filter (fun d => d ∉ excluded) syms,
     {| world := world s;
        trace := trace s
                 ++ map (removedLine id) (filter (fun d => d ∈ excluded) syms);
        rep := rep s;
        fixed := fixed s |}).
Proof.
  unfold removeExcluded. destruct excluded as [|x excluded]; cbn [length Nat.eqb].
  - rewrite filter_not_in_nil, filter_in_nil. destruct s. cbn. by rewrite app_nil_r.
  - by rewrite removeExcludedLoop_eq.
Qed.

(** X1.  The symbols [removeExcluded] returns are those of [syms] that are
    not in [excluded], in the order of [syms]; it logs one line for each
    symbol it removes, in that order, and changes nothing else. On what it
    has returned it removes nothing more and logs nothing. *)
Theorem removeExcluded_filters id syms excluded s :
  let kept := filter (fun d => d ∉ excluded) syms in
  let removed := filter (fun d => d ∈ excluded) syms in
  removeExcluded id syms excluded s
  = (kept,
     {| world := world s;
        trace := trace s ++ map (removedLine id) removed;
        rep := rep s;
        fixed := fixed s |})
  /\ forall s', removeExcluded id kept excluded s' = (kept, s').
Proof.
  intros kept removed. split; [apply removeExcluded_eq|].
  intros s'. rewrite removeExcluded_eq. subst kept.
  rewrite list_filter_filter.
  assert (Hnone : filter (fun d => d ∈ excluded) (filter (fun d => d ∉ excluded) syms) = []).
  { rewrite list_filter_filter. induction syms as [|d l IH]; [done|].
    rewrite filter_cons_False; [done|]. by intros [? ?]. }
  rewrite Hnone. cbn [map]. rewrite app_nil_r.
  replace (filter (fun x => (x ∉ excluded) /\ (x ∉ excluded)) syms)
    with (filter (fun d => d ∉ excluded) syms).
  - by destruct s'.
  - apply list_filter_iff. intros x. split; [intros H; by split|by intros [H _]].
Qed.

(** *** [checkSymbols]: every query has passed every gate *)

Lemma queries_checkPackage P i m0 j p :
  (forall level format args, level <> Err -> P (EvLog level format args)) ->
  (report.SkipFix p = "" -> forall m result, P (EvExported i j m p result)) ->
  preserves (emitting P) (checkPackage' i m0 j p).
Proof.
  intros Hlog Hexp. unfold checkPackage.
  destruct (String.eqb_spec (report.SkipFix p) "") as [Hskip|Hskip]; cbn [negb].
  - emitting_steps; try (by apply Hlog); try (by apply Hexp).
    by apply emitting_removeExcluded.
  - emitting_steps. by apply Hlog.
Qed.

Lemma queries_checkModule P i m :
  (forall level format args, level <> Err -> P (EvLog level format args)) ->
  ((IsFirstParty m = true ->
    semverForGoVersion runtime_Version <> ""
    /\ AffectsSemver (AffectedRanges RangeTypeSemver (report.Versions m))
                     (semverForGoVersion runtime_Version) = (true, None)) ->
   forall j p m' result,
     report.Packages m !! j = Some p -> report.SkipFix p = "" ->
     P (EvExported i j m' p result)) ->
  preserves (emitting P) (checkModule' i m).
Proof.
  intros Hlog Hexp.
  assert (Hpackages :
    (IsFirstParty m = true ->
     semverForGoVersion runtime_Version <> ""
     /\ AffectsSemver (AffectedRanges RangeTypeSemver (report.Versions m))
                      (semverForGoVersion runtime_Version) = (true, None)) ->
    preserves (emitting P) (forRange (checkPackage' i m) 0 (report.Packages m))).
  { intros Hgate. apply preserves_forRange; [emitting_side|emitting_side|].
    intros k p Hk. cbn [Nat.add]. apply queries_checkPackage; [done|].
    intros Hskip m' result. by apply Hexp. }
  unfold checkModule.
  destruct (IsFirstParty m) eqn:Hfp.
  - destruct (AffectsSemver _ _) as [affected [err|]] eqn:Haff.
    { emitting_steps. }
    destruct (String.eqb_spec (semverForGoVersion runtime_Version) "") as [Hver|Hver];
      cbn [orb].
    { emitting_steps. by apply Hlog. }
    destruct affected; cbn [negb].
    + emitting_steps; try (by apply Hlog). by apply Hpackages.
    + emitting_steps. by apply Hlog.
  - emitting_steps. by apply Hpackages.
Qed.

(** X2.  Every call of [symbols.Exported] that [checkSymbols] makes is for a
    package of the report as it was given, one without a [SkipFix] reason,
    in a report that is not excluded; and when the module of the package is
    first-party, the version of the running toolchain has parsed and is
    inside the module's ranges. *)
Theorem checkSymbols_queries s :
  let s' := (checkSymbols' s).2 in
  exists evs,
    trace s' = trace s ++ evs
    /\ forall i j m p result,
        EvExported i j m p result ∈ evs ->
        IsExcluded (rep s) = false
        /\ exists m0,
            report.Modules (rep s) !! i = Some m0
            /\ report.Packages m0 !! j = Some p
            /\ report.SkipFix p = ""
            /\ (IsFirstParty m0 = true ->
                semverForGoVersion runtime_Version <> ""
                /\ AffectsSemver (AffectedRanges RangeTypeSemver (report.Versions m0))
                                 (semverForGoVersion runtime_Version) = (true, None)).
Proof.
  cbv zeta.
  set (P := fun e =>
    match e with
    | EvExported i j _ p _ =>
        IsExcluded (rep s) = false
        /\ exists m0,
            report.Modules (rep s) !! i = Some m0
            /\ report.Packages m0 !! j = Some p
            /\ report.SkipFix p = ""
            /\ (IsFirstParty m0 = true ->
                semverForGoVersion runtime_Version <> ""
                /\ AffectsSemver (AffectedRanges RangeTypeSemver (report.Versions m0))
                                 (semverForGoVersion runtime_Version) = (true, None))
    | _ => True
    end).
  assert (H : emitting P s (checkSymbols' s).2).
  { unfold checkSymbols. rewrite bind_eq. cbn [getRep fst snd].
    destruct (IsExcluded (rep s)) eqn:Hexcl.
    - rewrite bind_eq. cbn [logf emit ret fst snd].
      eexists. split; [reflexivity|]. by constructor.
    - rewrite bind_eq.
      eapply emitting_trans;
        [|destruct (forRange _ _ _ s).1; apply emitting_refl].
      apply preserves_forRange; [exact (emitting_refl P)|exact (emitting_trans P)|].
      intros k m Hk. cbn [Nat.add]. apply queries_checkModule; [done|].
      intros Hgate j p m' result Hj Hskip. split; [done|]. by exists m. }
  destruct H as (evs & Ht & Hall). exists evs. split; [done|].
  intros i j m p result Hin.
  exact (proj1 (Forall_forall _ _) Hall _ Hin).
Qed.
(** *** The outcome of the pass *)

Lemma keepingFixed_refl s : keepingFixed s s.
Proof. done. Qed.

Lemma keepingFixed_trans s1 s2 s3 :
  keepingFixed s1 s2 -> keepingFixed s2 s3 -> keepingFixed s1 s3.
Proof. unfold keepingFixed. congruence. Qed.

Lemma keepingFixed_extern {A} (f : World -> A * World) : preserves keepingFixed (extern f).
Proof. intros s. by rewrite extern_eq. Qed.

Lemma keepingFixed_removeExcluded id syms excluded :
  preserves keepingFixed (removeExcluded (World := World) id syms excluded).
Proof.
  intros s. unfold removeExcluded. destruct (length excluded =? 0)%nat; [done|].
  by rewrite removeExcludedLoop_eq.
Qed.

Ltac fixed_steps :=
  preserves_struct
    ltac:(first [exact keepingFixed_refl | exact keepingFixed_trans]);
  try match goal with
    | |- preserves _ (extern _) => apply keepingFixed_extern
    | |- preserves _ (removeExcluded _ _ _) => apply keepingFixed_removeExcluded
    | |- preserves _ (setRep _) => by intros ?
    | |- preserves _ (modifyRep _) => by intros ?
    | |- preserves _ (logf _ _ _) => by intros ?
    | |- preserves _ (emit _) => by intros ?
    end.

Lemma keepingFixed_checkSymbols : preserves keepingFixed checkSymbols'.
Proof.
  unfold checkSymbols. fixed_steps.
  apply preserves_forRange; [exact keepingFixed_refl|exact keepingFixed_trans|].
  intros i m _. cbn [Nat.add].
  assert (Hpackages :
    preserves keepingFixed (forRange (checkPackage' i m) 0 (report.Packages m))).
  { apply preserves_forRange; [exact keepingFixed_refl|exact keepingFixed_trans|].
    intros j p _. unfold checkPackage. fixed_steps. }
  unfold checkModule. fixed_steps; done.
Qed.

Lemma lintAndFix_eq s :
  let lints := (Lint (rep s) (world s)).1 in
  trace (lintAndFix' s).2
  = trace s ++ EvLint (rep s) lints
            :: (if force || (0 <? length lints)%nat then [EvFix (rep s)] else [])
  /\ fixed (lintAndFix' s).2 = fixed s.
Proof.
  cbv zeta. unfold lintAndFix.
  rewrite bind_eq. cbn [getRep fst snd]. rewrite bind_eq, extern_eq. cbn [fst snd].
  rewrite bind_eq. cbn [emit fst snd].
  destruct (force || _); cbn [when ret snd trace fixed]; [|done].
  rewrite bind_eq, extern_eq. cbn [fst snd world trace rep fixed].
  rewrite bind_eq. cbn [emit setRep fst snd trace fixed].
  by rewrite <- app_assoc.
Qed.

Lemma keepingFixed_addMissingAliasesStep : preserves keepingFixed addMissingAliasesStep'.
Proof. unfold addMissingAliasesStep. fixed_steps. Qed.

Lemma checkSymbolsStep_fixed addNotes s :
  let s' := (checkSymbolsStep' addNotes s).2 in
  exists evs,
    trace s' = trace s ++ evs
    /\ (fixed s' = false -> fixed s = false \/ Exists isErrLine evs).
Proof.
  cbv zeta. unfold checkSymbolsStep. destruct skipSymbols; cbn [negb when].
  { exists []. split; [by rewrite app_nil_r|]. by left. }
  rewrite bind_eq. cbn [getRep fst snd]. rewrite bind_eq. cbn [logf emit fst snd].
  set (s1 := {| world := world s; trace := _; rep := rep s; fixed := fixed s |}).
  rewrite bind_eq.
  destruct (emitting_checkSymbols (fun _ => True)
              ltac:(done) ltac:(done) s1) as (evs & Ht & _).
  pose proof (keepingFixed_checkSymbols s1) as Hf. unfold keepingFixed in Hf.
  destruct (checkSymbols' s1).1 as [err|].
  - rewrite fixErr_eq. cbn [snd trace fixed]. eexists.
    split; [rewrite Ht; subst s1; cbn [trace]; by rewrite <- !app_assoc|].
    intros _. right. apply Exists_cons_tl, Exists_app. right. by constructor.
  - cbn [ret snd]. eexists.
    split; [rewrite Ht; subst s1; cbn [trace]; by rewrite <- !app_assoc|].
    rewrite Hf. by left.
Qed.

Lemma defect_in_refEvents refs :
  forall outcomes,
    length outcomes = length refs ->
    forallb (fun o => negb (defect o.2)) outcomes = false ->
    Exists isErrLine (concat (zip_with refEvents refs outcomes)).
Proof.
  induction refs as [|ref refs IH]; intros [|o outcomes] Hlen; try done.
  cbn. intros [Hd|Hrest]%andb_false_iff.
  - apply Exists_cons_tl, Exists_app. left.
    destruct (defect o.2); [|done]. constructor. unfold defectLog.
    by destruct o.2 as [? [?|]].
  - apply Exists_cons_tl, Exists_app. right. apply IH; [by injection Hlen|done].
Qed.

Lemma checkRefsStep_fixed addNotes s :
  let s' := (checkRefsStep' addNotes s).2 in
  exists evs,
    trace s' = trace s ++ evs
    /\ (fixed s' = false -> fixed s = false \/ Exists isErrLine evs).
Proof.
  cbv zeta. unfold checkRefsStep.
  rewrite bind_eq. cbn [getRep fst snd]. rewrite bind_eq. cbn [logf emit fst snd].
  set (s1 := {| world := world s; trace := _; rep := rep s; fixed := fixed s |}).
  destruct (checkRefs_run addNotes (report.References (rep s)) s1)
    as (outcomes & Hlen & Ht & Hf & _).
  eexists. split; [rewrite Ht; subst s1; cbn [trace]; by rewrite <- app_assoc|].
  rewrite Hf. intros [?|Hd]%andb_false_iff; [by left|right].
  apply Exists_cons_tl. by apply defect_in_refEvents.
Qed.

Lemma finalLint_false_eq s :
  let lints := (Lint (rep s) (world s)).1 in
  trace (finalLint' false s).2
  = trace s ++ EvLint (rep s) lints
            :: (if (0 <? length lints)%nat
                then [EvLog Warn ("%s: still has lint errors after fix:" +:+ LF
                                  +:+ String "009"%char "- %s")
                            [ArgS (report.ID (rep s)); ArgS (joinLints lints)]]
                else [])
  /\ fixed (finalLint' false s).2 = (if (0 <? length lints)%nat then false else fixed s).
Proof.
  cbv zeta. unfold finalLint.
  rewrite bind_eq. cbn [getRep fst snd]. rewrite bind_eq, extern_eq. cbn [fst snd].
  rewrite bind_eq. cbn [emit fst snd].
  destruct (0 <? _)%nat; cbn [when];
    rewrite ?bind_eq; cbn [logf emit setFixed ret fst snd trace fixed rep];
    by rewrite <- ?app_assoc.
Qed.

(** X6.  The pass without notes returns true exactly when it has logged no
    error line and its last act is a lint that finds nothing. *)
Theorem fixer_fix_succeeds_iff s evs :
  let ok := (fixer_fix' false s).1 in
  let s' := (fixer_fix' false s).2 in
  trace s' = trace s ++ evs ->
  ok = true
  <-> Forall (fun e => ~ isErrLine e) evs /\ exists pre r, evs = pre ++ [EvLint r []].
Proof.
  cbv zeta. intros Htrace.
  pose proof (fixer_fix_reports_failure s evs) as Hfail. cbv zeta in Hfail.
  specialize (Hfail Htrace). destruct Hfail as [Herr _].
  revert Htrace Herr.
  unfold fixer_fix. rewrite !bind_eq. cbn [setFixed getFixed fst snd].
  set (s0 := {| world := world s; trace := trace s; rep := rep s; fixed := true |}).
  set (s1 := (lintAndFix' s0).2).
  set (s2 := (checkSymbolsStep' false s1).2).
  set (s3 := (addMissingAliasesStep' s2).2).
  set (s4 := (checkRefsStep' false s3).2).
  set (s5 := (finalLint' false s4).2).
  intros Htrace Herr.
  destruct (lintAndFix_eq s0) as [Ht1 Hf1].
  destruct (checkSymbolsStep_fixed false s1) as (e1 & Ht2 & Hsym).
  destruct (emitting_addMissingAliasesStep (fun _ => True) ltac:(done) ltac:(done) s2)
    as (eA & Ht3 & _).
  pose proof (keepingFixed_addMissingAliasesStep s2) as Hf3. unfold keepingFixed in Hf3.
  destruct (checkRefsStep_fixed false s3) as (eR & Ht4 & Hrefs).
  destruct (finalLint_false_eq s4) as [Ht5 Hf5].
  fold s1 in Ht1, Hf1. fold s2 in Ht2, Hsym. fold s3 in Ht3, Hf3.
  fold s4 in Ht4, Hrefs. fold s5 in Ht5, Hf5.
  change (trace s0) with (trace s) in Ht1. change (fixed s0) with true in Hf1.
  set (lints4 := (Lint (rep s4) (world s4)).1) in *.
  set (e0 := EvLint (rep s0) _ :: _) in Ht1.
  set (warn := EvLog Warn _ _) in Ht5.
  assert (Hall : evs = (e0 ++ e1 ++ eA ++ eR)
                       ++ EvLint (rep s4) lints4
                          :: (if (0 <? length lints4)%nat then [warn] else [])).
  { apply (app_inv_head (trace s)). rewrite <- Htrace, Ht5, Ht4, Ht3, Ht2, Ht1.
    by rewrite <- !app_assoc. }
  split.
  - intros Hok. split.
    + apply Forall_Exists_neg. intros H. apply Herr in H. congruence.
    + rewrite Hok in Hf5. destruct lints4 as [|l lints4]; [|done].
      exists (e0 ++ e1 ++ eA ++ eR), (rep s4). exact Hall.
  - intros [Hclean (pre & r & Hlast)].
    assert (Hlints : lints4 = []).
    { rewrite Hall in Hlast. destruct lints4 as [|l lints4]; [done|]. exfalso.
      cbn [length Nat.ltb Nat.leb] in Hlast.
      change (?a ++ ?x :: [warn]) with (a ++ [x] ++ [warn]) in Hlast.
      rewrite !app_assoc in Hlast. by apply app_inj_tail in Hlast as [_ ?]. }
    rewrite Hf5, Hlints. cbn.
    rewrite Hall in Hclean.
    apply Forall_app in Hclean as [Hclean _].
    apply Forall_app in Hclean as [_ Hclean].
    apply Forall_app in Hclean as [Hc1 Hclean].
    apply Forall_app in Hclean as [_ HcR].
    destruct (fixed s4) eqn:Hf4; [done|]. exfalso.
    destruct (Hrefs eq_refl) as [Hf|Hex];
      [|by apply Forall_Exists_neg in HcR].
    rewrite Hf3 in Hf.
    destruct (Hsym Hf) as [Hf'|Hex];
      [congruence|by apply Forall_Exists_neg in Hc1].
Qed.

Lemma finalLint_false_state s :
  rep (finalLint' false s).2 = rep s
  /\ world (finalLint' false s).2 = (Lint (rep s) (world s)).2.
Proof.
  unfold finalLint.
  rewrite bind_eq. cbn [getRep fst snd]. rewrite bind_eq, extern_eq. cbn [fst snd].
  rewrite bind_eq. cbn [emit fst snd].
  destruct (0 <? _)%nat; cbn [when];
    rewrite ?bind_eq; by cbn [logf emit setFixed ret fst snd rep world].
Qed.

(** The pass without notes ends with a lint of the report as it leaves it,
    and fails exactly when it has logged an error line before, or that lint
    finds something. *)
Lemma fixer_fix_outcome s :
  let ok := (fixer_fix' false s).1 in
  let s' := (fixer_fix' false s).2 in
  exists w pre tail,
    let lints := (Lint (rep s') w).1 in
    trace s' = trace s ++ pre ++ EvLint (rep s') lints :: tail
    /\ world s' = (Lint (rep s') w).2
    /\ Forall (fun e => ~ isLint e) tail
    /\ Forall (fun e => ~ isErrLine e) tail
    /\ (ok = false <-> Exists isErrLine pre \/ lints <> []).
Proof.
  cbv zeta.
  unfold fixer_fix. rewrite !bind_eq. cbn [setFixed getFixed fst snd].
  set (s0 := {| world := world s; trace := trace s; rep := rep s; fixed := true |}).
  set (s1 := (lintAndFix' s0).2).
  set (s2 := (checkSymbolsStep' false s1).2).
  set (s3 := (addMissingAliasesStep' s2).2).
  set (s4 := (checkRefsStep' false s3).2).
  set (s5 := (finalLint' false s4).2).
  destruct (lintAndFix_eq s0) as [Ht1 Hf1].
  destruct (checkSymbolsStep_fixed false s1) as (e1 & Ht2 & Hsym).
  destruct (checkSymbolsStep_errLine false s1) as (e1' & Ht2' & Hsym').
  destruct (emitting_addMissingAliasesStep (fun e => ~ isErrLine e)
              ltac:(intros [] ? ? ?; kind_solve) ltac:(intros; kind_solve) s2)
    as (eA & Ht3 & HcA).
  pose proof (keepingFixed_addMissingAliasesStep s2) as Hf3. unfold keepingFixed in Hf3.
  destruct (checkRefsStep_fixed false s3) as (eR & Ht4 & Hrefs).
  destruct (checkRefsStep_errLine false s3) as (eR' & Ht4' & Hrefs').
  destruct (finalLint_false_eq s4) as [Ht5 Hf5].
  destruct (finalLint_false_state s4) as [Hr5 Hw5].
  fold s1 in Ht1, Hf1. fold s2 in Ht2, Hsym, Ht2', Hsym'. fold s3 in Ht3, Hf3.
  fold s4 in Ht4, Hrefs, Ht4', Hrefs'. fold s5 in Ht5, Hf5, Hr5, Hw5.
  change (trace s0) with (trace s) in Ht1. change (fixed s0) with true in Hf1.
  assert (e1' = e1) as -> by (apply (app_inv_head (trace s1)); congruence).
  assert (eR' = eR) as -> by (apply (app_inv_head (trace s3)); congruence).
  set (e0 := EvLint (rep s0) _ :: _) in Ht1.
  assert (Hc0 : Forall (fun e => ~ isErrLine e) e0).
  { subst e0. constructor; [kind_solve|].
    destruct (force || _); [constructor; [kind_solve|]|]; constructor. }
  exists (world s4), (e0 ++ e1 ++ eA ++ eR). rewrite Hr5.
  set (lints4 := (Lint (rep s4) (world s4)).1) in *.
  eexists. split; [|split; [exact Hw5|]].
  { rewrite Ht5, Ht4, Ht3, Ht2, Ht1. by rewrite <- !app_assoc. }
  split; [destruct (0 <? length lints4)%nat; repeat constructor; kind_solve|].
  split; [destruct (0 <? length lints4)%nat; repeat constructor; kind_solve|].
  rewrite Hf5. split.
  - intros Hfalse. destruct lints4 as [|l lints4]; [|by right]. left.
    cbn in Hfalse.
    destruct (Hrefs Hfalse) as [Hf|Hex];
      [|by repeat (apply Exists_app; right)].
    rewrite Hf3 in Hf.
    destruct (Hsym Hf) as [Hf'|Hex]; [congruence|].
    apply Exists_app; right. apply Exists_app. by left.
  - intros [Hex|Hne]; [|by destruct lints4].
    rewrite <- Hf5.
    apply Exists_app in Hex as [Hex|Hex].
    { apply Exists_exists in Hex as (e & Hin & He).
      by apply (proj1 (Forall_forall _ _) Hc0) in Hin. }
    apply Exists_app in Hex as [Hex|Hex].
    { pose proof (stayingFailed_rest false s2 (Hsym' Hex)) as Hf.
      by rewrite !bind_eq in Hf. }
    apply Exists_app in Hex as [Hex|Hex].
    { apply Exists_exists in Hex as (e & Hin & He).
      by apply (proj1 (Forall_forall _ _) HcA) in Hin. }
    rewrite Hf5, (Hrefs' Hex). by destruct (0 <? length lints4)%nat.
Qed.

(** *** What the pass does at most once, and what the flags switch off *)

(** X7.  The pass begins with a lint of the report as it was given. [Fix] is
    run next when [-f] is set or that lint has found something, and at no
    other time. *)
Theorem fixer_fix_fixes_first addNotes s :
  let lints := (Lint (rep s) (world s)).1 in
  exists rest,
    trace (fixer_fix' addNotes s).2
    = trace s ++ EvLint (rep s) lints
              :: (if force || (0 <? length lints)%nat then [EvFix (rep s)] else [])
              ++ rest
    /\ Forall (fun e => ~ isFix e) rest.
Proof.
  cbv zeta. unfold fixer_fix. rewrite !bind_eq. cbn [setFixed getFixed fst snd].
  set (s0 := {| world := world s; trace := trace s; rep := rep s; fixed := true |}).
  set (s1 := (lintAndFix' s0).2).
  set (s2 := (checkSymbolsStep' addNotes s1).2).
  set (s3 := (addMissingAliasesStep' s2).2).
  set (s4 := (checkRefsStep' addNotes s3).2).
  set (s5 := (finalLint' addNotes s4).2).
  destruct (lintAndFix_eq s0) as [Ht1 _].
  destruct (emitting_checkSymbolsStep (fun e => ~ isFix e) addNotes
              ltac:(intros; kind_solve) ltac:(intros; kind_solve)
              ltac:(intros; kind_solve) s1) as (e1 & Ht2 & Hc1).
  destruct (emitting_addMissingAliasesStep (fun e => ~ isFix e)
              ltac:(intros; kind_solve) ltac:(intros; kind_solve) s2) as (eA & Ht3 & HcA).
  destruct (emitting_checkRefsStep (fun e => ~ isFix e) addNotes
              ltac:(intros; kind_solve) ltac:(intros; kind_solve)
              ltac:(intros; kind_solve) s3) as (eR & Ht4 & HcR).
  destruct (emitting_finalLint (fun e => ~ isFix e) addNotes
              ltac:(intros; kind_solve) ltac:(intros; kind_solve) ltac:(intros; kind_solve) s4)
    as (eF & Ht5 & HcF).
  fold s1 in Ht1. fold s2 in Ht2. fold s3 in Ht3. fold s4 in Ht4. fold s5 in Ht5.
  exists (e1 ++ eA ++ eR ++ eF). split; [|by repeat apply Forall_app_2].
  rewrite Ht5, Ht4, Ht3, Ht2, Ht1. cbn [trace rep world].
  by rewrite <- !app_assoc.
Qed.

(** X8.  With [-skip-symbols] the pass never calls [symbols.Exported]; with
    [-skip-alias] it never calls the alias finder. *)
Theorem fixer_fix_skips addNotes s :
  (skipSymbols = true ->
   emitting (fun e => ~ isExported e) s (fixer_fix' addNotes s).2)
  /\ (skipAlias = true ->
      emitting (fun e => ~ isAddMissingAliases e) s (fixer_fix' addNotes s).2).
Proof.
  split; intros Hskip; revert s.
  - change (preserves (emitting (fun e => ~ isExported e)) (fixer_fix' addNotes)).
    unfold fixer_fix. emitting_steps.
    + apply emitting_lintAndFix; intros; kind_solve.
    + unfold checkSymbolsStep. rewrite Hskip. cbn [negb when]. emitting_steps.
    + apply emitting_addMissingAliasesStep; intros; kind_solve.
    + apply emitting_checkRefsStep; intros; kind_solve.
    + apply emitting_finalLint; intros; kind_solve.
  - change (preserves (emitting (fun e => ~ isAddMissingAliases e))
                      (fixer_fix' addNotes)).
    unfold fixer_fix. emitting_steps.
    + apply emitting_lintAndFix; intros; kind_solve.
    + apply emitting_checkSymbolsStep; intros; kind_solve.
    + unfold addMissingAliasesStep. rewrite Hskip. cbn [negb when]. emitting_steps.
    + apply emitting_checkRefsStep; intros; kind_solve.
    + apply emitting_finalLint; intros; kind_solve.
Qed.

(** *** [checkSymbols]: what a query that went through leaves *)

Lemma packageAt_setDerivedSymbols i j syms r p :
  packageAt i j r = Some p ->
  packageAt i j (setDerivedSymbols i j syms r) = Some (setPackageDerivedSymbols syms p).
Proof.
  unfold packageAt, setDerivedSymbols. cbn [setModules report.Modules].
  rewrite list_lookup_alter_eq.
  destruct (report.Modules r !! i) as [m|]; [|done]. cbn.
  rewrite list_lookup_alter_eq. by intros ->.
Qed.

Lemma packageAt_setDerivedSymbols_ne i j i' j' syms r :
  (i', j') <> (i, j) ->
  packageAt i' j' (setDerivedSymbols i j syms r) = packageAt i' j' r.
Proof.
  intros Hne. unfold packageAt, setDerivedSymbols. cbn [setModules report.Modules].
  destruct (decide (i = i')) as [<-|Hi].
  - rewrite list_lookup_alter_eq.
    destruct (report.Modules r !! i) as [m|]; [|done]. cbn.
    rewrite list_lookup_alter_ne; [done|]. congruence.
  - by rewrite list_lookup_alter_ne.
Qed.

Lemma setPackageDerivedSymbols_same p :
  setPackageDerivedSymbols (report.DerivedSymbols p) p = p.
Proof. by destruct p. Qed.

Lemma refreshed_weaken (Q Q' : nat -> nat -> Prop) s s' :
  (forall i j, Q i j -> Q' i j) -> refreshed Q s s' -> refreshed Q' s s'.
Proof.
  intros HQ (evs & Ht & Hat & Hok & Hkeep). exists evs.
  split; [done|]. split; [|done]. intros i j m p result Hin. eapply HQ, Hat, Hin.
Qed.

(** A step that makes no call and leaves the report alone. *)
Lemma refreshed_quiet Q s s' :
  emitting (fun e => ~ isExported e) s s' -> rep s' = rep s -> refreshed Q s s'.
Proof.
  intros (evs & Ht & Hall) Hrep. exists evs. split; [done|].
  assert (Hno : forall i j m p result, EvExported i j m p result ∉ evs).
  { intros i j m p result Hin.
    by apply (proj1 (Forall_forall _ _) Hall) in Hin. }
  split; [|split].
  - intros i j m p result Hin. by apply Hno in Hin.
  - intros i j m p syms Hin. by apply Hno in Hin.
  - intros i j _. by rewrite Hrep.
Qed.

(** Two runs in a row that call for different places. *)
Lemma refreshed_trans (Q1 Q2 : nat -> nat -> Prop) s1 s2 s3 :
  (forall i j, Q1 i j -> Q2 i j -> False) ->
  refreshed Q1 s1 s2 -> refreshed Q2 s2 s3 ->
  refreshed (fun i j => Q1 i j \/ Q2 i j) s1 s3.
Proof.
  intros Hdisj (e1 & Ht1 & Hat1 & Hok1 & Hkeep1) (e2 & Ht2 & Hat2 & Hok2 & Hkeep2).
  exists (e1 ++ e2). split; [by rewrite Ht2, Ht1, app_assoc|]. split; [|split].
  - intros i j m p result [Hin|Hin]%elem_of_app; [left|right]; eauto.
  - intros i j m p syms [Hin|Hin]%elem_of_app; [|eauto].
    rewrite Hkeep2; [eauto|].
    intros m' p' syms' Hin'. eapply Hdisj; eauto.
  - intros i j Hno. rewrite Hkeep2, Hkeep1; [done| |].
    + intros m p syms Hin. eapply Hno, elem_of_app. by left.
    + intros m p syms Hin. eapply Hno, elem_of_app. by right.
Qed.

Lemma refreshed_checkPackage i m0 j p s :
  packageAt i j (rep s) = Some p ->
  refreshed (fun i' j' => i' = i /\ j' = j) s (checkPackage' i m0 j p s).2.
Proof.
  intros Hp. unfold checkPackage. rewrite bind_eq. cbn [getRep fst snd].
  destruct (negb (report.SkipFix p =? "")).
  { rewrite bind_eq. cbn [logf emit ret fst snd].
    apply refreshed_quiet; [|done]. eexists. split; [reflexivity|].
    constructor; [kind_solve|constructor]. }
  rewrite bind_eq, extern_eq. cbn [fst snd]. rewrite bind_eq. cbn [emit fst snd].
  set (m := default m0 (report.Modules (rep s) !! i)).
  destruct (Exported m p (world s)) as [[syms [err|]] w] eqn:Hexp; cbn [fst snd].
  { cbn [ret snd]. exists [EvExported i j m p (syms, Some err)].
    split; [done|]. split; [|split].
    - by intros i' j' m' p' result [= -> -> _ _ _]%list_elem_of_singleton.
    - by intros i' j' m' p' syms' [=]%list_elem_of_singleton.
    - done. }
  rewrite bind_eq, removeExcluded_eq. cbn [fst snd].
  set (kept := filter (fun d => d ∉ report.ExcludedSymbols p) syms).
  set (logs := map _ _).
  rewrite bind_eq.
  assert (Hlogs : Forall (fun e => ~ isExported e) logs).
  { subst logs. apply Forall_fmap, Forall_forall. intros d _. kind_solve. }
  case_bool_decide as Hsame; cbn [negb when].
  - (* the symbols are those the package has *)
    cbn [ret snd]. eexists (EvExported i j m p (syms, None) :: logs).
    split; [cbn [trace]; by rewrite <- app_assoc|]. cbn [rep].
    assert (Hin : forall i' j' m' p' result,
      EvExported i' j' m' p' result ∈ EvExported i j m p (syms, None) :: logs ->
      i' = i /\ j' = j /\ p' = p /\ result = (syms, None)).
    { intros i' j' m' p' result [Heq|Hin]%elem_of_cons; [by injection Heq as -> -> _ -> ->|].
      by apply (proj1 (Forall_forall _ _) Hlogs) in Hin. }
    split; [|split].
    + intros i' j' m' p' result (-> & -> & _)%Hin. done.
    + intros i' j' m' p' syms' (-> & -> & -> & [= ->])%Hin.
      unfold refreshedPackage. fold kept. by rewrite Hsame, setPackageDerivedSymbols_same.
    + done.
  - rewrite bind_eq. cbn [modifyRep logf emit ret fst snd].
    eexists (EvExported i j m p (syms, None) :: logs ++ [_]).
    split; [cbn [trace]; by rewrite <- !app_assoc|]. cbn [rep].
    assert (Hin : forall i' j' m' p' result,
      EvExported i' j' m' p' result
        ∈ EvExported i j m p (syms, None)
          :: logs ++ [EvLog Info "%s: updated derived symbols for package %s"
                            [ArgS (report.ID (rep s)); ArgS (report.Package' p)]] ->
      i' = i /\ j' = j /\ p' = p /\ result = (syms, None)).
    { intros i' j' m' p' result [Heq|Hin]%elem_of_cons; [by injection Heq as -> -> _ -> ->|].
      apply elem_of_app in Hin as [Hin|Hin].
      - by apply (proj1 (Forall_forall _ _) Hlogs) in Hin.
      - by apply list_elem_of_singleton in Hin. }
    split; [|split].
    + intros i' j' m' p' result (-> & -> & _)%Hin. done.
    + intros i' j' m' p' syms' (-> & -> & -> & [= ->])%Hin.
      by apply packageAt_setDerivedSymbols.
    + intros i' j' Hno. apply packageAt_setDerivedSymbols_ne.
      intros [= -> ->]. eapply Hno, list_elem_of_here.
Qed.

Lemma refreshed_checkPackages i m0 ps :
  forall j0 s,
    (forall k p, ps !! k = Some p -> packageAt i (j0 + k) (rep s) = Some p) ->
    refreshed (fun i' j' => i' = i /\ j0 <= j')
              s (forRange (checkPackage' i m0) j0 ps s).2.
Proof.
  induction ps as [|p ps IH]; intros j0 s Hps.
  - cbn [forRange ret snd]. apply refreshed_quiet; [apply emitting_refl|done].
  - cbn [forRange]. rewrite bind_eq.
    pose proof (refreshed_checkPackage i m0 j0 p s) as Hbody.
    specialize (Hps 0 p eq_refl) as Hp0. rewrite Nat.add_0_r in Hp0.
    specialize (Hbody Hp0).
    destruct (checkPackage' i m0 j0 p s).1 as [|err].
    + eapply refreshed_weaken;
        [|eapply (refreshed_trans _ _ _ _ _ _ Hbody), (IH (S j0))].
      * intros i' j' [[-> ->]|[-> ?]]; split; [done|lia|done|lia].
      * intros k p' Hk.
        destruct Hbody as (evs & _ & Hat & _ & Hkeep).
        rewrite Hkeep.
        -- specialize (Hps (S k) p' Hk). by rewrite Nat.add_succ_r in Hps.
        -- intros m' p'' syms Hin. apply Hat in Hin as [_ ?]. lia.
    + cbn [ret snd]. eapply refreshed_weaken; [|exact Hbody].
      intros i' j' [-> ->]. split; [done|lia].
  Unshelve. intros i' j' [_ ->] [_ ?]. lia.
Qed.

Lemma refreshed_checkModule i m s :
  (forall j p, report.Packages m !! j = Some p -> packageAt i j (rep s) = Some p) ->
  refreshed (fun i' _ => i' = i) s (checkModule' i m s).2.
Proof.
  intros Hm.
  assert (Hpackages : forall s1,
    rep s1 = rep s ->
    refreshed (fun i' _ => i' = i)
              s1 (forRange (checkPackage' i m) 0 (report.Packages m) s1).2).
  { intros s1 Hrep. eapply refreshed_weaken; [|apply refreshed_checkPackages].
    - by intros i' j' [-> _].
    - intros k p Hk. rewrite Hrep. by apply Hm. }
  unfold checkModule. rewrite bind_eq. cbn [getRep fst snd].
  destruct (IsFirstParty m); [|by apply Hpackages].
  destruct (AffectsSemver _ _) as [affected [err|]].
  { cbn [ret snd]. apply refreshed_quiet; [apply emitting_refl|done]. }
  destruct (_ || _).
  { rewrite bind_eq. cbn [logf emit ret fst snd].
    apply refreshed_quiet; [|done]. eexists. split; [reflexivity|].
    constructor; [kind_solve|constructor]. }
  rewrite bind_eq.
  destruct (negb _); cbn [when ret logf emit fst snd]; [|by apply Hpackages].
  eapply refreshed_weaken;
    [|eapply (refreshed_trans (fun _ _ => False) (fun i' _ => i' = i));
      [| |apply Hpackages]].
  - intros i' j' [Hf|Hi]; [destruct Hf|exact Hi].
  - by intros i' j' [].
  - apply refreshed_quiet; [|done]. eexists. split; [reflexivity|].
    constructor; [kind_solve|constructor].
  - done.
Qed.

Lemma refreshed_checkModules ms :
  forall i0 s,
    (forall k m j p,
        ms !! k = Some m -> report.Packages m !! j = Some p ->
        packageAt (i0 + k) j (rep s) = Some p) ->
    refreshed (fun i' _ => i0 <= i') s (forRange checkModule' i0 ms s).2.
Proof.
  induction ms as [|m ms IH]; intros i0 s Hms.
  - cbn [forRange ret snd]. apply refreshed_quiet; [apply emitting_refl|done].
  - cbn [forRange]. rewrite bind_eq.
    assert (Hbody : refreshed (fun i' _ => i' = i0) s (checkModule' i0 m s).2).
    { apply refreshed_checkModule. intros j p Hj.
      specialize (Hms 0 m j p eq_refl Hj). by rewrite Nat.add_0_r in Hms. }
    destruct (checkModule' i0 m s).1 as [|err].
    + eapply refreshed_weaken;
        [|eapply (refreshed_trans _ _ _ _ _ _ Hbody), (IH (S i0))].
      * intros i' j' [->|?]; lia.
      * intros k m' j p Hk Hj.
        destruct Hbody as (evs & _ & Hat & _ & Hkeep).
        rewrite Hkeep.
        -- specialize (Hms (S k) m' j p Hk Hj). by rewrite Nat.add_succ_r in Hms.
        -- intros m'' p'' syms Hin. apply Hat in Hin. lia.
    + cbn [ret snd]. eapply refreshed_weaken; [|exact Hbody].
      intros i' j' ->. lia.
  Unshelve. cbn. intros i' j' -> ?. lia.
Qed.


Lemma clearDerived_setDerivedSymbols i j syms r :
  clearDerived (setDerivedSymbols i j syms r) = clearDerived r.
Proof.
  unfold clearDerived, setDerivedSymbols, setModules. cbn. f_equal.
  change (map ?f ?l) with (f <$> l).
  rewrite (list_fmap_alter _ _ id).
  - by rewrite list_alter_id.
  - apply Forall_forall. intros m _. unfold setModulePackages. cbn. f_equal.
    change (map ?f ?l) with (f <$> l).
    rewrite (list_fmap_alter _ _ id).
    + by rewrite list_alter_id.
    + apply Forall_forall. by intros p _.
Qed.

(** X4.  Nothing of the report but the [DerivedSymbols] of its packages is
    changed by [checkSymbols], and the variable [fixed] is left alone. *)
Theorem checkSymbols_only_derived s :
  let s' := (checkSymbols' s).2 in
  clearDerived (rep s') = clearDerived (rep s) /\ fixed s' = fixed s.
Proof.
  cbv zeta. split; [|apply keepingFixed_checkSymbols].
  revert s. change (preserves keepingAllButDerived checkSymbols').
  assert (Hrefl : forall s : State World, keepingAllButDerived s s) by done.
  assert (Htrans : forall s1 s2 s3 : State World,
    keepingAllButDerived s1 s2 -> keepingAllButDerived s2 s3 ->
    keepingAllButDerived s1 s3)
    by (unfold keepingAllButDerived; congruence).
  assert (Hexcl : forall id syms excluded,
    preserves keepingAllButDerived (removeExcluded (World := World) id syms excluded)).
  { intros id syms excluded s. by rewrite removeExcluded_eq. }
  unfold checkSymbols.
  preserves_struct ltac:(first [exact Hrefl | exact Htrans]); try (by intros ?).
  apply preserves_forRange; [exact Hrefl|exact Htrans|].
  intros i m _. cbn [Nat.add].
  assert (Hpackages :
    preserves keepingAllButDerived
              (forRange (checkPackage' i m) 0 (report.Packages m))).
  { apply preserves_forRange; [exact Hrefl|exact Htrans|].
    intros j p _. unfold checkPackage.
    preserves_struct ltac:(first [exact Hrefl | exact Htrans]);
      try apply Hexcl; try (by intros ?).
    - intros s. by rewrite extern_eq.
    - intros s. unfold keepingAllButDerived. cbn.
      apply clearDerived_setDerivedSymbols. }
  unfold checkModule.
  preserves_struct ltac:(first [exact Hrefl | exact Htrans]);
    try done; by intros ?.
Qed.

(** *** [checkSymbols]: where an error comes from *)

Lemma forRange_Return {A} (body : nat -> A -> M World Flow) (l : list A) :
  (forall i x, preserves (emitting (fun _ => True)) (body i x)) ->
  forall i s err,
    (forRange body i l s).1 = Return err ->
    exists k x s1 evs0,
      l !! k = Some x
      /\ trace s1 = trace s ++ evs0
      /\ body (i + k) x s1 = (Return err, (forRange body i l s).2).
Proof.
  intros Hbody. induction l as [|x l IH]; intros i s err; cbn [forRange]; [done|].
  rewrite bind_eq. destruct (body i x s) as [[|err'] s1] eqn:Hrun; cbn [fst snd].
  - intros (k & x' & s2 & evs0 & Hk & Ht & Hret)%IH.
    destruct (Hbody i x s) as (evs1 & Ht1 & _). rewrite Hrun in Ht1. cbn in Ht1.
    exists (S k), x', s2, (evs1 ++ evs0). split; [done|].
    split; [by rewrite Ht, Ht1, app_assoc|]. by rewrite Nat.add_succ_r.
  - cbn [ret fst snd]. intros [= ->].
    exists 0, x, s, []. split; [done|]. split; [by rewrite app_nil_r|].
    by rewrite Nat.add_0_r.
Qed.

Lemma checkPackage_Return i m0 j p s err :
  (checkPackage' i m0 j p s).1 = Return err ->
  exists m syms e,
    err = Some (packageError p e)
    /\ trace (checkPackage' i m0 j p s).2
       = trace s ++ [EvExported i j m p (syms, Some e)].
Proof.
  unfold checkPackage. rewrite bind_eq. cbn [getRep fst snd].
  destruct (negb _); [by rewrite bind_eq|].
  rewrite bind_eq, extern_eq. cbn [fst snd]. rewrite bind_eq. cbn [emit fst snd].
  destruct (Exported _ p (world s)) as [[syms [e|]] w]; cbn [fst snd].
  - cbn [ret fst snd trace]. intros [= <-]. by eexists _, _, _.
  - by rewrite !bind_eq.
Qed.

Lemma checkModule_Return i m s err :
  (checkModule' i m s).1 = Return err ->
  (exists affected e,
      err = Some e
      /\ IsFirstParty m = true
      /\ AffectsSemver (AffectedRanges RangeTypeSemver (report.Versions m))
                       (semverForGoVersion runtime_Version) = (affected, Some e))
  \/ (exists evs0 j m' p syms e,
        err = Some (packageError p e)
        /\ trace (checkModule' i m s).2
           = trace s ++ evs0 ++ [EvExported i j m' p (syms, Some e)]).
Proof.
  assert (Hpackages : forall s1 evs1,
    trace s1 = trace s ++ evs1 ->
    (forRange (checkPackage' i m) 0 (report.Packages m) s1).1 = Return err ->
    exists evs0 j m' p syms e,
      err = Some (packageError p e)
      /\ trace (forRange (checkPackage' i m) 0 (report.Packages m) s1).2
         = trace s ++ evs0 ++ [EvExported i j m' p (syms, Some e)]).
  { intros s1 evs1 Ht1 Hret.
    apply forRange_Return in Hret as (j & p & s2 & evs0 & _ & Ht2 & Hrun);
      [|intros; by apply emitting_checkPackage].
    cbn [Nat.add] in Hrun.
    destruct (checkPackage_Return i m j p s2 err) as (m' & syms & e & -> & Ht);
      [by rewrite Hrun|].
    rewrite Hrun in Ht. cbn [snd] in Ht.
    exists (evs1 ++ evs0), j, m', p, syms, e. split; [done|].
    by rewrite Ht, Ht2, Ht1, <- !app_assoc. }
  unfold checkModule. rewrite bind_eq. cbn [getRep fst snd].
  destruct (IsFirstParty m).
  - destruct (AffectsSemver _ _) as [affected [e|]].
    { cbn [ret fst]. intros [= <-]. left. by exists affected, e. }
    destruct (_ || _); [by rewrite bind_eq|].
    rewrite bind_eq. intros Hret. right.
    destruct (negb _); cbn [when logf emit ret fst snd] in *.
    + by eapply Hpackages.
    + eapply (Hpackages s []); [by rewrite app_nil_r|done].
  - intros Hret. right. eapply (Hpackages s []); [by rewrite app_nil_r|done].
Qed.

(** X5.  When [checkSymbols] returns nil, every call of [symbols.Exported]
    it has made went through. When it returns an error, that is the error of
    a call of [symbols.Exported] that failed, with the package path put
    before it -- the call is then the last thing [checkSymbols] has done --
    or the error [osvutils.AffectsSemver] has returned for a first-party
    module of the report. *)
Theorem checkSymbols_errors s :
  let res := (checkSymbols' s).1 in
  let s' := (checkSymbols' s).2 in
  exists evs,
    trace s' = trace s ++ evs
    /\ match res with
       | None => Forall (fun e => ~ isFailedExport e) evs
       | Some err =>
           (exists evs0 i j m p syms e,
               evs = evs0 ++ [EvExported i j m p (syms, Some e)]
               /\ err = packageError p e)
           \/ (exists i m affected,
                 report.Modules (rep s) !! i = Some m
                 /\ IsFirstParty m = true
                 /\ AffectsSemver (AffectedRanges RangeTypeSemver (report.Versions m))
                                  (semverForGoVersion runtime_Version)
                    = (affected, Some err))
       end.
Proof.
  cbv zeta.
  destruct (endsAtFailure_checkSymbols s) as (evs & Ht & Hlast). unfold id in Hlast.
  exists evs. split; [done|].
  destruct (checkSymbols' s).1 as [err|] eqn:Hres.
  2: { by destruct Hlast as [?|(? & ? & ? & ? & ? & ? & ? & _ & _ & ?)]. }
  revert Ht Hres. unfold checkSymbols. rewrite bind_eq. cbn [getRep fst snd].
  destruct (IsExcluded (rep s)); [by rewrite bind_eq|].
  rewrite bind_eq.
  destruct (forRange _ _ _ s) as [flow s1] eqn:Hloop. cbn [fst snd ret].
  intros Ht Hres. destruct flow as [|res]; [done|]. cbn in Hres. subst res.
  assert (Hret : (forRange checkModule' 0 (report.Modules (rep s)) s).1
                 = Return (Some err)) by (by rewrite Hloop).
  apply forRange_Return in Hret as (i & m & s2 & evs0 & Hi & Ht2 & Hrun);
    [|intros; by apply emitting_checkModule].
  rewrite Hloop in Hrun. cbn [Nat.add snd] in Hrun.
  destruct (checkModule_Return i m s2 (Some err))
    as [(affected & e & [= <-] & Hfp & Haff)
       |(evs1 & j & m' & p & syms & e & [= ->] & Ht3)];
    [by rewrite Hrun| |].
  - right. by exists i, m, affected.
  - left. rewrite Hrun in Ht3. cbn [snd] in Ht3.
    exists (evs0 ++ evs1), i, j, m', p, syms, e. split; [|done].
    cbn [ret snd] in Ht. apply (app_inv_head (trace s)).
    by rewrite <- Ht, Ht3, Ht2, <- !app_assoc.
Qed.

(** *** [fixAndWriteAll]: what it returns *)

(** X10.  [fixAndWriteAll] returns nil exactly when the pass has succeeded
    and both writes went through. After a pass that succeeded and a write
    that went through, the derived files are written next, from the report
    just written, and what that returns is returned; an error of the write
    of the report is returned at once, whatever the pass has returned. *)
Theorem fixAndWriteAll_returns s :
  let ok := (fixer_fix' false s).1 in
  let s1 := (fixer_fix' false s).2 in
  let r := rep s1 in
  let werr := (write r (world s1)).1 in
  let derr := (writeDerived r (write r (world s1)).2).1 in
  let out := fixAndWriteAll' s in
  (out.1 = None <-> ok = true /\ werr = None /\ derr = None)
  /\ (ok = true -> werr = None ->
      out.1 = derr
      /\ trace out.2 = trace s1 ++ [EvWrite r None; EvWriteDerived r derr])
  /\ (forall err, werr = Some err ->
      out.1 = Some err /\ trace out.2 = trace s1 ++ [EvWrite r (Some err)]).
Proof.
  intros ok s1 r werr derr out.
  pose proof (fixAndWriteAll_eq s) as Heq. cbv zeta in Heq.
  fold ok s1 r werr in Heq. fold derr in Heq. fold out in Heq.
  destruct werr as [err|] eqn:Hw; [|destruct ok eqn:Hok]; rewrite Heq;
    cbn [fst snd trace].
  - split; [split; [done|by intros (_ & ? & _)]|]. split; [done|].
    by intros err' [= <-].
  - split; [split; [done|by intros (_ & _ & ?)]|]. split; [|done].
    intros _ _. by rewrite <- app_assoc.
  - split; [split; [done|by intros (? & _)]|]. done.
Qed.

(** *** The order of the pass *)

(** X9.  The pass works in five phases, in this order: the lint with [Fix];
    the symbol refresh, which alone calls [symbols.Exported]; the alias
    merge, which alone calls the alias finder; the reference validation,
    which alone sends requests; the final lint. Besides the calls of its
    phase, a phase only logs. *)
Theorem fixer_fix_phases addNotes s :
  exists e0 e1 eA eR eF,
    trace (fixer_fix' addNotes s).2 = trace s ++ e0 ++ e1 ++ eA ++ eR ++ eF
    /\ Forall (fun e => isLint e \/ isFix e) e0
    /\ Forall (fun e => isLog e \/ isExported e) e1
    /\ Forall (fun e => isLog e \/ isAddMissingAliases e) eA
    /\ Forall (fun e => isLog e \/ isHead e) eR
    /\ Forall (fun e => isLog e \/ isLint e \/ isLintAsNotes e) eF.
Proof.
  unfold fixer_fix. rewrite !bind_eq. cbn [setFixed getFixed fst snd].
  set (s0 := {| world := world s; trace := trace s; rep := rep s; fixed := true |}).
  set (s1 := (lintAndFix' s0).2).
  set (s2 := (checkSymbolsStep' addNotes s1).2).
  set (s3 := (addMissingAliasesStep' s2).2).
  set (s4 := (checkRefsStep' addNotes s3).2).
  set (s5 := (finalLint' addNotes s4).2).
  destruct (emitting_lintAndFix (fun e => isLint e \/ isFix e)
              ltac:(intros; by left) ltac:(intros; by right) s0)
    as (e0 & Ht1 & H0).
  destruct (emitting_checkSymbolsStep (fun e => isLog e \/ isExported e) addNotes
              ltac:(intros; by left) ltac:(intros; by left)
              ltac:(intros; by right) s1) as (e1 & Ht2 & H1).
  destruct (emitting_addMissingAliasesStep (fun e => isLog e \/ isAddMissingAliases e)
              ltac:(intros; by left) ltac:(intros; by right) s2) as (eA & Ht3 & HA).
  destruct (emitting_checkRefsStep (fun e => isLog e \/ isHead e) addNotes
              ltac:(intros; by left) ltac:(intros; by left)
              ltac:(intros; by right) s3) as (eR & Ht4 & HR).
  destruct (emitting_finalLint (fun e => isLog e \/ isLint e \/ isLintAsNotes e) addNotes
              ltac:(intros; by left) ltac:(intros; right; by left)
              ltac:(intros; right; by right) s4)
    as (eF & Ht5 & HF).
  fold s1 in Ht1. fold s2 in Ht2. fold s3 in Ht3. fold s4 in Ht4. fold s5 in Ht5.
  exists e0, e1, eA, eR, eF. split; [|done].
  rewrite Ht5, Ht4, Ht3, Ht2, Ht1. cbn [trace]. by rewrite <- !app_assoc.
Qed.

(** *** Writing the report: what is written, and when *)

(** C1.  The pass itself writes nothing.  Once it has returned, whatever it
    returned, the next thing [fixAndWriteAll] does is to write the report as
    the pass left it: [write] is run on the world the pass has left, and the
    world [fixAndWriteAll] leaves is the one [write] has left -- or, after a
    pass that succeeded and a write that went through, the one
    [writeDerived] has made of it.  When the pass has failed, that write is
    all that follows, and the error is returned after it: the manual-review
    error when the write went through, the write's own error otherwise.  The
    pass ends with a lint of the report as it leaves it, and has failed
    exactly when it has recorded a fix error or that lint has found
    defects. *)
Theorem fixAndWriteAll_writes_report s :
  let ok := (fixer_fix' false s).1 in
  let s1 := (fixer_fix' false s).2 in
  let r := rep s1 in
  let werr := (write r (world s1)).1 in
  let w2 := (write r (world s1)).2 in
  let out := fixAndWriteAll' s in
  emitting (fun e => ~ isWrite e) s s1
  /\ (exists tail, trace out.2 = trace s1 ++ EvWrite r werr :: tail)
  /\ rep out.2 = r
  /\ world out.2
     = (if ok
        then match werr with
             | None => (writeDerived r w2).2
             | Some _ => w2
             end
        else w2)
  /\ (ok = false ->
      trace out.2 = trace s1 ++ [EvWrite r werr]
      /\ world out.2 = w2
      /\ out.1 = Some (match werr with
                       | Some err => err
                       | None => manualReview (report.ID r)
                       end))
  /\ (forall evs,
        trace s1 = trace s ++ evs ->
        (Exists isErrLine evs -> ok = false)
        /\ (forall pre r' lints post,
              evs = pre ++ EvLint r' lints :: post ->
              Forall (fun e => ~ isLint e) post ->
              lints <> [] ->
              ok = false))
  /\ (exists w pre tail,
        let lints := (Lint r w).1 in
        trace s1 = trace s ++ pre ++ EvLint r lints :: tail
        /\ world s1 = (Lint r w).2
        /\ Forall (fun e => ~ isLint e) tail
        /\ Forall (fun e => ~ isErrLine e) tail
        /\ (ok = false <-> Exists isErrLine pre \/ lints <> [])).
Proof.
  intros ok s1 r werr w2 out.
  split; [by apply fixer_fix_emitting|].
  pose proof (fixer_fix_reports_failure s) as Hcause. cbv zeta in Hcause.
  fold ok s1 in Hcause.
  pose proof (fixer_fix_outcome s) as Hout. cbv zeta in Hout.
  fold ok s1 in Hout. fold r in Hout.
  pose proof (fixAndWriteAll_eq s) as Heq. cbv zeta in Heq.
  fold ok s1 r werr out in Heq. fold r werr w2 in Heq.
  destruct werr as [err|] eqn:Hw; [|destruct ok eqn:Hok]; rewrite Heq;
    cbn [fst snd trace rep world].
  - split; [by exists []|]. split; [done|]. split; [by destruct ok|].
    by repeat (split; [done|]).
  - split; [|by repeat (split; [done|])].
    eexists. by rewrite <- app_assoc.
  - split; [by exists []|]. by repeat (split; [done|]).
Qed.

(** C10.  Of all that [fixAndWriteAll] does, [writeDerived] is called exactly
    when the pass has returned success and the write of the report went
    through: after the pass, which writes nothing, [fixAndWriteAll] writes
    the report, and then, in that case only, the derived files from the same
    report, on the world the write has left.  In every other case the write
    of the report is the last thing done and the world is as that write has
    left it.  What is returned is the error of the write of the report, or
    else, after a pass that succeeded, what [writeDerived] has returned, and
    after a failed pass the manual-review error. *)
Theorem fixAndWriteAll_writeDerived s :
  let ok := (fixer_fix' false s).1 in
  let s1 := (fixer_fix' false s).2 in
  let r := rep s1 in
  let werr := (write r (world s1)).1 in
  let w2 := (write r (world s1)).2 in
  let derr := (writeDerived r w2).1 in
  let out := fixAndWriteAll' s in
  emitting (fun e => ~ isWrite e) s s1
  /\ trace out.2
     = trace s1 ++ EvWrite r werr
                :: (if ok
                    then match werr with
                         | None => [EvWriteDerived r derr]
                         | Some _ => []
                         end
                    else [])
  /\ world out.2
     = (if ok
        then match werr with
             | None => (writeDerived r w2).2
             | Some _ => w2
             end
        else w2)
  /\ out.1
     = match werr with
       | Some err => Some err
       | None => if ok then derr else Some (manualReview (report.ID r))
       end
  /\ (exists evs,
        trace out.2 = trace s ++ evs
        /\ ((exists r' err', EvWriteDerived r' err' ∈ evs) <-> ok = true /\ werr = None)
        /\ (ok = false ->
            out.1 <> None /\ forall e, e ∈ evs -> isWrite e -> e = EvWrite r werr)).
Proof.
  intros ok s1 r werr w2 derr out.
  destruct (fixer_fix_emitting (fun e => ~ isWrite e) false (fun _ H => H) s)
    as (evs1 & Hs1 & Hnw).
  fold s1 in Hs1.
  split; [by exists evs1|].
  assert (Hin1 : forall e, e ∈ evs1 -> ~ isWrite e)
    by (by apply Forall_forall).
  pose proof (fixAndWriteAll_eq s) as Heq. cbv zeta in Heq.
  fold ok s1 r werr out in Heq. fold r werr w2 in Heq. fold derr in Heq.
  destruct werr as [err|] eqn:Hw; [|destruct ok eqn:Hok]; rewrite Heq;
    cbn [fst snd trace world].
  - split; [by destruct ok|]. split; [by destruct ok|]. split; [done|].
    rewrite Hs1, <- ?app_assoc. eexists. split; [done|].
    split; [split|].
    + intros (r' & err' & Hin). apply elem_of_app in Hin as [Hin|Hin].
      * by apply Hin1 in Hin.
      * apply list_elem_of_singleton in Hin. done.
    + by intros [_ ?].
    + intros _. split; [done|]. intros e Hin Hwr.
      apply elem_of_app in Hin as [Hin|Hin]; [by apply Hin1 in Hin|].
      by apply list_elem_of_singleton in Hin.
  - split; [by rewrite <- app_assoc|]. split; [done|]. split; [done|].
    rewrite Hs1, <- ?app_assoc. eexists. split; [done|].
    split; [split|done].
    + done.
    + intros _. exists r, derr.
      apply elem_of_app. right. apply list_elem_of_further, list_elem_of_here.
  - split; [done|]. split; [done|]. split; [done|].
    rewrite Hs1, <- ?app_assoc. eexists. split; [done|].
    split; [split|].
    + intros (r' & err' & Hin). apply elem_of_app in Hin as [Hin|Hin].
      * by apply Hin1 in Hin.
      * apply list_elem_of_singleton in Hin. done.
    + by intros [? _].
    + intros _. split; [done|]. intros e Hin Hwr.
      apply elem_of_app in Hin as [Hin|Hin]; [by apply Hin1 in Hin|].
      by apply list_elem_of_singleton in Hin.
Qed.

End FixFacts.


(** ** The concrete run *)

(** What the pass leaves in the trace on [demo.r]: the failed call of
    [symbols.Exported] for the package of module 1 stands between
    [demo.before] and [demo.after]. *)
Lemma demo_fix :
  demo.fix_ false demo.s
  = (false,
     {| world := tt;
        trace := demo.before ++ demo.failed :: demo.after;
        rep := demo.r;
        fixed := false |}).
Proof. vm_compute. reflexivity. Qed.

(** C3, as the specification words it, fails on the concrete run: the
    package loader fails for the package of module 1, and module 2, which
    nothing else keeps from being refreshed, is never queried. *)
Lemma remaining_modules_not_refreshed :
  ~ remainingModulesRefreshed demo.IsFirstParty
      (trace (demo.fix_ false demo.s).2) demo.r.
Proof.
  rewrite demo_fix. cbn [snd trace]. intros H.
  destruct (H 1 0 demo.moduleA (demo.package "example.com/a/pkg") [] "no Go files")
    with (i' := 2) (m' := demo.moduleB) (j' := 0)
         (p' := demo.package "example.com/b/pkg")
    as (m'' & result & Hin).
  - apply elem_of_app. right. apply list_elem_of_here.
  - lia.
  - reflexivity.
  - reflexivity.
  - reflexivity.
  - reflexivity.
  - apply list_elem_of_In in Hin. unfold demo.before, demo.failed, demo.after in Hin.
    cbn [app In] in Hin.
    repeat destruct Hin as [Hin|Hin]; try discriminate Hin; done.
Qed.

Lemma fixer_fix_failed_export_witness :
  trace (demo.fix_ false demo.s).2
  = trace demo.s ++ demo.before ++ demo.failed :: demo.after
  /\ Forall (fun e => ~ isExported e) demo.after
  /\ (demo.fix_ false demo.s).1 = false.
Proof.
  pose proof (fixer_fix_failed_export
                false false false demo.runtime_Version "SEMVER" demo.AffectsSemver
                demo.IsExcluded demo.IsFirstParty demo.Lint demo.Fix demo.LintAsNotes
                "FIX" demo.AddNote demo.addMissingAliases demo.Exported demo.Head
                false demo.s demo.before demo.after
                1 0 demo.moduleA (demo.package "example.com/a/pkg") [] "no Go files")
    as H.
  cbv zeta in H.
  match type of H with
  | ?A -> _ => assert (Hrun : A) by (vm_compute; reflexivity)
  end.
  destruct (H Hrun) as (Hpost & _ & Hok & _).
  split; [exact Hrun|]. split; [exact Hpost|exact Hok].
Defined.

Lemma checkSymbols_skips_module_witness :
  report.Modules (rep demo.s) !! 0 = Some demo.std
  /\ demo.IsFirstParty demo.std = true
  /\ semverForGoVersion demo.runtime_Version = ""
  /\ report.Modules (rep (demo.checkSymbols_ demo.s).2) !! 0 = Some demo.std.
Proof.
  assert (Hver : semverForGoVersion demo.runtime_Version = "")
    by (vm_compute; reflexivity).
  split; [reflexivity|]. split; [reflexivity|]. split; [exact Hver|].
  exact (proj2 (checkSymbols_skips_module
                  demo.runtime_Version "SEMVER" demo.AffectsSemver demo.IsExcluded
                  demo.IsFirstParty demo.Exported demo.s 0 demo.std
                  eq_refl eq_refl (or_introl Hver))).
Defined.

Lemma fixAndWriteAll_writes_report_witness :
  (disk.fix_ disk.s).1 = false
  /\ world (disk.fixAndWriteAll_ disk.s).2 = [("data/reports", demo.r)]
  /\ (disk.fixAndWriteAll_ disk.s).1 = Some (manualReview "GO-2024-0001").
Proof.
  pose proof (fixAndWriteAll_writes_report
                false false false demo.runtime_Version "SEMVER" demo.AffectsSemver
                demo.IsExcluded demo.IsFirstParty disk.Lint disk.Fix disk.LintAsNotes
                "FIX" demo.AddNote disk.addMissingAliases disk.write disk.writeDerived
                disk.Exported disk.Head disk.s)
    as H.
  cbv zeta in H. destruct H as (_ & _ & _ & _ & H & _).
  match type of H with
  | ?A -> _ => assert (Hok : A) by (vm_compute; reflexivity)
  end.
  destruct (H Hok) as (_ & Hworld & Hres). split; [exact Hok|].
  vm_compute in Hworld, Hres. vm_compute. split; [exact Hworld|exact Hres].
Defined.

Lemma fixAndWriteAll_writeDerived_witness :
  world (disk.fixAndWriteAll_ disk.s).2 = [("data/reports", demo.r)]
  /\ world (disk.fixAndWriteAllOk disk.s).2
     = [("data/reports", disk.refreshed); ("data/osv", disk.refreshed)].
Proof.
  pose proof (fixAndWriteAll_writeDerived
                false false false demo.runtime_Version "SEMVER" demo.AffectsSemver
                demo.IsExcluded demo.IsFirstParty disk.Lint disk.Fix disk.LintAsNotes
                "FIX" demo.AddNote disk.addMissingAliases disk.write disk.writeDerived
                disk.Exported disk.Head disk.s)
    as Hfail.
  pose proof (fixAndWriteAll_writeDerived
                false false false demo.runtime_Version "SEMVER" demo.AffectsSemver
                demo.IsExcluded demo.IsFirstParty disk.Lint disk.Fix disk.LintAsNotes
                "FIX" demo.AddNote disk.addMissingAliases disk.write disk.writeDerived
                disk.ExportedOk disk.Head disk.s)
    as Hpass.
  cbv zeta in Hfail, Hpass.
  destruct Hfail as (_ & _ & Hfail & _). destruct Hpass as (_ & _ & Hpass & _).
  vm_compute in Hfail, Hpass. vm_compute. split; [exact Hfail|exact Hpass].
Defined.

Lemma checkRefs_defects_witness :
  trace (disk.checkRefs_ disk.s).2
  = [ EvHead "https://example.com/gone"
             ({| Status := "404 Not Found"; StatusCode := 404 |}, None);
      EvLog Err "GO-2024-0001: %q may not exist: HTTP GET returned status %s"
            [ArgS "https://example.com/gone"; ArgS "404 Not Found"];
      EvHead "https://example.com/down" (disk.noResponse, Some "dial tcp: i/o timeout");
      EvLog Err "GO-2024-0001: %q may not exist: %v"
            [ArgS "https://example.com/down"; ArgS "dial tcp: i/o timeout"];
      EvHead "https://example.com/failing"
             ({| Status := "500 Internal Server Error"; StatusCode := 500 |}, None) ]
  /\ fixed (disk.checkRefs_ disk.s).2 = false.
Proof.
  pose proof (checkRefs_defects "FIX" demo.AddNote disk.HeadByUrl false
                                [disk.gone; disk.down; disk.failing] disk.s)
    as H.
  cbv zeta in H. destruct H as (Htrace & Hfixed & _).
  vm_compute in Htrace, Hfixed. vm_compute. split; [exact Htrace|exact Hfixed].
Defined.

Lemma semverForGoVersion_spec_witness :
  wellFormed demo.tag
  /\ semverForGoVersion "go1.22.0rc2" = "1.22.0-rc.2".
Proof.
  assert (Htag : wellFormed demo.tag).
  { repeat split; try discriminate; repeat constructor. }
  split; [exact Htag|].
  exact (proj1 semverForGoVersion_spec demo.tag Htag).
Defined.



Lemma ModulesForEntry_paths_witness :
  keysOf demo.Keys /\ NoDup (ModulesForEntry unit demo.Keys demo.entry).
Proof.
  assert (HKeys : keysOf demo.Keys) by (intros m; reflexivity).
  split; [exact HKeys|].
  exact (proj1 (ModulesForEntry_paths unit demo.Keys demo.entry HKeys)).
Defined.

Lemma trimWhitespace_single_line_witness :
  (NL ∉ demo.oneLine) /\ trimWhitespace demo.oneLine = runes "a b c".
Proof.
  assert (Hs : NL ∉ demo.oneLine).
  { apply (bool_decide_unpack _). vm_compute. exact I. }
  split; [exact Hs|].
  destruct (trimWhitespace_single_line demo.oneLine Hs) as [H _].
  rewrite H. vm_compute. reflexivity.
Defined.

Lemma fixer_fix_succeeds_iff_witness :
  trace (demo.fixOk demo.s).2 = trace demo.s ++ demo.passed
  /\ (demo.fixOk demo.s).1 = true.
Proof.
  pose proof (fixer_fix_succeeds_iff
                false false false demo.runtime_Version "SEMVER" demo.AffectsSemver
                demo.IsExcluded demo.IsFirstParty demo.Lint demo.Fix demo.LintAsNotes
                "FIX" demo.AddNote demo.addMissingAliases demo.ExportedOk demo.Head
                demo.s demo.passed)
    as H.
  cbv zeta in H.
  match type of H with
  | ?A -> _ => assert (Hrun : A) by (vm_compute; reflexivity)
  end.
  split; [exact Hrun|].
  apply (proj2 (H Hrun)). split.
  - unfold demo.passed. repeat constructor; kind_solve.
  - exists (removelast demo.passed), (rep (demo.fixOk demo.s).2).
    vm_compute. reflexivity.
Defined.

Lemma GenerateOSVEntry_modules_witness :
  keysOf demo.Keys
  /\ "std" ∉ ModulesForEntry unit demo.Keys
               (GenerateOSVEntry "SEMVER" "stdlib" "toolchain" "Go" "std" "cmd" unit
                                 (fun _ => tt) (fun _ => None) (fun id => id)
                                 (fun _ => []) runes demo.r "GO-2024-0001" tt).
Proof.
  assert (HKeys : keysOf demo.Keys) by (intros m; reflexivity).
  assert (Hstd : "stdlib" <> "std" /\ "stdlib" <> "cmd") by (split; discriminate).
  assert (Hcmd : "toolchain" <> "std" /\ "toolchain" <> "cmd") by (split; discriminate).
  pose proof (GenerateOSVEntry_modules
                "SEMVER" "stdlib" "toolchain" "Go" "std" "cmd" unit
                (fun _ => tt) (fun _ => None) (fun id => id) (fun _ => []) runes demo.Keys
                demo.r "GO-2024-0001" tt HKeys Hstd Hcmd) as H.
  cbv zeta in H. destruct H as (_ & _ & H & _).
  split; [exact HKeys|exact H].
Defined.
